(** * CryptoCoin: a shallow embedding of the ledger core

    The development follows the TypeScript sources class by class:
    [CryptoUtils] (hashing and the Merkle reduction), [Transaction],
    [TransactionBlock] (a [Block] carrying transactions, sealed by the
    proof-of-work search), [Blockchain] (the proof-of-work chain) and
    [ProofOfStakeBlockchain].

    Modelling conventions.
    - A JavaScript [number] that holds an amount, a balance, a stake or a
      reward is a binary64 value, [JS.number]: the arithmetic and the
      comparisons of the program are those of IEEE 754, with rounding to
      nearest, the infinities, the two zeros and [NaN].
    - A [number] that holds an index, a nonce, a length or a clock reading is
      a whole number that the program only counts up or reads from the clock;
      it is kept in [Z] (below 2^53 the two agree).
    - A [string] is a sequence of one-byte characters, which is what the
      program hashes for identifiers, addresses and hexadecimal digests.
    - [crypto.createHash('sha256')] is SHA-256 as in FIPS 180-4, written out
      on 32-bit words kept in [Z].
    - [Date.now()], [randomBytes] and [Math.random()] belong to the
      environment: every operation that reads them takes the values read as
      arguments.
    - The [Map] of balances is only read and written by key and is a
      [gmap string _]; the [Map] of validators is also enumerated, and is
      kept in insertion order ([JSMap.t]).  An absent key is [undefined].
    - A method that mutates [this] and may throw is a computation of the
      monad [M], which threads the object state and records a throw together
      with the state in which it happened. *)

From Stdlib Require Import ZArith List Ascii String DecimalString Lia Bool.
From Stdlib Require Import Floats.SpecFloat.
From stdpp Require Import gmap strings list fin_maps.
Import ListNotations.

(** ** SHA-256 *)

Module Sha256.
Local Open Scope Z_scope.

Definition mask32 : Z := 0xFFFFFFFF.
Definition add32 (x y : Z) : Z := Z.land (x + y) mask32.
Definition rotr (n x : Z) : Z :=
  Z.lor (Z.shiftr x n) (Z.land (Z.shiftl x (32 - n)) mask32).
Definition shr (n x : Z) : Z := Z.shiftr x n.
Definition not32 (x : Z) : Z := Z.lxor x mask32.

Definition Ch (x y z : Z) : Z := Z.lxor (Z.land x y) (Z.land (not32 x) z).
Definition Maj (x y z : Z) : Z :=
  Z.lxor (Z.lxor (Z.land x y) (Z.land x z)) (Z.land y z).
Definition Sigma0 (x : Z) : Z :=
  Z.lxor (Z.lxor (rotr 2 x) (rotr 13 x)) (rotr 22 x).
Definition Sigma1 (x : Z) : Z :=
  Z.lxor (Z.lxor (rotr 6 x) (rotr 11 x)) (rotr 25 x).
Definition sigma0 (x : Z) : Z :=
  Z.lxor (Z.lxor (rotr 7 x) (rotr 18 x)) (shr 3 x).
Definition sigma1 (x : Z) : Z :=
  Z.lxor (Z.lxor (rotr 17 x) (rotr 19 x)) (shr 10 x).

(** The round constants and the initial hash value are derived as the
    standard defines them, from the first sixty-four primes. *)
Definition is_prime (n : Z) : bool :=
  forallb (fun d => negb (n mod d =? 0))
          (List.filter (fun d => d * d <=? n)
                       (map Z.of_nat (seq 2 (Z.to_nat n - 2)))).

Definition primes : list Z :=
  Eval vm_compute in List.filter is_prime (map Z.of_nat (seq 2 310)).

(** The integer cube root, one bit at a time from bit [bits - 1] down. *)
Fixpoint cube_root (bits : nat) (n r : Z) : Z :=
  match bits with
  | O => r
  | S b =>
      let c := r + Z.shiftl 1 (Z.of_nat b) in
      cube_root b n (if c * c * c <=? n then c else r)
  end.

(** The first 32 bits of the fractional parts of the cube roots of the
    primes. *)
Definition K : list Z :=
  Eval vm_compute in
    map (fun p => Z.land (cube_root 36 (Z.shiftl p 96) 0) mask32) primes.

(** The first 32 bits of the fractional parts of the square roots of the
    first eight primes. *)
Definition H0 : list Z :=
  Eval vm_compute in
    map (fun p => Z.land (Z.sqrt (Z.shiftl p 64)) mask32) (firstn 8 primes).

(** The bytes of the input, one per character. *)
Fixpoint bytes_of (s : string) : list Z :=
  match s with
  | EmptyString => []
  | String c r => Z.of_N (N_of_ascii c) :: bytes_of r
  end.

(** Big-endian bytes of [x], [width] of them. *)
Definition be_bytes (width : nat) (x : Z) : list Z :=
  map (fun i => Z.land (Z.shiftr x (8 * Z.of_nat i)) 0xFF) (rev (seq 0 width)).

(** Padding: the bit 1, zeros up to 56 modulo 64, the bit length on 64 bits. *)
Definition pad (msg : list Z) : list Z :=
  let len := Z.of_nat (length msg) in
  let zeros := Z.to_nat ((55 - len) mod 64) in
  msg ++ [0x80] ++ repeat 0 zeros ++ be_bytes 8 (8 * len).

Fixpoint words_of (fuel : nat) (bs : list Z) : list Z :=
  match fuel, bs with
  | S f, b0 :: b1 :: b2 :: b3 :: r =>
      Z.lor (Z.shiftl b0 24) (Z.lor (Z.shiftl b1 16) (Z.lor (Z.shiftl b2 8) b3))
      :: words_of f r
  | _, _ => []
  end.

(** Message schedule; the list holds W[t-1], W[t-2], ..., newest first. *)
Fixpoint schedule (n : nat) (rev_w : list Z) : list Z :=
  match n with
  | O => rev_w
  | S n' =>
      let w := add32 (add32 (sigma1 (nth 1 rev_w 0)) (nth 6 rev_w 0))
                     (add32 (sigma0 (nth 14 rev_w 0)) (nth 15 rev_w 0)) in
      schedule n' (w :: rev_w)
  end.

Record regs := Regs
  { ra : Z; rb : Z; rc : Z; rd : Z; re : Z; rf : Z; rg : Z; rh : Z }.

Definition round (s : regs) (kw : Z * Z) : regs :=
  let '(k, w) := kw in
  let t1 := add32 (add32 (add32 (rh s) (Sigma1 (re s)))
                         (add32 (Ch (re s) (rf s) (rg s)) k)) w in
  let t2 := add32 (Sigma0 (ra s)) (Maj (ra s) (rb s) (rc s)) in
  Regs (add32 t1 t2) (ra s) (rb s) (rc s) (add32 (rd s) t1) (re s) (rf s) (rg s).

Definition regs_of (h : list Z) : regs :=
  Regs (nth 0 h 0) (nth 1 h 0) (nth 2 h 0) (nth 3 h 0)
       (nth 4 h 0) (nth 5 h 0) (nth 6 h 0) (nth 7 h 0).

Definition compress (h : list Z) (block : list Z) : list Z :=
  let w := rev (schedule 48 (rev block)) in
  let s0 := regs_of h in
  let s := fold_left round (combine K w) s0 in
  [add32 (ra s0) (ra s); add32 (rb s0) (rb s);
   add32 (rc s0) (rc s); add32 (rd s0) (rd s);
   add32 (re s0) (re s); add32 (rf s0) (rf s);
   add32 (rg s0) (rg s); add32 (rh s0) (rh s)].

Fixpoint blocks (fuel : nat) (h : list Z) (ws : list Z) : list Z :=
  match fuel with
  | O => h
  | S f =>
      match ws with
      | [] => h
      | _ => blocks f (compress h (firstn 16 ws)) (skipn 16 ws)
      end
  end.

Definition digest (msg : list Z) : list Z :=
  let bs := pad msg in
  let ws := words_of (length bs) bs in
  blocks (length ws) H0 ws.

Definition hex_digit (d : Z) : ascii :=
  ascii_of_N (Z.to_N (if d <? 10 then 48 + d else 87 + d)).

Definition hex_word (w : Z) : string :=
  String (hex_digit (Z.land (Z.shiftr w 28) 15))
 (String (hex_digit (Z.land (Z.shiftr w 24) 15))
 (String (hex_digit (Z.land (Z.shiftr w 20) 15))
 (String (hex_digit (Z.land (Z.shiftr w 16) 15))
 (String (hex_digit (Z.land (Z.shiftr w 12) 15))
 (String (hex_digit (Z.land (Z.shiftr w 8) 15))
 (String (hex_digit (Z.land (Z.shiftr w 4) 15))
 (String (hex_digit (Z.land w 15)) EmptyString))))))).

(** [digest('hex')]: eight words of eight lower-case hexadecimal digits. *)
Definition hexdigest (input : string) : string :=
  let h := digest (bytes_of input) in
  hex_word (nth 0 h 0) +:+ hex_word (nth 1 h 0) +:+
  hex_word (nth 2 h 0) +:+ hex_word (nth 3 h 0) +:+
  hex_word (nth 4 h 0) +:+ hex_word (nth 5 h 0) +:+
  hex_word (nth 6 h 0) +:+ hex_word (nth 7 h 0).

End Sha256.

(** ** JavaScript values *)

Module JS.
Local Open Scope Z_scope.

(** *** Numbers *)

(** A [number] is a binary64 value, in the representation of the standard
    library's specification of floating-point arithmetic: a signed zero, a
    signed infinity, [NaN], or a sign, a mantissa and an exponent.  The
    values the program computes have a mantissa of at most 53 bits and an
    exponent between -1074 and 971. *)
Definition number : Type := spec_float.

Definition prec : Z := 53.
Definition emax : Z := 1024.

Definition NaN : number := S754_nan.

(** [x + y], [x - y], [x * y], [x < y] and [x <= y] on numbers. *)
Definition add (x y : number) : number := SFadd prec emax x y.
Definition sub (x y : number) : number := SFsub prec emax x y.
Definition mul (x y : number) : number := SFmul prec emax x y.
Definition ltb (x y : number) : bool := SFltb x y.
Definition leb (x y : number) : bool := SFleb x y.

(** The number nearest to [digits * 10 ^ exponent], which is what a decimal
    literal of the program text denotes. *)
Definition of_decimal (digits exponent : Z) : number :=
  match exponent with
  | Zneg p =>
      match digits with
      | Z0 => S754_zero false
      | Zpos d =>
          SFdiv prec emax (S754_finite false d 0) (S754_finite false (10 ^ p) 0)
      | Zneg d =>
          SFdiv prec emax (S754_finite true d 0) (S754_finite false (10 ^ p) 0)
      end
  | _ => binary_normalize prec emax (digits * 10 ^ exponent) 0 false
  end.

Definition of_numeral (numeral : Number.number) : option number :=
  match numeral with
  | Number.Decimal (Decimal.Decimal i f) =>
      Some (of_decimal (Z.of_int (Decimal.app_int i f))
                       (- Z.of_nat (Decimal.nb_digits f)))
  | Number.Decimal (Decimal.DecimalExp i f e) =>
      Some (of_decimal (Z.of_int (Decimal.app_int i f))
                       (Z.of_int e - Z.of_nat (Decimal.nb_digits f)))
  | Number.Hexadecimal _ => None
  end.

(** Numbers are displayed as they are stored. *)
Definition to_numeral (x : number) : option Number.number := None.

(** The same value in the same representation; unlike [===] it separates
    the two zeros and takes [NaN] for itself. *)
Definition same (x y : number) : bool :=
  match x, y with
  | S754_zero s, S754_zero s' => Bool.eqb s s'
  | S754_infinity s, S754_infinity s' => Bool.eqb s s'
  | S754_nan, S754_nan => true
  | S754_finite s m e, S754_finite s' m' e' =>
      Bool.eqb s s' && (m =? m')%positive && (e =? e')
  | _, _ => false
  end.

(** Neither [NaN] nor an infinity. *)
Definition finite (x : number) : bool :=
  match x with
  | S754_zero _ | S754_finite _ _ _ => true
  | S754_infinity _ | S754_nan => false
  end.

(** The value of a finite number counted in units of 2^-1074, the smallest
    positive number: every finite binary64 value is a whole number of them.
    [NaN] and the infinities count for nothing. *)
Definition units (x : number) : Z :=
  match x with
  | S754_finite s m e => cond_Zopp s (Z.shiftl (Zpos m) (e + 1074))
  | _ => 0
  end.

(** *** Strings *)

(** [String(n)] for a whole number [n] below 10^21, as in [n + s]. *)
Definition string_of_integer (n : Z) : string :=
  NilZero.string_of_int (Z.to_int n).

(** [10 ^ n <= N / D]. *)
Definition power_of_ten_le (n N D : Z) : bool :=
  if 0 <=? n then 10 ^ n * D <=? N else D <=? 10 ^ (- n) * N.

(** The [n] with [10 ^ (n - 1) <= N / D < 10 ^ n], searched from an
    estimate. *)
Fixpoint magnitude (fuel : nat) (n N D : Z) : Z :=
  match fuel with
  | O => n
  | S fuel' =>
      if power_of_ten_le n N D then magnitude fuel' (n + 1) N D
      else if power_of_ten_le (n - 1) N D then n
      else magnitude fuel' (n - 1) N D
  end.

(** The decimals of [k] digits next to [x = N / D] below and above; one that
    denotes [x] is returned with its exponent, the nearer of the two when
    both do, the even one when they are as near. *)
Definition digits_at (x : number) (N D n k : Z) : option (Z * Z) :=
  let j := n - k in
  let '(A, B) := if 0 <=? j then (N, D * 10 ^ j) else (N * 10 ^ (- j), D) in
  let below := A / B in
  let above := below + 1 in
  let pick c := if c =? 10 ^ k then (10 ^ (k - 1), n + 1) else (c, n) in
  match same (of_decimal below j) x, same (of_decimal above j) x with
  | true, true =>
      match 2 * A ?= (below + above) * B with
      | Lt => Some (pick below)
      | Gt => Some (pick above)
      | Eq => Some (pick (if Z.even below then below else above))
      end
  | true, false => Some (pick below)
  | false, true => Some (pick above)
  | false, false => None
  end.

(** The shortest decimal that denotes [x]: seventeen digits always do. *)
Fixpoint shortest (fuel : nat) (x : number) (N D n k : Z) : Z * Z :=
  match fuel with
  | O => (if 0 <=? n - k then N / (D * 10 ^ (n - k)) else N * 10 ^ (k - n) / D, n)
  | S fuel' =>
      match digits_at x N D n k with
      | Some found => found
      | None => shortest fuel' x N D n (k + 1)
      end
  end.

Definition zeros (n : Z) : string :=
  string_of_list_ascii (repeat "0"%char (Z.to_nat n)).

(** [Number::toString] on a positive finite number of mantissa [m] and
    exponent [e]: the digits of the shortest decimal, laid out plainly when
    the decimal point falls within 21 digits to the right or 6 to the left,
    and with an exponent otherwise. *)
Definition positive_to_string (x : number) (m : positive) (e : Z) : string :=
  let '(N, D) := if 0 <=? e then (Zpos m * 2 ^ e, 1) else (Zpos m, 2 ^ (- e)) in
  let estimate := (Z.log2 N - Z.log2 D) * 30103 / 100000 in
  let n := magnitude 8 estimate N D in
  let '(s, n) := shortest 17 x N D n 1 in
  let digits := string_of_integer s in
  let k := Z.of_nat (String.length digits) in
  if (k <=? n) && (n <=? 21) then digits +:+ zeros (n - k)
  else if (0 <? n) && (n <=? 21) then
    substring 0 (Z.to_nat n) digits +:+ "." +:+
    substring (Z.to_nat n) (Z.to_nat (k - n)) digits
  else if (-6 <? n) && (n <=? 0) then "0." +:+ zeros (- n) +:+ digits
  else
    let exponent := n - 1 in
    let sign := if 0 <=? exponent then "+" else "-" in
    if k =? 1 then digits +:+ "e" +:+ sign +:+ string_of_integer (Z.abs exponent)
    else
      substring 0 1 digits +:+ "." +:+ substring 1 (Z.to_nat (k - 1)) digits +:+
      "e" +:+ sign +:+ string_of_integer (Z.abs exponent).

(** [String(x)] for a number [x], as in [s + x]. *)
Definition string_of_number (x : number) : string :=
  match x with
  | S754_nan => "NaN"
  | S754_zero _ => "0"
  | S754_infinity false => "Infinity"
  | S754_infinity true => "-Infinity"
  | S754_finite false m e => positive_to_string x m e
  | S754_finite true m e => "-" +:+ positive_to_string (S754_finite false m e) m e
  end.

(** Truthiness of a string: only the empty string is falsy. *)
Definition truthy (s : string) : bool := negb (String.eqb s "").

(** [x || d] where [x] is a string or [undefined]. *)
Definition string_or (x : option string) (d : string) : string :=
  match x with
  | Some s => if truthy s then s else d
  | None => d
  end.

(** [x || d] where [x] is a number or [undefined]: the zeros and [NaN] are
    falsy. *)
Definition number_or (x : option number) (d : number) : number :=
  match x with
  | Some (S754_zero _) | Some S754_nan | None => d
  | Some n => n
  end.

(** [x || 0] where [x] is a number: what [getBalance] reads of a balance
    that was stored. *)
Definition or_zero (x : number) : number := number_or (Some x) (S754_zero false).

(** [s.substring(0, n)] for a count [n]. *)
Definition substring_to (n : nat) (s : string) : string := substring 0 n s.

(** ['0'.repeat(n)]. *)
Fixpoint repeat_char (c : ascii) (n : nat) : string :=
  match n with
  | O => EmptyString
  | S n' => String c (repeat_char c n')
  end.

End JS.

(** Decimal literals and the operators of the program on numbers. *)
Declare Scope number_scope.
Delimit Scope number_scope with number.
Bind Scope number_scope with JS.number.
Number Notation spec_float JS.of_numeral JS.to_numeral : number_scope.
Infix "+" := JS.add : number_scope.
Infix "-" := JS.sub : number_scope.
Infix "*" := JS.mul : number_scope.
Infix "<?" := JS.ltb : number_scope.
Infix "<=?" := JS.leb : number_scope.

(** *** Maps that are enumerated *)

(** A [Map<string, V>] whose [values()] the program reads: the entries in
    the order in which their keys were first set.  [set] on a key that is
    present replaces the value where it stands, [delete] takes the entry
    out, and a key set again after that goes to the end. *)
Module JSMap.

Definition t (V : Type) : Type := list (string * V).

Section Operations.
Context {V : Type}.

Definition empty : t V := [].

Fixpoint get (key : string) (m : t V) : option V :=
  match m with
  | [] => None
  | (k, v) :: rest => if String.eqb k key then Some v else get key rest
  end.

Fixpoint set (key : string) (value : V) (m : t V) : t V :=
  match m with
  | [] => [(key, value)]
  | (k, v) :: rest =>
      if String.eqb k key then (k, value) :: rest else (k, v) :: set key value rest
  end.

Definition delete (key : string) (m : t V) : t V :=
  List.filter (fun entry => negb (String.eqb (fst entry) key)) m.

Definition keys (m : t V) : list string := map fst m.

Definition values (m : t V) : list V := map snd m.

(** No key stands twice, as in every [Map]. *)
Definition wf (m : t V) : Prop := NoDup (keys m).

End Operations.

End JSMap.

(** ** utils.ts: CryptoUtils *)

Module CryptoUtils.

Definition calculateHash (input : string) : string := Sha256.hexdigest input.

Definition getDifficultyTarget (difficulty : nat) : string :=
  JS.repeat_char "0"%char difficulty.

(** The [for] loop of [calculateMerkleRoot]: [i] runs over 0, 2, 4, ... while
    [i < currentLevel.length]; [fuel] bounds the number of iterations. *)
Fixpoint pairLevel (fuel i : nat) (currentLevel nextLevel : list string)
  : list string :=
  match fuel with
  | O => nextLevel
  | S fuel' =>
      if (i <? length currentLevel)%nat then
        match currentLevel !! i with
        | Some left' =>
            let right' := JS.string_or (currentLevel !! (i + 1)%nat) left' in
            let combined := calculateHash (left' +:+ right') in
            pairLevel fuel' (i + 2) currentLevel (nextLevel ++ [combined])
        | None => nextLevel
        end
      else nextLevel
  end.

(** The [for] loop as a recursion on the part of the level still to read. *)
Fixpoint pairsOf (level : list string) : list string :=
  match level with
  | [] => []
  | [a] => [calculateHash (a +:+ a)]
  | a :: b :: rest =>
      calculateHash (a +:+ (if JS.truthy b then b else a)) :: pairsOf rest
  end.

(** The [while (currentLevel.length > 1)] loop. *)
Fixpoint reduceLevels (fuel : nat) (currentLevel : list string) : list string :=
  match fuel with
  | O => currentLevel
  | S fuel' =>
      if (1 <? length currentLevel)%nat then
        reduceLevels fuel'
          (pairLevel (length currentLevel) 0 currentLevel [])
      else currentLevel
  end.

(** [currentLevel[0]] of a level that the loop left non-empty;
    [undefined] does not arise and is rendered as the empty string. *)
Definition calculateMerkleRoot (transactionIds : list string) : string :=
  match transactionIds with
  | [] => calculateHash ""
  | [only] => only
  | _ =>
      match reduceLevels (length transactionIds) transactionIds with
      | root :: _ => root
      | [] => ""
      end
  end.

End CryptoUtils.

Arguments CryptoUtils.calculateHash : simpl never.

(** ** Methods as computations on the object state *)

(** The result of running a method on an object of type [S]: it returns a
    value and leaves a state, or throws in a state, or it is still running
    when its fuel is spent (the only unbounded loop is the nonce search). *)
Inductive outcome (S A : Type) : Type :=
| Return (a : A) (s : S)
| Throw (msg : string) (s : S)
| OutOfFuel.

Arguments Return {S A} a s.
Arguments Throw {S A} msg s.
Arguments OutOfFuel {S A}.

Definition M (S A : Type) : Type := S -> outcome S A.

Definition ret {S A} (a : A) : M S A := fun s => Return a s.

Definition bind {S A B} (c : M S A) (k : A -> M S B) : M S B :=
  fun s =>
    match c s with
    | Return a s' => k a s'
    | Throw msg s' => Throw msg s'
    | OutOfFuel => OutOfFuel
    end.

Definition throw {S A} (msg : string) : M S A := fun s => Throw msg s.
Definition spin {S A} : M S A := fun _ => OutOfFuel.
Definition get {S} : M S S := fun s => Return s s.
Definition modify {S} (f : S -> S) : M S unit := fun s => Return tt (f s).

Declare Scope method_scope.
Delimit Scope method_scope with method.
Notation "'let!' x ':=' c 'in' k" := (bind c (fun x => k))
  (at level 10, x name, c at level 100, k at level 200) : method_scope.
Notation "c ';;' k" := (bind c (fun _ => k))
  (at level 100, k at level 200, right associativity) : method_scope.

(** Running a method: the combinators are unfolded down to the state
    transformer. *)
Ltac run_method := unfold bind, get, throw, ret, modify, spin.

(** The state a computation ends in, when it ends. *)
Definition final_state {S A} (o : outcome S A) : option S :=
  match o with
  | Return _ s => Some s
  | Throw _ s => Some s
  | OutOfFuel => None
  end.

(** ** transaction.ts: Transaction *)

Module Transaction.
Local Open Scope Z_scope.

(** The optional [signature] is never assigned by the program and is left
    out. *)
Record t := mk
  { id : string;
    fromAddress : option string;
    toAddress : string;
    amount : JS.number;
    timestamp : Z }.

(** [new Transaction(fromAddress, toAddress, amount)], where [generateId()]
    returned [freshId] and [Date.now()] returned [now]. *)
Definition new (freshId : string) (now : Z)
    (fromAddress : option string) (toAddress : string) (amount : JS.number) : t :=
  {| id := freshId; fromAddress := fromAddress; toAddress := toAddress;
     amount := amount; timestamp := now |}.

Definition calculateHash (this : t) : string :=
  CryptoUtils.calculateHash
    (JS.string_or (fromAddress this) "" +:+ toAddress this +:+
     JS.string_of_number (amount this) +:+ JS.string_of_integer (timestamp this)).

Definition isValid (this : t) : bool :=
  match fromAddress this with
  | None => true
  | Some from =>
      if (amount this <=? 0)%number then false
      else if negb (JS.truthy from) || negb (JS.truthy (toAddress this)) then false
      else if String.eqb from (toAddress this) then false
      else true
  end.

Definition with_amount (amount' : JS.number) (this : t) : t :=
  {| id := id this; fromAddress := fromAddress this; toAddress := toAddress this;
     amount := amount'; timestamp := timestamp this |}.

End Transaction.

(** ** block.ts and blockchain.ts: Block, TransactionBlock *)

Module TransactionBlock.
Local Open Scope Z_scope.

(** The fields of [Block] followed by those that [TransactionBlock] adds. *)
Record t := mk
  { index : Z;
    timestamp : Z;
    data : string;
    previousHash : string;
    hash : string;
    nonce : Z;
    transactions : list Transaction.t;
    merkleRoot : string }.

Definition with_hash (hash' : string) (this : t) : t :=
  {| index := index this; timestamp := timestamp this; data := data this;
     previousHash := previousHash this; hash := hash'; nonce := nonce this;
     transactions := transactions this; merkleRoot := merkleRoot this |}.

Definition with_nonce (nonce' : Z) (this : t) : t :=
  {| index := index this; timestamp := timestamp this; data := data this;
     previousHash := previousHash this; hash := hash this; nonce := nonce';
     transactions := transactions this; merkleRoot := merkleRoot this |}.

Definition with_merkleRoot (merkleRoot' : string) (this : t) : t :=
  {| index := index this; timestamp := timestamp this; data := data this;
     previousHash := previousHash this; hash := hash this; nonce := nonce this;
     transactions := transactions this; merkleRoot := merkleRoot' |}.

Definition with_transactions (transactions' : list Transaction.t) (this : t) : t :=
  {| index := index this; timestamp := timestamp this; data := data this;
     previousHash := previousHash this; hash := hash this; nonce := nonce this;
     transactions := transactions'; merkleRoot := merkleRoot this |}.

(** The override of [TransactionBlock]: the header is the index, the previous
    hash, the timestamp, the stored Merkle root and the nonce. *)
Definition calculateHash (this : t) : string :=
  CryptoUtils.calculateHash
    (JS.string_of_integer (index this) +:+ previousHash this +:+
     JS.string_of_integer (timestamp this) +:+ merkleRoot this +:+
     JS.string_of_integer (nonce this)).

Definition calculateMerkleRoot (this : t) : string :=
  CryptoUtils.calculateMerkleRoot (map Transaction.id (transactions this)).

Definition hasValidTransactions (this : t) : bool :=
  forallb Transaction.isValid (transactions this).

(** [new TransactionBlock(index, transactions, previousHash)] at time [now].
    The hash that the constructor of [Block] stores first is overwritten by
    the last assignment and is not kept. *)
Definition new (now : Z) (index : Z) (transactions : list Transaction.t)
    (previousHash : string) : t :=
  let this :=
    {| index := index; timestamp := now; data := ""; previousHash := previousHash;
       hash := ""; nonce := 0; transactions := transactions; merkleRoot := "" |} in
  let this := with_merkleRoot (calculateMerkleRoot this) this in
  with_hash (calculateHash this) this.

Definition meetsTarget (difficulty : nat) (this : t) : bool :=
  String.eqb (JS.substring_to difficulty (hash this))
             (CryptoUtils.getDifficultyTarget difficulty).

(** One pass through the body of the [while] loop of [mineBlock]. *)
Definition nextNonce (this : t) : t :=
  let this := with_nonce (nonce this + 1) this in
  with_hash (calculateHash this) this.

(** [mineBlock(difficulty)]: the loop runs until the hash meets the target;
    [None] when it has not ended after [fuel] passes. *)
Fixpoint mineBlock (fuel : nat) (difficulty : nat) (this : t) : option t :=
  if negb (meetsTarget difficulty this) then
    match fuel with
    | O => None
    | S fuel' => mineBlock fuel' difficulty (nextNonce this)
    end
  else Some this.

End TransactionBlock.

(** ** The balance map of both chains *)

Module Ledger.
Local Open Scope Z_scope.

(** The body of the loop of [updateBalances], which [Blockchain] and
    [ProofOfStakeBlockchain] both have, word for word. *)
Definition applyTransaction (balances : gmap string JS.number)
    (transaction : Transaction.t) : gmap string JS.number :=
  let balances :=
    match Transaction.fromAddress transaction with
    | Some from =>
        if JS.truthy from then
          let currentBalance := JS.number_or (balances !! from) 0 in
          <[from := (currentBalance - Transaction.amount transaction)%number]> balances
        else balances
    | None => balances
    end in
  let receiverBalance :=
    JS.number_or (balances !! Transaction.toAddress transaction) 0 in
  <[Transaction.toAddress transaction :=
      (receiverBalance + Transaction.amount transaction)%number]> balances.

(** [balances.get(address) || 0], the body of [getBalance] in both classes. *)
Definition balanceOf (balances : gmap string JS.number) (address : string)
  : JS.number :=
  JS.number_or (balances !! address) 0.

(** *** Exact accounting *)

(** The exact sum of the values of a balance map, in units of 2^-1074. *)
Definition total (balances : gmap string JS.number) : Z :=
  map_fold (fun _ balance sum => sum + JS.units balance) 0 balances.

(** [result], which the program computed, is the number whose exact value
    is [value]: the operation did not round and did not overflow. *)
Definition exactly (result : JS.number) (value : Z) : bool :=
  JS.finite result && (JS.units result =? value).

(** The subtraction and the addition that [applyTransaction] makes are both
    exact. *)
Definition exactTransaction (balances : gmap string JS.number)
    (transaction : Transaction.t) : bool :=
  let amount := Transaction.amount transaction in
  let debited :=
    match Transaction.fromAddress transaction with
    | Some from =>
        if JS.truthy from then
          let currentBalance := JS.number_or (balances !! from) 0 in
          exactly (currentBalance - amount)%number
                  (JS.units currentBalance - JS.units amount)
        else true
    | None => true
    end in
  let balances :=
    match Transaction.fromAddress transaction with
    | Some from =>
        if JS.truthy from then
          <[from := (JS.number_or (balances !! from) 0 - amount)%number]> balances
        else balances
    | None => balances
    end in
  let receiverBalance :=
    JS.number_or (balances !! Transaction.toAddress transaction) 0 in
  debited && exactly (receiverBalance + amount)%number
                     (JS.units receiverBalance + JS.units amount).

(** Every update that applying [transactions] in order makes is exact. *)
Fixpoint exactOn (balances : gmap string JS.number)
    (transactions : list Transaction.t) : bool :=
  match transactions with
  | [] => true
  | transaction :: rest =>
      exactTransaction balances transaction
      && exactOn (applyTransaction balances transaction) rest
  end.

(** What a transaction adds to the exact sum of the balances when it is
    applied exactly: its amount when the loop body skips the debit, nothing
    otherwise. *)
Definition minted (transaction : Transaction.t) : Z :=
  match Transaction.fromAddress transaction with
  | Some from =>
      if JS.truthy from then 0 else JS.units (Transaction.amount transaction)
  | None => JS.units (Transaction.amount transaction)
  end.

Definition mintedBy (transactions : list Transaction.t) : Z :=
  fold_right (fun transaction sum => minted transaction + sum) 0 transactions.

(** What applying a transaction exactly adds to the balance of [address] as
    its recipient, and what it takes from it as its sender. *)
Definition credit (address : string) (transaction : Transaction.t) : Z :=
  if String.eqb (Transaction.toAddress transaction) address
  then JS.units (Transaction.amount transaction) else 0.

Definition debit (address : string) (transaction : Transaction.t) : Z :=
  match Transaction.fromAddress transaction with
  | Some from =>
      if JS.truthy from && String.eqb from address
      then JS.units (Transaction.amount transaction) else 0
  | None => 0
  end.

(** The signed sum of a list of transactions at [address]. *)
Definition net (address : string) (transactions : list Transaction.t) : Z :=
  fold_right
    (fun transaction sum => credit address transaction - debit address transaction + sum)
    0 transactions.

End Ledger.

(** ** blockchain.ts: Blockchain (proof of work) *)

Module Blockchain.
Local Open Scope Z_scope.
Local Open Scope method_scope.

Record t := mk
  { chain : list TransactionBlock.t;
    difficulty : nat;
    pendingTransactions : list Transaction.t;
    miningReward : JS.number;
    balances : gmap string JS.number }.

Definition with_chain (chain' : list TransactionBlock.t) (this : t) : t :=
  {| chain := chain'; difficulty := difficulty this;
     pendingTransactions := pendingTransactions this;
     miningReward := miningReward this; balances := balances this |}.

Definition with_pendingTransactions (pending' : list Transaction.t) (this : t) : t :=
  {| chain := chain this; difficulty := difficulty this;
     pendingTransactions := pending';
     miningReward := miningReward this; balances := balances this |}.

Definition with_balances (balances' : gmap string JS.number) (this : t) : t :=
  {| chain := chain this; difficulty := difficulty this;
     pendingTransactions := pendingTransactions this;
     miningReward := miningReward this; balances := balances' |}.

(** [createGenesisBlock()]: the transaction and the block each read the
    clock. *)
Definition createGenesisBlock (genesisId : string) (txTime blockTime : Z)
  : TransactionBlock.t :=
  let genesisTransaction := Transaction.new genesisId txTime None "genesis" 0 in
  TransactionBlock.new blockTime 0 [genesisTransaction] "0".

(** [new Blockchain()]. *)
Definition new (genesisId : string) (txTime blockTime : Z) : t :=
  {| chain := [createGenesisBlock genesisId txTime blockTime];
     difficulty := 3;
     pendingTransactions := [];
     miningReward := 10;
     balances := ∅ |}.

(** [this.chain[this.chain.length - 1]]. *)
Definition getLatestBlock (this : t) : option TransactionBlock.t :=
  chain this !! (length (chain this) - 1)%nat.

Definition getBalance (address : string) (this : t) : JS.number :=
  JS.number_or (balances this !! address) 0.

Definition updateBalances (transactions : list Transaction.t) (this : t) : t :=
  with_balances (fold_left Ledger.applyTransaction transactions (balances this)) this.

Definition createTransaction (transaction : Transaction.t) : M t unit :=
  if negb (Transaction.isValid transaction) then
    throw "Cannot add invalid transaction to chain"
  else
    match Transaction.fromAddress transaction with
    | Some from =>
        let! this := get in
        let balance := getBalance from this in
        if (balance <? Transaction.amount transaction)%number then
          throw "Not enough balance"
        else ret tt
    | None => ret tt
    end;;
    modify (fun this =>
      with_pendingTransactions (pendingTransactions this ++ [transaction]) this).

(** [minePendingTransactions(miningRewardAddress)].  The reward transaction
    gets [rewardId] and [rewardTime]; the block is stamped [blockTime]; the
    nonce search may take [fuel] passes. *)
Definition minePendingTransactions (fuel : nat)
    (rewardId : string) (rewardTime blockTime : Z)
    (miningRewardAddress : string) : M t unit :=
  let! this := get in
  let rewardTransaction :=
    Transaction.new rewardId rewardTime None miningRewardAddress (miningReward this) in
  modify (fun this =>
    with_pendingTransactions (pendingTransactions this ++ [rewardTransaction]) this);;
  let! this := get in
  match getLatestBlock this with
  | None => throw "TypeError: Cannot read properties of undefined (reading 'hash')"
  | Some latest =>
      let block :=
        TransactionBlock.new blockTime (Z.of_nat (length (chain this)))
          (pendingTransactions this) (TransactionBlock.hash latest) in
      match TransactionBlock.mineBlock fuel (difficulty this) block with
      | None => spin
      | Some block =>
          modify (fun this => with_chain (chain this ++ [block]) this);;
          modify (updateBalances (TransactionBlock.transactions block));;
          modify (with_pendingTransactions [])
      end
  end.

(** The checks of one pass of the loop of [isChainValid], on [chain[i]] and
    [chain[i - 1]]. *)
Definition blockValid (difficulty : nat)
    (currentBlock previousBlock : TransactionBlock.t) : bool :=
  if negb (TransactionBlock.hasValidTransactions currentBlock) then false
  else if negb (String.eqb (TransactionBlock.hash currentBlock)
                           (TransactionBlock.calculateHash currentBlock)) then false
  else if negb (String.eqb (TransactionBlock.previousHash currentBlock)
                           (TransactionBlock.hash previousBlock)) then false
  else if negb (String.eqb
                  (JS.substring_to difficulty (TransactionBlock.hash currentBlock))
                  (CryptoUtils.getDifficultyTarget difficulty)) then false
  else true.

(** [isChainValid()]: [i] runs from 1 to [chain.length - 1]; the first failing
    block ends the scan with [false]. *)
Definition isChainValid (this : t) : bool :=
  forallb
    (fun i : nat =>
       match chain this !! i, chain this !! (i - 1)%nat with
       | Some currentBlock, Some previousBlock =>
           blockValid (difficulty this) currentBlock previousBlock
       | _, _ => false
       end)
    (seq 1 (length (chain this) - 1)).

(** [chain[i].transactions[j].amount = amount'], an assignment from outside
    the class to the public fields. *)
Definition tamperAmount (i j : nat) (amount' : JS.number) (this : t) : t :=
  with_chain
    (alter (fun block =>
              TransactionBlock.with_transactions
                (alter (Transaction.with_amount amount') j
                       (TransactionBlock.transactions block))
                block)
           i (chain this))
    this.

(** The exact sum of all ledger balances, in units of 2^-1074. *)
Definition totalBalance (this : t) : Z := Ledger.total (balances this).

(** In every block after the genesis block, a transaction without sender is
    the last of its block, where [minePendingTransactions] puts the reward:
    no other transaction without sender was sealed. *)
Definition onlyRewardsIssued (this : t) : Prop :=
  forall (i : nat) block (j : nat) transaction,
    chain this !! i = Some block -> (1 <= i)%nat ->
    TransactionBlock.transactions block !! j = Some transaction ->
    Transaction.fromAddress transaction = None ->
    j = (length (TransactionBlock.transactions block) - 1)%nat.

(** [getStats()]. *)
Module Stats.
Record t := mk
  { totalBlocks : Z;
    difficulty : nat;
    pendingTransactions : Z;
    miningReward : JS.number;
    totalTransactions : Z }.
End Stats.

Definition getStats (this : t) : Stats.t :=
  {| Stats.totalBlocks := Z.of_nat (length (chain this));
     Stats.difficulty := difficulty this;
     Stats.pendingTransactions := Z.of_nat (length (pendingTransactions this));
     Stats.miningReward := miningReward this;
     Stats.totalTransactions :=
       fold_left
         (fun sum block =>
            sum + Z.of_nat (length (TransactionBlock.transactions block)))
         (chain this) 0 |}.

(** Assignments from outside the class to the public fields of a sealed
    block: [chain[i].hash = hash'], [chain[i].previousHash = previousHash']
    and [chain[i].transactions = transactions']. *)
Definition tamperHash (i : nat) (hash' : string) (this : t) : t :=
  with_chain (alter (TransactionBlock.with_hash hash') i (chain this)) this.

Definition with_previousHash (previousHash' : string) (block : TransactionBlock.t)
  : TransactionBlock.t :=
  {| TransactionBlock.index := TransactionBlock.index block;
     TransactionBlock.timestamp := TransactionBlock.timestamp block;
     TransactionBlock.data := TransactionBlock.data block;
     TransactionBlock.previousHash := previousHash';
     TransactionBlock.hash := TransactionBlock.hash block;
     TransactionBlock.nonce := TransactionBlock.nonce block;
     TransactionBlock.transactions := TransactionBlock.transactions block;
     TransactionBlock.merkleRoot := TransactionBlock.merkleRoot block |}.

Definition tamperPreviousHash (i : nat) (previousHash' : string) (this : t) : t :=
  with_chain (alter (with_previousHash previousHash') i (chain this)) this.

Definition replaceTransactions (i : nat) (transactions' : list Transaction.t)
    (this : t) : t :=
  with_chain
    (alter (TransactionBlock.with_transactions transactions') i (chain this)) this.

(** [chain[i] = block'], again from outside the class. *)
Definition replaceBlock (i : nat) (block' : TransactionBlock.t) (this : t) : t :=
  with_chain (<[i := block']> (chain this)) this.

(** The transactions that were applied to the ledger: those of the blocks
    after the genesis block, in order. *)
Definition settled (this : t) : list Transaction.t :=
  flat_map TransactionBlock.transactions (drop 1 (chain this)).

(** Every update of the ledger that sealing the blocks of the chain made was
    exact: no subtraction and no addition rounded. *)
Definition exactLedger (this : t) : bool := Ledger.exactOn ∅ (settled this).

(** What the constructor and the nonce search leave in a block that is put
    at position [i] after a block of hash [previous]. *)
Definition blockWellFormed (i : nat) (previous : string)
    (block : TransactionBlock.t) : Prop :=
  TransactionBlock.index block = Z.of_nat i
  /\ TransactionBlock.previousHash block = previous
  /\ TransactionBlock.hash block = TransactionBlock.calculateHash block
  /\ TransactionBlock.merkleRoot block = TransactionBlock.calculateMerkleRoot block
  /\ TransactionBlock.hasValidTransactions block = true
  /\ TransactionBlock.transactions block <> []
  /\ TransactionBlock.data block = ""
  /\ 0 <= TransactionBlock.nonce block.

Fixpoint chainWellFormed (i : nat) (previous : string)
    (blocks : list TransactionBlock.t) : Prop :=
  match blocks with
  | [] => True
  | block :: rest =>
      blockWellFormed i previous block
      /\ chainWellFormed (S i) (TransactionBlock.hash block) rest
  end.

(** The hash a block appended to [blocks] has to name. *)
Definition lastHash (previous : string) (blocks : list TransactionBlock.t) : string :=
  fold_left (fun _ block => TransactionBlock.hash block) blocks previous.

(** What the blocks after the genesis block add to the exact sum of the
    balances. *)
Definition mintedIn (blocks : list TransactionBlock.t) : Z :=
  fold_right
    (fun block sum => Ledger.mintedBy (TransactionBlock.transactions block) + sum)
    0 blocks.

(** The shape [minePendingTransactions] gives a block: valid transactions
    taken from the pool, then the reward. *)
Definition rewardLast (reward : JS.number) (block : TransactionBlock.t) : Prop :=
  exists body rewardTransaction,
    TransactionBlock.transactions block = body ++ [rewardTransaction]
    /\ Forall (fun transaction => Transaction.isValid transaction = true) body
    /\ Transaction.fromAddress rewardTransaction = None
    /\ Transaction.amount rewardTransaction = reward.

(** What every call keeps true of the chain object: the parameters the
    constructor set, a pool of valid transactions, blocks after the genesis
    block that meet the target and end with the reward, and a ledger that is
    the settled transactions applied in order to the empty map. *)
Definition invariant (this : t) : Prop :=
  difficulty this = 3%nat
  /\ miningReward this = 10%number
  /\ Forall (fun transaction => Transaction.isValid transaction = true)
            (pendingTransactions this)
  /\ exists genesis rest,
       chain this = genesis :: rest
       /\ Forall (fun block => TransactionBlock.meetsTarget 3 block = true) rest
       /\ Forall (rewardLast 10) rest
       /\ balances this
          = fold_left Ledger.applyTransaction
              (flat_map TransactionBlock.transactions rest) ∅.

(** One call of a public operation, in any state and with any arguments,
    leading to the state in which the call ended. *)
Inductive step : t -> t -> Prop :=
| step_createTransaction this transaction this' :
    final_state (createTransaction transaction this) = Some this' ->
    step this this'
| step_minePendingTransactions this fuel rewardId rewardTime blockTime address this' :
    minePendingTransactions fuel rewardId rewardTime blockTime address this
      = Return tt this' ->
    step this this'.

(** The states of a chain after construction and any number of calls. *)
Inductive reachable : t -> Prop :=
| reachable_new genesisId txTime blockTime :
    reachable (new genesisId txTime blockTime)
| reachable_step this this' :
    reachable this -> step this this' -> reachable this'.

End Blockchain.

(** ** pos-blockchain.ts: PosBlock, ProofOfStakeBlockchain *)

(** The file has its own copies of [CryptoUtils.calculateHash],
    [CryptoUtils.calculateMerkleRoot] and [Transaction]; they are the same
    text as in utils.ts and transaction.ts, and the definitions above stand
    for both. *)

Module PosBlock.
Local Open Scope Z_scope.

Record t := mk
  { index : Z;
    timestamp : Z;
    transactions : list Transaction.t;
    previousHash : string;
    hash : string;
    validator : string;
    validatorBalance : JS.number;
    merkleRoot : string }.

Definition calculateHash (this : t) : string :=
  CryptoUtils.calculateHash
    (JS.string_of_integer (index this) +:+ previousHash this +:+
     JS.string_of_integer (timestamp this) +:+ merkleRoot this +:+
     validator this +:+ JS.string_of_number (validatorBalance this)).

Definition hasValidTransactions (this : t) : bool :=
  forallb Transaction.isValid (transactions this).

(** [new PosBlock(index, transactions, previousHash, validator,
    validatorBalance)] at time [now]. *)
Definition new (now : Z) (index : Z) (transactions : list Transaction.t)
    (previousHash validator : string) (validatorBalance : JS.number) : t :=
  let merkleRoot :=
    CryptoUtils.calculateMerkleRoot (map Transaction.id transactions) in
  let this :=
    {| index := index; timestamp := now; transactions := transactions;
       previousHash := previousHash; hash := ""; validator := validator;
       validatorBalance := validatorBalance; merkleRoot := merkleRoot |} in
  {| index := index; timestamp := now; transactions := transactions;
     previousHash := previousHash; hash := calculateHash this;
     validator := validator; validatorBalance := validatorBalance;
     merkleRoot := merkleRoot |}.

End PosBlock.

Module ProofOfStakeBlockchain.
Local Open Scope Z_scope.
Local Open Scope method_scope.

Record IValidator := mkValidator
  { address : string;
    stake : JS.number;
    isActive : bool;
    joinedAt : Z }.

Definition with_stake (stake' : JS.number) (v : IValidator) : IValidator :=
  {| address := address v; stake := stake'; isActive := isActive v;
     joinedAt := joinedAt v |}.

Record t := mk
  { chain : list PosBlock.t;
    pendingTransactions : list Transaction.t;
    validators : JSMap.t IValidator;
    balances : gmap string JS.number;
    minimumStake : JS.number;
    blockReward : JS.number }.

Definition with_chain (chain' : list PosBlock.t) (this : t) : t :=
  {| chain := chain'; pendingTransactions := pendingTransactions this;
     validators := validators this; balances := balances this;
     minimumStake := minimumStake this; blockReward := blockReward this |}.

Definition with_pendingTransactions (pending' : list Transaction.t) (this : t) : t :=
  {| chain := chain this; pendingTransactions := pending';
     validators := validators this; balances := balances this;
     minimumStake := minimumStake this; blockReward := blockReward this |}.

Definition with_validators (validators' : JSMap.t IValidator) (this : t) : t :=
  {| chain := chain this; pendingTransactions := pendingTransactions this;
     validators := validators'; balances := balances this;
     minimumStake := minimumStake this; blockReward := blockReward this |}.

Definition with_balances (balances' : gmap string JS.number) (this : t) : t :=
  {| chain := chain this; pendingTransactions := pendingTransactions this;
     validators := validators this; balances := balances';
     minimumStake := minimumStake this; blockReward := blockReward this |}.

Definition createGenesisBlock (genesisId : string) (txTime blockTime : Z)
  : PosBlock.t :=
  let genesisTransaction := Transaction.new genesisId txTime None "genesis" 0 in
  PosBlock.new blockTime 0 [genesisTransaction] "0" "genesis" 0.

(** [new ProofOfStakeBlockchain()]. *)
Definition new (genesisId : string) (txTime blockTime : Z) : t :=
  {| chain := [createGenesisBlock genesisId txTime blockTime];
     pendingTransactions := [];
     validators := JSMap.empty;
     balances := ∅;
     minimumStake := 32;
     blockReward := 5 |}.

Definition getLatestBlock (this : t) : option PosBlock.t :=
  chain this !! (length (chain this) - 1)%nat.

Definition getBalance (address : string) (this : t) : JS.number :=
  JS.number_or (balances this !! address) 0.

(** [stakeTokens(address, amount)]; [now] is the clock, read when a validator
    is created.  The validator object is shared with the registry, so
    [existingValidator.stake += amount] is an update of the entry where it
    stands. *)
Definition stakeTokens (now : Z) (address : string) (amount : JS.number)
  : M t bool :=
  let! this := get in
  let balance := getBalance address this in
  if (balance <? amount)%number then ret false
  else if (amount <? minimumStake this)%number then ret false
  else
    modify (fun this =>
      with_balances (<[address := (balance - amount)%number]> (balances this)) this);;
    let! this := get in
    let existingValidator := JSMap.get address (validators this) in
    match existingValidator with
    | Some existingValidator =>
        modify (with_validators
          (JSMap.set address
             (with_stake (stake existingValidator + amount)%number existingValidator)
             (validators this)))
    | None =>
        modify (with_validators
          (JSMap.set address
             {| address := address; stake := amount;
                isActive := true; joinedAt := now |}
             (validators this)))
    end;;
    ret true.

(** [unstakeTokens(address, amount)].  [validator.stake -= amount] is again
    an update of the entry; the deletion that may follow removes that
    entry. *)
Definition unstakeTokens (address : string) (amount : JS.number) : M t bool :=
  let! this := get in
  match JSMap.get address (validators this) with
  | None => ret false
  | Some validator =>
      if (stake validator <? amount)%number then ret false
      else
        let validator := with_stake (stake validator - amount)%number validator in
        modify (fun this =>
          with_validators (JSMap.set address validator (validators this)) this);;
        (if (stake validator <? minimumStake this)%number then
           modify (fun this =>
             with_validators (JSMap.delete address (validators this)) this)
         else ret tt);;
        let! this := get in
        let currentBalance := getBalance address this in
        modify (fun this =>
          with_balances
            (<[address := (currentBalance + amount)%number]> (balances this)) this);;
        ret true
  end.

(** [Array.from(this.validators.values())]. *)
Definition validatorValues (this : t) : list IValidator :=
  JSMap.values (validators this).

(** The [for] loop of [selectValidator]. *)
Fixpoint walkValidators (randomTarget currentSum : JS.number)
    (activeValidators : list IValidator) : option string :=
  match activeValidators with
  | [] => None
  | validator :: rest =>
      let currentSum := (currentSum + stake validator)%number in
      if (randomTarget <=? currentSum)%number then Some (address validator)
      else walkValidators randomTarget currentSum rest
  end.

(** [selectValidator()], where [Math.random()] returned [random]. *)
Definition selectValidator (random : JS.number) (this : t) : option string :=
  let activeValidators := List.filter isActive (validatorValues this) in
  match activeValidators with
  | [] => None
  | first :: _ =>
      let totalStake :=
        fold_left (fun sum validator => (sum + stake validator)%number)
                  activeValidators 0%number in
      let randomTarget := (random * totalStake)%number in
      match walkValidators randomTarget 0 activeValidators with
      | Some selected => Some selected
      | None => Some (address first)
      end
  end.

Definition createTransaction (transaction : Transaction.t) : M t unit :=
  if negb (Transaction.isValid transaction) then
    throw "Cannot add invalid transaction to chain"
  else
    match Transaction.fromAddress transaction with
    | Some from =>
        let! this := get in
        let balance := getBalance from this in
        if (balance <? Transaction.amount transaction)%number then
          throw "Not enough balance"
        else ret tt
    | None => ret tt
    end;;
    modify (fun this =>
      with_pendingTransactions (pendingTransactions this ++ [transaction]) this).

Definition updateBalances (transactions : list Transaction.t) (this : t) : t :=
  with_balances (fold_left Ledger.applyTransaction transactions (balances this)) this.

(** [forgeBlock()], where [Math.random()] returned [random], the reward
    transaction got [rewardId] and [rewardTime], and the block is stamped
    [blockTime]. *)
Definition forgeBlock (random : JS.number) (rewardId : string)
    (rewardTime blockTime : Z) : M t bool :=
  let! this := get in
  match selectValidator random this with
  | None => ret false
  | Some selectedValidator =>
      if negb (JS.truthy selectedValidator) then ret false
      else
        let validator := JSMap.get selectedValidator (validators this) in
        let rewardTransaction :=
          Transaction.new rewardId rewardTime None selectedValidator (blockReward this) in
        modify (fun this =>
          with_pendingTransactions (pendingTransactions this ++ [rewardTransaction]) this);;
        let! this := get in
        match validator, getLatestBlock this with
        | Some validator, Some latest =>
            let block :=
              PosBlock.new blockTime (Z.of_nat (length (chain this)))
                (pendingTransactions this) (PosBlock.hash latest)
                selectedValidator (stake validator) in
            modify (fun this => with_chain (chain this ++ [block]) this);;
            modify (updateBalances (PosBlock.transactions block));;
            modify (with_pendingTransactions []);;
            ret true
        | _, _ => throw "TypeError: Cannot read properties of undefined"
        end
  end.

(** [getTotalStake()]: the stakes are added in the order of the registry. *)
Definition getTotalStake (this : t) : JS.number :=
  fold_left (fun sum validator => (sum + stake validator)%number)
            (validatorValues this) 0%number.

Definition blockValid (currentBlock previousBlock : PosBlock.t) : bool :=
  if negb (PosBlock.hasValidTransactions currentBlock) then false
  else if negb (String.eqb (PosBlock.hash currentBlock)
                           (PosBlock.calculateHash currentBlock)) then false
  else if negb (String.eqb (PosBlock.previousHash currentBlock)
                           (PosBlock.hash previousBlock)) then false
  else true.

Definition isChainValid (this : t) : bool :=
  forallb
    (fun i : nat =>
       match chain this !! i, chain this !! (i - 1)%nat with
       | Some currentBlock, Some previousBlock =>
           blockValid currentBlock previousBlock
       | _, _ => false
       end)
    (seq 1 (length (chain this) - 1)).

(** The exact sum of all ledger balances and the exact sum of all recorded
    stakes, in units of 2^-1074. *)
Definition totalBalance (this : t) : Z := Ledger.total (balances this).

Definition stakeUnits (registry : JSMap.t IValidator) : Z :=
  fold_right (fun validator sum => JS.units (stake validator) + sum) 0
             (JSMap.values registry).

(** [getTotalStake()] returns the exact sum of the stakes: none of its
    additions rounded. *)
Definition exactTotalStake (this : t) : bool :=
  Ledger.exactly (getTotalStake this) (stakeUnits (validators this)).

(** The stake recorded for an address; none is recorded for an address that
    is not in the registry. *)
Definition recordedStake (address : string) (this : t) : JS.number :=
  match JSMap.get address (validators this) with
  | Some validator => stake validator
  | None => 0
  end.

(** What the constructor of [PosBlock] leaves in a block that is put at
    position [i] after a block of hash [previous]. *)
Definition blockWellFormed (i : nat) (previous : string) (block : PosBlock.t)
  : Prop :=
  PosBlock.index block = Z.of_nat i
  /\ PosBlock.previousHash block = previous
  /\ PosBlock.hash block = PosBlock.calculateHash block
  /\ PosBlock.merkleRoot block
     = CryptoUtils.calculateMerkleRoot
         (map Transaction.id (PosBlock.transactions block))
  /\ PosBlock.hasValidTransactions block = true
  /\ PosBlock.transactions block <> [].

Fixpoint chainWellFormed (i : nat) (previous : string) (blocks : list PosBlock.t)
  : Prop :=
  match blocks with
  | [] => True
  | block :: rest =>
      blockWellFormed i previous block
      /\ chainWellFormed (S i) (PosBlock.hash block) rest
  end.

Definition lastHash (previous : string) (blocks : list PosBlock.t) : string :=
  fold_left (fun _ block => PosBlock.hash block) blocks previous.

(** What every call keeps true of the object: no address stands twice in the
    registry, a validator is stored under its own address and is active, the
    pool holds valid transactions, and the chain is non-empty and well
    formed. *)
Definition objectInvariant (this : t) : Prop :=
  JSMap.wf (validators this)
  /\ (forall key validator,
        JSMap.get key (validators this) = Some validator ->
        address validator = key /\ isActive validator = true)
  /\ Forall (fun transaction => Transaction.isValid transaction = true)
            (pendingTransactions this)
  /\ chain this <> []
  /\ chainWellFormed 0 "0" (chain this).

(** One call of a public operation, in any state and with any arguments.
    [balances.set(address, amount)] from outside the class, by which the
    program hands out the first tokens, counts as one too. *)
Inductive step : t -> t -> Prop :=
| step_seed this address amount :
    step this (with_balances (<[address := amount]> (balances this)) this)
| step_stakeTokens this now address amount result this' :
    stakeTokens now address amount this = Return result this' ->
    step this this'
| step_unstakeTokens this address amount result this' :
    unstakeTokens address amount this = Return result this' ->
    step this this'
| step_createTransaction this transaction this' :
    final_state (createTransaction transaction this) = Some this' ->
    step this this'
| step_forgeBlock this random rewardId rewardTime blockTime this' :
    final_state (forgeBlock random rewardId rewardTime blockTime this) = Some this' ->
    step this this'.

Inductive reachable : t -> Prop :=
| reachable_new genesisId txTime blockTime :
    reachable (new genesisId txTime blockTime)
| reachable_step this this' :
    reachable this -> step this this' -> reachable this'.

End ProofOfStakeBlockchain.

(** ** The Merkle reduction as the specification words it *)

Module MerkleSpec.

(** One level up: adjacent elements are hashed in pairs from the left, and
    the last element of a level of odd length is paired with itself. *)
Fixpoint combinePairs (level : list string) : list string :=
  match level with
  | [] => []
  | [a] => [CryptoUtils.calculateHash (a +:+ a)]
  | a :: b :: rest => CryptoUtils.calculateHash (a +:+ b) :: combinePairs rest
  end.

(** [reducesTo level root]: repeating [combinePairs] from [level] until one
    value remains leaves [root]. *)
Inductive reducesTo : list string -> string -> Prop :=
| reducesTo_one root : reducesTo [root] root
| reducesTo_level level root :
    (1 < length level)%nat ->
    reducesTo (combinePairs level) root ->
    reducesTo level root.

(** The root the specification gives to a sequence of identifiers. *)
Definition isMerkleRoot (ids : list string) (root : string) : Prop :=
  match ids with
  | [] => root = CryptoUtils.calculateHash ""
  | _ => reducesTo ids root
  end.

End MerkleSpec.

(** ** A run of the proof-of-work chain *)

(** The run of main.ts cut down to its first block: a chain is built, one
    transaction to alice is submitted and alice mines.  The identifiers and
    the clock readings are fixed; with them the nonce search ends at 2. *)
Module Run.
Local Open Scope Z_scope.

Definition fresh : Blockchain.t :=
  Blockchain.new "a4c123b1612dd272d1371c17149d4395" 1700000000000 1700000000000.

Definition toAlice : Transaction.t :=
  Transaction.new "36b3216fdaeeb975729fae923d5a4fd1" 1700000001000 None "alice" 50.

Definition submitted : Blockchain.t :=
  Blockchain.with_pendingTransactions [toAlice] fresh.

Definition mined : outcome Blockchain.t unit :=
  Blockchain.minePendingTransactions 2 "2aabfe228f219e9cb0eb53f16947ccf2"
    1700000006000 1700000006046 "alice" submitted.

(** The state after the run, evaluated once. *)
Definition sealed : Blockchain.t :=
  Eval vm_compute in
    match mined with
    | Return _ this => this
    | _ => submitted
    end.

(** [chain[1].transactions[0].amount = 1000], the tampering of main.ts. *)
Definition tampered : Blockchain.t := Blockchain.tamperAmount 1 0 1000 sealed.

(** The block the run hands to the nonce search, and the block it gets
    back. *)
Definition candidate : TransactionBlock.t :=
  TransactionBlock.new 1700000006046 1
    [toAlice;
     Transaction.new "2aabfe228f219e9cb0eb53f16947ccf2" 1700000006000 None "alice" 10]
    "7846e0c0ded1469a7706c8fffb9ae48e25daf28a0730206696d5707e44f240d4".

Definition minedBlock : TransactionBlock.t :=
  Eval vm_compute in
    match TransactionBlock.mineBlock 2 3 candidate with
    | Some block => block
    | None => candidate
    end.

End Run.

(** A second run, with a transfer: alice mines an empty pool, pays 4 of her
    reward to bob, and bob mines.  The nonce searches end at 1 and at 0. *)
Module TransferRun.
Local Open Scope Z_scope.

Definition fresh : Blockchain.t := Run.fresh.

Definition firstMined : Blockchain.t :=
  Eval vm_compute in
    match
      Blockchain.minePendingTransactions 1 "eee65f53e9421ce50211670eae679f02"
        1700000011300 1700000011356 "alice" fresh
    with
    | Return _ this => this
    | _ => fresh
    end.

Definition toBob : Transaction.t :=
  Transaction.new "e8d28a79023c39c200661fccd268a29a" 1700000013000
    (Some "alice") "bob" 4.

Definition submitted : Blockchain.t :=
  Blockchain.with_pendingTransactions [toBob] firstMined.

Definition sealed : Blockchain.t :=
  Eval vm_compute in
    match
      Blockchain.minePendingTransactions 0 "0d347301ef56e64dc3cd6089065c3146"
        1700000017300 1700000017356 "bob" submitted
    with
    | Return _ this => this
    | _ => submitted
    end.

End TransferRun.

(** A third run, which spends a balance twice: after alice has mined her
    first block and holds 10, she submits 10 to bob and 10 to carol, and bob
    mines.  The nonce search ends at 0. *)
Module OverspendRun.
Local Open Scope Z_scope.

Definition toBob : Transaction.t :=
  Transaction.new "9209dcb468e07e032fd0db161b56bb9a" 1700000021000
    (Some "alice") "bob" 10.

Definition toCarol : Transaction.t :=
  Transaction.new "2f5fe555a6323d188a3b99e68433f7a4" 1700000022000
    (Some "alice") "carol" 10.

Definition submitted : Blockchain.t :=
  Blockchain.with_pendingTransactions [toBob; toCarol] TransferRun.firstMined.

Definition sealed : Blockchain.t :=
  Eval vm_compute in
    match
      Blockchain.minePendingTransactions 0 "3c5e11dc057071e2b0cf6128e6e96235"
        1700000026400 1700000026407 "bob" submitted
    with
    | Return _ this => this
    | _ => submitted
    end.

End OverspendRun.

(** A fourth run, with amounts that are not whole: after alice has mined her
    first block and holds 10, she pays 0.1 to bob and 0.2 to carol and mines
    the block herself.  The nonce search ends at 0. *)
Module FractionRun.
Local Open Scope Z_scope.

Definition toBob : Transaction.t :=
  Transaction.new "ca75c98c070e44a58131d962bf403345" 1700000031000
    (Some "alice") "bob" 0.1.

Definition toCarol : Transaction.t :=
  Transaction.new "18a705d19c432d0fc70242ecd800ea54" 1700000032000
    (Some "alice") "carol" 0.2.

Definition submitted : Blockchain.t :=
  Blockchain.with_pendingTransactions [toBob; toCarol] TransferRun.firstMined.

Definition sealed : Blockchain.t :=
  Eval vm_compute in
    match
      Blockchain.minePendingTransactions 0 "2134d2d377dbede28678cac9e2656075"
        1700000039500 1700000039566 "alice" submitted
    with
    | Return _ this => this
    | _ => submitted
    end.

End FractionRun.

(** A run of the proof-of-stake chain, after the demo of pos-blockchain.ts:
    bob is handed 80 tokens and stakes 40 of them. *)
Module PosRun.
Local Open Scope Z_scope.
Import ProofOfStakeBlockchain.

Definition fresh : t :=
  new "a4c123b1612dd272d1371c17149d4395" 1700000000000 1700000000000.

Definition funded : t :=
  with_balances (<["bob" := 80%number]> (balances fresh)) fresh.

Definition staked : t :=
  with_validators
    (JSMap.set "bob"
       {| address := "bob"; stake := 40; isActive := true;
          joinedAt := 1700000002000 |} (validators funded))
    (with_balances (<["bob" := 40%number]> (balances funded)) funded).

(** bob, the only validator, forges a block. *)
Definition forged : t :=
  Eval vm_compute in
    match
      forgeBlock 0.5 "2aabfe228f219e9cb0eb53f16947ccf2"
        1700000006000 1700000006046 staked
    with
    | Return _ this => this
    | _ => staked
    end.

End PosRun.

(** Two more runs of the proof-of-stake chain.  In the first, bob is handed
    100.7 tokens, stakes 40 and takes 10.1 of them back, which leaves less
    than the minimum stake.  In the second, on a chain just built, bob stakes
    an amount that is not a number. *)
Module ResidueRun.
Import ProofOfStakeBlockchain.

Definition funded : t :=
  with_balances (<["bob" := 100.7%number]> (balances PosRun.fresh)) PosRun.fresh.

Definition staked : t :=
  Eval vm_compute in
    match stakeTokens 1700000002000 "bob" 40 funded with
    | Return _ this => this
    | _ => funded
    end.

Definition unstaked : t :=
  Eval vm_compute in
    match unstakeTokens "bob" 10.1 staked with
    | Return _ this => this
    | _ => staked
    end.

End ResidueRun.

Module NaNRun.
Import ProofOfStakeBlockchain.

Definition staked : t :=
  Eval vm_compute in
    match stakeTokens 1700000002000 "bob" JS.NaN PosRun.fresh with
    | Return _ this => this
    | _ => PosRun.fresh
    end.

End NaNRun.

(** * Properties *)

(** ** Hashing and the Merkle reduction *)

Section Merkle.
Import CryptoUtils MerkleSpec.

Lemma calculateHash_nonempty input : calculateHash input <> "".
Proof.
  unfold calculateHash, Sha256.hexdigest, Sha256.hex_word.
  cbn [String.append]. discriminate.
Qed.

(** The digests of the empty message and of "abc" are those of the
    standard. *)
Example calculateHash_empty :
  calculateHash ""
  = "e3b0c44298fc1c149afbf4c8996fb92427ae41e4649b934ca495991b7852b855".
Proof. vm_compute. reflexivity. Qed.

Example calculateHash_abc :
  calculateHash "abc"
  = "ba7816bf8f01cfea414140de5dae2223b00361a396177a9cb410ff61f20015ad".
Proof. vm_compute. reflexivity. Qed.

Example round_constants :
  length Sha256.K = 64%nat
  /\ nth 0 Sha256.K 0%Z = 0x428a2f98%Z /\ nth 63 Sha256.K 0%Z = 0xc67178f2%Z
  /\ nth 0 Sha256.H0 0%Z = 0x6a09e667%Z /\ nth 7 Sha256.H0 0%Z = 0x5be0cd19%Z.
Proof. repeat split. Qed.

Lemma truthy_nonempty s : JS.truthy s = true <-> s <> "".
Proof.
  unfold JS.truthy. destruct (String.eqb_spec s ""); simpl; split; congruence.
Qed.

Lemma pairLevel_pairsOf fuel : forall i (currentLevel nextLevel : list string),
  (length currentLevel <= i + 2 * fuel)%nat ->
  pairLevel fuel i currentLevel nextLevel
  = nextLevel ++ pairsOf (drop i currentLevel).
Proof.
  induction fuel as [|fuel IH]; intros i cur acc Hlen; simpl.
  - rewrite drop_ge by lia. by rewrite app_nil_r.
  - destruct (Nat.ltb_spec i (length cur)) as [Hlt|Hge].
    + destruct (lookup_lt_is_Some_2 cur i Hlt) as [a Ha]. rewrite Ha.
      rewrite (drop_S _ _ _ Ha).
      rewrite IH by lia. rewrite <- app_assoc. f_equal.
      replace (i + 2)%nat with (S (S i)) by lia.
      replace (i + 1)%nat with (S i) by lia.
      destruct (cur !! S i) as [b|] eqn:Hb.
      * rewrite (drop_S _ _ _ Hb). reflexivity.
      * apply lookup_ge_None in Hb.
        rewrite (drop_ge cur (S i)) by lia.
        rewrite (drop_ge cur (S (S i))) by lia. reflexivity.
    + rewrite drop_ge by lia. by rewrite app_nil_r.
Qed.

Lemma pairsOf_combinePairs (level : list string) :
  Forall (fun id => id <> "") level -> pairsOf level = combinePairs level.
Proof.
  revert level. fix IH 1. intros [|a [|b rest]] Hne; simpl; try reflexivity.
  inversion Hne as [|? ? _ Hne']; subst.
  inversion Hne' as [|? ? Hb Hrest]; subst.
  apply truthy_nonempty in Hb. rewrite Hb. f_equal. by apply IH.
Qed.

Lemma combinePairs_nonempty (level : list string) :
  Forall (fun id => id <> "") (combinePairs level).
Proof.
  revert level. fix IH 1. intros [|a [|b rest]]; simpl.
  - constructor.
  - constructor; [apply calculateHash_nonempty | constructor].
  - constructor; [apply calculateHash_nonempty | apply IH].
Qed.

Lemma combinePairs_length (level : list string) :
  length (combinePairs level) = Nat.div2 (S (length level)).
Proof.
  revert level. fix IH 1. intros [|a [|b rest]]; simpl; try reflexivity.
  f_equal. rewrite IH. reflexivity.
Qed.

Lemma div2_S_lt n : (1 < n)%nat -> (0 < Nat.div2 (S n) < n)%nat.
Proof.
  intros Hn. pose proof (Nat.div2_odd (S n)) as Hodd.
  destruct (Nat.odd (S n)); simpl Nat.b2n in Hodd; lia.
Qed.

Lemma pairsOf_length (level : list string) :
  length (pairsOf level) = Nat.div2 (S (length level)).
Proof.
  revert level. fix IH 1. intros [|a [|b rest]]; simpl; try reflexivity.
  f_equal. rewrite IH. reflexivity.
Qed.

(** On every input the [while] loop ends within [length] passes with one
    value left: the fuel that [calculateMerkleRoot] passes is never spent. *)
Lemma reduceLevels_one fuel : forall level : list string,
  (0 < length level <= fuel)%nat ->
  exists root, reduceLevels fuel level = [root].
Proof.
  induction fuel as [|fuel IH]; intros level Hlen; [lia|].
  simpl. destruct (Nat.ltb_spec 1 (length level)) as [Hmore|Hone].
  - rewrite pairLevel_pairsOf by lia. simpl. rewrite drop_0.
    pose proof (div2_S_lt _ Hmore) as Hdiv.
    apply IH. rewrite pairsOf_length. lia.
  - destruct level as [|root [|? ?]]; simpl in *; try lia. by exists root.
Qed.

(** The [while] loop ends within [length] passes and leaves the root. *)
Lemma reduceLevels_reducesTo fuel : forall level : list string,
  (0 < length level <= fuel)%nat ->
  Forall (fun id => id <> "") level ->
  exists root, reduceLevels fuel level = [root] /\ reducesTo level root.
Proof.
  induction fuel as [|fuel IH]; intros level Hlen Hne; [lia|].
  simpl. destruct (Nat.ltb_spec 1 (length level)) as [Hmore|Hone].
  - rewrite pairLevel_pairsOf by lia. simpl. rewrite drop_0.
    rewrite pairsOf_combinePairs by done.
    pose proof (div2_S_lt _ Hmore) as Hdiv.
    destruct (IH (combinePairs level)) as (root & Hroot & Hred).
    + rewrite combinePairs_length. lia.
    + apply combinePairs_nonempty.
    + exists root. split; [done|]. by apply reducesTo_level.
  - destruct level as [|root [|? ?]]; simpl in *; try lia.
    exists root. split; [done | constructor].
Qed.

(** For identifiers none of which is the empty string, the program computes
    the root of the specification. *)
Lemma calculateMerkleRoot_isMerkleRoot (ids : list string) :
  Forall (fun id => id <> "") ids ->
  isMerkleRoot ids (calculateMerkleRoot ids).
Proof.
  intros Hne. destruct ids as [|a [|b rest]].
  - reflexivity.
  - constructor.
  - unfold calculateMerkleRoot, isMerkleRoot.
    destruct (reduceLevels_reducesTo (length (a :: b :: rest)) (a :: b :: rest))
      as (root & Hroot & Hred); [simpl; lia | done |].
    by rewrite Hroot.
Qed.

Lemma reducesTo_deterministic level root1 root2 :
  reducesTo level root1 -> reducesTo level root2 -> root1 = root2.
Proof.
  intros H1. revert root2.
  induction H1 as [root|level root Hlen _ IH]; intros root2 H2.
  - inversion H2 as [|? ? Hlen2]; subst; [done | simpl in Hlen2; lia].
  - inversion H2 as [|? ? _ Hred]; subst; [simpl in Hlen; lia | by apply IH].
Qed.

End Merkle.

(** C3, at the input where the program leaves the specification: in the pair
    [["a"; ""]] the right element is the empty string, which [||] takes for
    a missing one, so the program hashes "aa", the left element twice, where
    the specification hashes the concatenation of the two elements, "a". *)
Theorem calculateMerkleRoot_empty_right_id :
  CryptoUtils.calculateMerkleRoot ["a"; ""] = CryptoUtils.calculateHash "aa"
  /\ CryptoUtils.calculateMerkleRoot ["a"; ""]
     <> CryptoUtils.calculateHash ("a" +:+ "")
  /\ ~ MerkleSpec.isMerkleRoot ["a"; ""] (CryptoUtils.calculateMerkleRoot ["a"; ""]).
Proof.
  assert (Hval : CryptoUtils.calculateMerkleRoot ["a"; ""]
                 = "961b6dd3ede3cb8ecbaacbd68de040cd78eb2ed5889130cceb4c49268ea4d506")
    by (vm_compute; reflexivity).
  assert (Haa : CryptoUtils.calculateHash "aa"
                = "961b6dd3ede3cb8ecbaacbd68de040cd78eb2ed5889130cceb4c49268ea4d506")
    by (vm_compute; reflexivity).
  assert (Ha : CryptoUtils.calculateHash ("a" +:+ "")
               = "ca978112ca1bbdcafac231b39a23dc4da786eff8147c4e72b9807785afee48bb")
    by (vm_compute; reflexivity).
  split; [congruence|]. split; [rewrite Hval, Ha; discriminate|].
  intros Hroot. rewrite Hval in Hroot.
  assert (Hspec : MerkleSpec.reducesTo ["a"; ""]
            "ca978112ca1bbdcafac231b39a23dc4da786eff8147c4e72b9807785afee48bb").
  { apply MerkleSpec.reducesTo_level; [simpl; lia|].
    simpl MerkleSpec.combinePairs. rewrite Ha. constructor. }
  pose proof (reducesTo_deterministic _ _ _ Hroot Hspec). discriminate.
Qed.

(** The cases the specification lists hold for identifiers that are not
    empty: one identifier is its own root, two are hashed together, and of
    three the last is paired with itself. *)
Lemma calculateMerkleRoot_small (a b c : string) :
  CryptoUtils.calculateMerkleRoot [] = CryptoUtils.calculateHash ""
  /\ CryptoUtils.calculateMerkleRoot [a] = a
  /\ (b <> "" ->
      CryptoUtils.calculateMerkleRoot [a; b] = CryptoUtils.calculateHash (a +:+ b))
  /\ (b <> "" ->
      CryptoUtils.calculateMerkleRoot [a; b; c]
      = CryptoUtils.calculateHash
          (CryptoUtils.calculateHash (a +:+ b) +:+ CryptoUtils.calculateHash (c +:+ c))).
Proof.
  split; [reflexivity|]. split; [reflexivity|]. split; intros H.
  - unfold CryptoUtils.calculateMerkleRoot. cbn -[CryptoUtils.calculateHash].
    apply truthy_nonempty in H. by rewrite H.
  - unfold CryptoUtils.calculateMerkleRoot. cbn -[CryptoUtils.calculateHash].
    apply truthy_nonempty in H. rewrite H.
    pose proof (calculateHash_nonempty (c +:+ c)) as Hc.
    apply truthy_nonempty in Hc. by rewrite Hc.
Qed.

(** ** Numbers *)

Section Numbers.
Local Open Scope number_scope.

(** The literals and the sums of the examples are the numbers the program
    prints for them. *)
Example string_of_number_examples :
  map JS.string_of_number [0.1; 0.1 + 0.2; 50; 1e21; 1e-7; 100.7 - 32.1 + 32.1]
  = ["0.1"; "0.30000000000000004"; "50"; "1e+21"; "1e-7"; "100.69999999999999"]%string.
Proof. vm_compute. reflexivity. Qed.

(** Comparing the other way round gives the opposite answer. *)
Lemma compare_antisym (x y : JS.number) :
  SFcompare y x = option_map CompOpp (SFcompare x y).
Proof.
  destruct x as [sx|sx| |sx mx ex], y as [sy|sy| |sy my ey]; simpl;
    try reflexivity;
    try (destruct sx; reflexivity); try (destruct sy; reflexivity);
    try (destruct sx, sy; reflexivity).
  pose proof (Pos.compare_cont_antisym mx my Eq) as Hm.
  destruct sx, sy; simpl; try reflexivity; f_equal;
    rewrite (Z.compare_antisym ex ey); destruct (ex ?= ey)%Z; simpl;
    try reflexivity.
  - f_equal. exact (eq_sym Hm).
  - exact (eq_sym Hm).
Qed.

Lemma ltb_irrefl (x : JS.number) : (x <? x) = false.
Proof.
  unfold JS.ltb, SFltb. destruct x as [[]|[]| |[] m e]; simpl; try reflexivity;
    rewrite Z.compare_refl, Pos.compare_cont_refl; reflexivity.
Qed.

(** [x <= y] excludes [y < x]. *)
Lemma leb_not_ltb (x y : JS.number) : (x <=? y) = true -> (y <? x) = false.
Proof.
  unfold JS.leb, JS.ltb, SFleb, SFltb. rewrite (compare_antisym x y).
  by destruct (SFcompare x y) as [[| |]|].
Qed.

Lemma ltb_not_leb (x y : JS.number) : (x <? y) = true -> (y <=? x) = false.
Proof.
  unfold JS.leb, JS.ltb, SFleb, SFltb. rewrite (compare_antisym x y).
  by destruct (SFcompare x y) as [[| |]|].
Qed.

(** The test [x <= 0] fails for the positive numbers and for [NaN]. *)
Lemma leb_zero_false (x : JS.number) :
  (x <=? 0) = false <-> (0 <? x) = true \/ x = JS.NaN.
Proof.
  unfold JS.leb, JS.ltb, SFleb, SFltb, JS.NaN.
  destruct x as [[]|[]| |[] m e]; simpl;
    split; try discriminate; try tauto; try (intros [?|?]; discriminate).
Qed.

(** A number below zero is below every number that is zero or above. *)
Lemma ltb_negative (x y : JS.number) :
  (x <? 0) = true -> (0 <=? y) = true -> (y <? x) = false.
Proof.
  unfold JS.leb, JS.ltb, SFleb, SFltb.
  destruct x as [[]|[]| |[] mx ex], y as [[]|[]| |[] my ey]; simpl;
    try discriminate; reflexivity.
Qed.

(** [x || 0] has the exact value of [x]. *)
Lemma units_number_or (x : option JS.number) :
  JS.units (JS.number_or x 0) = from_option JS.units 0%Z x.
Proof. destruct x as [[s|s| |s m e]|]; reflexivity. Qed.

Lemma units_or_zero (x : JS.number) : JS.units (JS.or_zero x) = JS.units x.
Proof. apply (units_number_or (Some x)). Qed.

(** A number below zero is neither a zero nor [NaN]: [x || 0] is [x]. *)
Lemma or_zero_negative (x : JS.number) :
  (x <? 0) = true -> JS.or_zero x = x.
Proof. by destruct x as [[]|[]| |[] m e]. Qed.

(** A number whose exact value is below zero compares below zero. *)
Lemma units_negative (x : JS.number) :
  (JS.units x < 0)%Z -> (x <? 0) = true.
Proof.
  destruct x as [s|s| |[] m e]; simpl; try lia; [done|].
  intros Hneg. pose proof (Z.shiftl_nonneg (Z.pos m) (e + 1074)). lia.
Qed.

Lemma number_or_Some (x : JS.number) :
  JS.number_or (Some (JS.number_or (Some x) 0)) 0 = JS.number_or (Some x) 0.
Proof. by destruct x as [s|s| |s m e]. Qed.

End Numbers.

(** ** The registry as a map *)

Section Maps.
Context {V : Type}.
Implicit Types (m : JSMap.t V) (key : string) (value : V).

Lemma get_set_eq m key value : JSMap.get key (JSMap.set key value m) = Some value.
Proof.
  induction m as [|[k v] m IH]; simpl.
  - by rewrite String.eqb_refl.
  - destruct (String.eqb_spec k key) as [->|Hne]; simpl.
    + by rewrite String.eqb_refl.
    + by destruct (String.eqb_spec k key).
Qed.

Lemma get_set_ne m key key' value :
  key' <> key -> JSMap.get key' (JSMap.set key value m) = JSMap.get key' m.
Proof.
  intros Hne. induction m as [|[k v] m IH]; simpl.
  - by destruct (String.eqb_spec key key').
  - destruct (String.eqb_spec k key) as [->|Hk]; simpl.
    + by destruct (String.eqb_spec key key').
    + by rewrite IH.
Qed.

Lemma get_delete_eq m key : JSMap.get key (JSMap.delete key m) = None.
Proof.
  induction m as [|[k v] m IH]; simpl; [done|].
  destruct (String.eqb_spec k key) as [->|Hk]; simpl; [done|].
  by destruct (String.eqb_spec k key).
Qed.

Lemma get_delete_ne m key key' :
  key' <> key -> JSMap.get key' (JSMap.delete key m) = JSMap.get key' m.
Proof.
  intros Hne. induction m as [|[k v] m IH]; simpl; [done|].
  destruct (String.eqb_spec k key) as [->|Hk]; simpl.
  - by destruct (String.eqb_spec key key').
  - by rewrite IH.
Qed.

Lemma get_None_keys m key : JSMap.get key m = None <-> ~ In key (JSMap.keys m).
Proof.
  induction m as [|[k v] m IH]; simpl; [tauto|].
  destruct (String.eqb_spec k key) as [->|Hk]; [split; [done | tauto]|].
  rewrite IH. tauto.
Qed.

Lemma get_Some_In m key value : JSMap.get key m = Some value -> In (key, value) m.
Proof.
  induction m as [|[k v] m IH]; simpl; [done|].
  destruct (String.eqb_spec k key) as [->|Hk]; [intros [= ->]; by left|].
  intros Hget. right. by apply IH.
Qed.

Lemma In_get_Some m key value :
  JSMap.wf m -> In (key, value) m -> JSMap.get key m = Some value.
Proof.
  unfold JSMap.wf. induction m as [|[k v] m IH]; simpl; [done|].
  intros Hwf [Hhead|Htail].
  - injection Hhead as -> ->. by rewrite String.eqb_refl.
  - apply NoDup_cons in Hwf as [Hfresh Hwf].
    destruct (String.eqb_spec k key) as [->|Hk]; [|by apply IH].
    exfalso. apply Hfresh. apply list_elem_of_In.
    change key with (fst (key, value)). by apply in_map.
Qed.

Lemma keys_set m key value :
  JSMap.keys (JSMap.set key value m)
  = match JSMap.get key m with
    | Some _ => JSMap.keys m
    | None => JSMap.keys m ++ [key]
    end.
Proof.
  induction m as [|[k v] m IH]; simpl; [done|].
  destruct (String.eqb_spec k key) as [->|Hk]; simpl; [done|].
  rewrite IH. by destruct (JSMap.get key m).
Qed.

Lemma wf_set m key value : JSMap.wf m -> JSMap.wf (JSMap.set key value m).
Proof.
  unfold JSMap.wf. intros Hwf. rewrite keys_set.
  destruct (JSMap.get key m) as [old|] eqn:Hget; [done|].
  apply NoDup_app. split; [done|]. split; [|apply NoDup_singleton].
  intros k Hk Hin. apply list_elem_of_singleton in Hin as ->.
  apply get_None_keys in Hget. apply Hget. by apply list_elem_of_In.
Qed.

Lemma wf_delete m key : JSMap.wf m -> JSMap.wf (JSMap.delete key m).
Proof.
  unfold JSMap.wf. induction m as [|[k v] m IH]; simpl; [done|].
  intros [Hfresh Hwf]%NoDup_cons.
  destruct (String.eqb_spec k key) as [->|Hk]; simpl; [by apply IH|].
  apply NoDup_cons. split; [|by apply IH].
  intros Hin. apply Hfresh. apply list_elem_of_In in Hin. apply list_elem_of_In.
  unfold JSMap.keys, JSMap.delete in *. apply in_map_iff in Hin as (entry & <- & Hin).
  apply filter_In in Hin as [Hin _]. by apply in_map.
Qed.

(** A key that was absent goes to the end, and deleting it again leaves
    what was there. *)
Lemma set_absent m key value :
  JSMap.get key m = None -> JSMap.set key value m = m ++ [(key, value)].
Proof.
  induction m as [|[k v] m IH]; simpl; [done|].
  destruct (String.eqb_spec k key) as [->|Hk]; [done|].
  intros Hget. by rewrite IH.
Qed.

Lemma delete_absent m key : JSMap.get key m = None -> JSMap.delete key m = m.
Proof.
  induction m as [|[k v] m IH]; simpl; [done|].
  destruct (String.eqb_spec k key) as [->|Hk]; [done|].
  intros Hget. simpl. by rewrite IH.
Qed.

Lemma delete_set_absent m key value :
  JSMap.get key m = None -> JSMap.delete key (JSMap.set key value m) = m.
Proof.
  intros Hget. rewrite (set_absent _ _ _ Hget).
  unfold JSMap.delete. rewrite List.filter_app. simpl. rewrite String.eqb_refl. simpl.
  rewrite app_nil_r. by apply delete_absent.
Qed.

End Maps.

(** ** Transaction *)

Section TransactionRules.
Local Open Scope number_scope.

(** The rules of [isValid]: a transaction without sender is valid whatever
    its amount and its recipient; one with a sender is valid exactly when
    the test [amount <= 0] fails, both addresses are non-empty and they
    differ.  The test fails for a positive amount, and it fails for [NaN].
    [isValid] is a total function to [bool]: it has no throwing path. *)
Lemma isValid_rules (id to : string) (amount : JS.number) (timestamp : Z) :
  Transaction.isValid (Transaction.mk id None to amount timestamp) = true
  /\ forall from : string,
       Transaction.isValid (Transaction.mk id (Some from) to amount timestamp) = true
       <-> ((0 <? amount) = true \/ amount = JS.NaN)
           /\ from <> "" /\ to <> "" /\ from <> to.
Proof.
  split; [reflexivity|]. intros from. rewrite <- leb_zero_false.
  unfold Transaction.isValid. simpl.
  destruct (amount <=? 0); [split; [discriminate | by intros [? _]]|].
  unfold JS.truthy.
  destruct (String.eqb_spec from ""), (String.eqb_spec to ""); simpl;
    try (split; [discriminate | tauto]).
  destruct (String.eqb_spec from to); split; try discriminate; tauto.
Qed.

Lemma isValid_sender (transaction : Transaction.t) (from : string) :
  Transaction.isValid transaction = true ->
  Transaction.fromAddress transaction = Some from ->
  JS.truthy from = true /\ (Transaction.amount transaction <=? 0) = false.
Proof.
  unfold Transaction.isValid. intros Hv Hfrom. rewrite Hfrom in Hv.
  destruct (Transaction.amount transaction <=? 0); [discriminate|].
  destruct (JS.truthy from); [done | discriminate].
Qed.

End TransactionRules.

(** C4, at the input where the program leaves the specification: a
    transaction from "a" to "b" whose amount is [NaN] passes [isValid],
    because the test [amount <= 0] that stands for "the amount must be
    positive" is false of [NaN]; [NaN] is not above zero. *)
Theorem isValid_accepts_NaN :
  Transaction.isValid
    (Transaction.new "36b3216fdaeeb975729fae923d5a4fd1" 1700000001000
       (Some "a") "b" JS.NaN) = true
  /\ (0 <? JS.NaN)%number = false
  /\ (JS.NaN <=? 0)%number = false.
Proof. repeat split. Qed.

(** ** The ledger *)

Section LedgerFacts.
Local Open Scope Z_scope.

Lemma total_empty : Ledger.total ∅ = 0.
Proof. unfold Ledger.total. by rewrite map_fold_empty. Qed.

Lemma total_insert_fresh (balances : gmap string JS.number) address amount :
  balances !! address = None ->
  Ledger.total (<[address := amount]> balances)
  = Ledger.total balances + JS.units amount.
Proof.
  intros Hfresh. unfold Ledger.total.
  rewrite map_fold_insert_L; [done | intros; lia | done].
Qed.

Lemma total_delete (balances : gmap string JS.number) address amount :
  balances !! address = Some amount ->
  Ledger.total balances = Ledger.total (delete address balances) + JS.units amount.
Proof.
  intros Hat. unfold Ledger.total.
  rewrite (map_fold_delete_L _ _ address amount balances); [done | intros; lia | done].
Qed.

Lemma total_insert (balances : gmap string JS.number) address amount :
  Ledger.total (<[address := amount]> balances)
  = Ledger.total balances - from_option JS.units 0 (balances !! address)
    + JS.units amount.
Proof.
  destruct (balances !! address) as [old|] eqn:Hat; simpl.
  - rewrite <- (insert_delete_eq balances address amount).
    rewrite total_insert_fresh by apply lookup_delete_eq.
    rewrite (total_delete balances address old Hat). lia.
  - rewrite total_insert_fresh by done. lia.
Qed.

Lemma exactly_true (result : JS.number) (value : Z) :
  Ledger.exactly result value = true ->
  JS.finite result = true /\ JS.units result = value.
Proof. unfold Ledger.exactly. intros [? ?%Z.eqb_eq]%andb_prop. done. Qed.

(** Applied exactly, a transaction changes the exact sum of the balances by
    what it mints. *)
Lemma total_applyTransaction (balances : gmap string JS.number) transaction :
  Ledger.exactTransaction balances transaction = true ->
  Ledger.total (Ledger.applyTransaction balances transaction)
  = Ledger.total balances + Ledger.minted transaction.
Proof.
  unfold Ledger.applyTransaction, Ledger.exactTransaction, Ledger.minted.
  destruct (Transaction.fromAddress transaction) as [from|];
    [destruct (JS.truthy from)|]; cbn zeta;
    intros [Hdebit [_ Hcredit]%exactly_true]%andb_prop;
    rewrite !total_insert, Hcredit, !units_number_or; try lia.
  apply exactly_true in Hdebit as [_ Hdebit].
  rewrite Hdebit, units_number_or. lia.
Qed.

Lemma total_fold_applyTransaction transactions :
  forall balances : gmap string JS.number,
    Ledger.exactOn balances transactions = true ->
    Ledger.total (fold_left Ledger.applyTransaction transactions balances)
    = Ledger.total balances + Ledger.mintedBy transactions.
Proof.
  induction transactions as [|transaction rest IH]; intros balances; simpl.
  - lia.
  - intros [Hhead Hrest]%andb_prop.
    rewrite (IH _ Hrest), (total_applyTransaction _ _ Hhead). lia.
Qed.

Lemma exactOn_app (l1 l2 : list Transaction.t) :
  forall balances : gmap string JS.number,
    Ledger.exactOn balances (l1 ++ l2)
    = Ledger.exactOn balances l1
      && Ledger.exactOn (fold_left Ledger.applyTransaction l1 balances) l2.
Proof.
  induction l1 as [|transaction l1 IH]; intros balances; simpl; [done|].
  by rewrite IH, andb_assoc.
Qed.

Lemma mintedBy_app (l1 l2 : list Transaction.t) :
  Ledger.mintedBy (l1 ++ l2) = Ledger.mintedBy l1 + Ledger.mintedBy l2.
Proof. induction l1 as [|? ? IH]; simpl; [done | rewrite IH; lia]. Qed.

(** A valid transaction that has a sender moves tokens and mints none. *)
Lemma minted_valid_sender transaction :
  Transaction.isValid transaction = true ->
  Transaction.fromAddress transaction <> None ->
  Ledger.minted transaction = 0.
Proof.
  intros Hvalid Hfrom. unfold Ledger.minted.
  destruct (Transaction.fromAddress transaction) as [from|] eqn:Hf; [|done].
  destruct (isValid_sender _ _ Hvalid Hf) as [-> _]. done.
Qed.

End LedgerFacts.
(** ** The proof-of-work chain *)

Section ProofOfWork.
Import Blockchain.
Local Open Scope Z_scope.

(** C5: [createTransaction] throws on an invalid transaction, throws when the
    sender's balance is below the amount, and otherwise (when the test
    [balance < amount] fails) appends the transaction to the pending pool.
    A throw leaves the chain in the state it was in; a success changes the
    pending pool and nothing else. *)
Theorem createTransaction_spec (this : Blockchain.t) (transaction : Transaction.t) :
  (Transaction.isValid transaction = false ->
   createTransaction transaction this
   = Throw "Cannot add invalid transaction to chain" this)
  /\ (forall from,
        Transaction.fromAddress transaction = Some from ->
        (getBalance from this <? Transaction.amount transaction)%number = true ->
        exists msg, createTransaction transaction this = Throw msg this)
  /\ (Transaction.isValid transaction = true ->
      (forall from,
         Transaction.fromAddress transaction = Some from ->
         (getBalance from this <? Transaction.amount transaction)%number = false) ->
      exists this',
        createTransaction transaction this = Return tt this'
        /\ pendingTransactions this' = pendingTransactions this ++ [transaction]
        /\ chain this' = chain this
        /\ balances this' = balances this
        /\ difficulty this' = difficulty this
        /\ miningReward this' = miningReward this).
Proof.
  unfold createTransaction. run_method.
  split; [|split].
  - intros ->. reflexivity.
  - intros from Hfrom Hlow.
    destruct (Transaction.isValid transaction); simpl; [|eauto].
    rewrite Hfrom, Hlow. eauto.
  - intros -> Hfunds. simpl.
    destruct (Transaction.fromAddress transaction) as [from|].
    + rewrite (Hfunds from eq_refl). eexists. repeat split.
    + eexists. repeat split.
Qed.

Lemma createTransaction_spec_witness :
  (exists msg, createTransaction
                 (Transaction.new "e8d28a79023c39c200661fccd268a29a"
                    1700000013000 (Some "bob") "alice" 5) Run.sealed
               = Throw msg Run.sealed)
  /\ exists this',
       createTransaction TransferRun.toBob TransferRun.firstMined = Return tt this'
       /\ pendingTransactions this' = [TransferRun.toBob]
       /\ balances this' = balances TransferRun.firstMined.
Proof.
  split.
  - destruct (createTransaction_spec Run.sealed
                (Transaction.new "e8d28a79023c39c200661fccd268a29a"
                   1700000013000 (Some "bob") "alice" 5)) as (_ & Hthrow & _).
    apply (Hthrow "bob"); reflexivity.
  - destruct (createTransaction_spec TransferRun.firstMined TransferRun.toBob)
      as (_ & _ & Hok).
    destruct Hok as (this' & Hret & Hpending & _ & Hbalances & _).
    + reflexivity.
    + intros from [= <-]. reflexivity.
    + exists this'. auto.
Defined.

(** *** The nonce search *)

Lemma nextNonce_fields block :
  TransactionBlock.transactions (TransactionBlock.nextNonce block)
  = TransactionBlock.transactions block.
Proof. reflexivity. Qed.

(** A search that ends leaves a block that meets the target and carries the
    transactions it was given. *)
Lemma mineBlock_Some fuel : forall difficulty block mined,
  TransactionBlock.mineBlock fuel difficulty block = Some mined ->
  TransactionBlock.meetsTarget difficulty mined = true
  /\ TransactionBlock.transactions mined = TransactionBlock.transactions block.
Proof.
  induction fuel as [|fuel IH]; intros difficulty block mined; simpl;
    destruct (TransactionBlock.meetsTarget difficulty block) eqn:Hmeets; simpl;
    intros Hmined; try discriminate.
  - by injection Hmined as <-.
  - by injection Hmined as <-.
  - apply IH in Hmined as [? ->]. by rewrite nextNonce_fields.
Qed.

(** The search ends as soon as some nonce meets the target: [n] passes are
    enough when the block after [n] passes meets it. *)
Lemma mineBlock_terminates n : forall fuel difficulty block,
  TransactionBlock.meetsTarget difficulty
    (Nat.iter n TransactionBlock.nextNonce block) = true ->
  (n <= fuel)%nat ->
  exists mined, TransactionBlock.mineBlock fuel difficulty block = Some mined.
Proof.
  induction n as [|n IH]; intros fuel difficulty block Hmeets Hfuel.
  - simpl in Hmeets. destruct fuel; simpl; rewrite Hmeets; simpl; eauto.
  - destruct fuel as [|fuel]; [lia|]. simpl.
    destruct (TransactionBlock.meetsTarget difficulty block); simpl; [eauto|].
    apply IH; [|lia]. by rewrite <- Nat.iter_succ_r.
Qed.

(** *** What a call of [minePendingTransactions] that returns has done *)

Lemma minePendingTransactions_Return fuel rewardId rewardTime blockTime address
    (this this' : Blockchain.t) :
  minePendingTransactions fuel rewardId rewardTime blockTime address this
    = Return tt this' ->
  exists latest block,
    let rewardTransaction :=
      Transaction.new rewardId rewardTime None address (miningReward this) in
    let sealedTransactions := pendingTransactions this ++ [rewardTransaction] in
    getLatestBlock this = Some latest
    /\ TransactionBlock.mineBlock fuel (difficulty this)
         (TransactionBlock.new blockTime (Z.of_nat (length (chain this)))
            sealedTransactions (TransactionBlock.hash latest)) = Some block
    /\ TransactionBlock.transactions block = sealedTransactions
    /\ TransactionBlock.meetsTarget (difficulty this) block = true
    /\ this' = {| chain := chain this ++ [block];
                  difficulty := difficulty this;
                  pendingTransactions := [];
                  miningReward := miningReward this;
                  balances := fold_left Ledger.applyTransaction sealedTransactions
                                (balances this) |}.
Proof.
  unfold minePendingTransactions, getLatestBlock. run_method.
  cbn [chain with_pendingTransactions pendingTransactions difficulty miningReward].
  destruct (chain this !! (length (chain this) - 1)%nat) as [latest|]; [|discriminate].
  match goal with
  | |- context [TransactionBlock.mineBlock fuel ?d ?b] =>
      destruct (TransactionBlock.mineBlock fuel d b) as [block|] eqn:Hmine
  end; [|discriminate].
  intros Hret. injection Hret as <-.
  destruct (mineBlock_Some _ _ _ _ Hmine) as [Hmeets Htxs].
  exists latest, block. cbn zeta. repeat split; try done.
  unfold updateBalances, with_chain, with_balances, with_pendingTransactions.
  cbn [chain pendingTransactions difficulty miningReward balances].
  by rewrite Htxs.
Qed.

Lemma createTransaction_final (this this' : Blockchain.t) transaction :
  final_state (createTransaction transaction this) = Some this' ->
  this' = this
  \/ (Transaction.isValid transaction = true
      /\ this' = with_pendingTransactions
                   (pendingTransactions this ++ [transaction]) this).
Proof.
  unfold createTransaction. run_method.
  destruct (Transaction.isValid transaction); simpl;
    [|intros [= <-]; by left].
  destruct (Transaction.fromAddress transaction) as [from|].
  - destruct (getBalance from this <? Transaction.amount transaction)%number; simpl;
      intros [= <-]; [by left | by right].
  - simpl. intros [= <-]. by right.
Qed.

(** *** The invariant of the chain object *)

Lemma mintedIn_app (blocks1 blocks2 : list TransactionBlock.t) :
  mintedIn (blocks1 ++ blocks2) = mintedIn blocks1 + mintedIn blocks2.
Proof. induction blocks1 as [|? ? IH]; simpl; [done | rewrite IH; lia]. Qed.

Lemma new_invariant genesisId txTime blockTime :
  invariant (new genesisId txTime blockTime).
Proof.
  unfold invariant, new. cbn [difficulty miningReward pendingTransactions chain balances].
  split; [done|]. split; [done|]. split; [constructor|].
  eexists _, []. split; [done|]. split; [constructor|]. split; [constructor|].
  reflexivity.
Qed.

Lemma step_invariant (this this' : Blockchain.t) :
  invariant this -> step this this' -> invariant this'.
Proof.
  intros (Hdiff & Hreward & Hpending & genesis & rest & Hchain & Htarget & Hshape & Hledger)
         Hstep.
  destruct Hstep as [this transaction this' Hfinal
                    |this fuel rewardId rewardTime blockTime address this' Hret].
  - apply createTransaction_final in Hfinal as [->|[Hvalid ->]].
    + unfold invariant. eauto 10.
    + unfold invariant, with_pendingTransactions.
      cbn [difficulty miningReward pendingTransactions chain balances].
      repeat split; try done.
      * apply Forall_app. split; [done | by constructor].
      * eauto 10.
  - apply minePendingTransactions_Return in Hret
      as (latest & block & _ & _ & Htxs & Hmeets & ->).
    unfold invariant.
    cbn [difficulty miningReward pendingTransactions chain balances].
    repeat split; try done.
    exists genesis, (rest ++ [block]). rewrite Hchain. repeat split.
    + apply Forall_app. split; [done|]. constructor; [|constructor].
      by rewrite <- Hdiff.
    + apply Forall_app. split; [done|]. constructor; [|constructor].
      eexists _, _. split; [exact Htxs|]. repeat split; done.
    + rewrite flat_map_app. cbn [flat_map].
      by rewrite app_nil_r, Htxs, !fold_left_app, <- Hledger.
Qed.

Lemma reachable_invariant (this : Blockchain.t) : reachable this -> invariant this.
Proof.
  induction 1 as [genesisId txTime blockTime|this this' _ IH Hstep].
  - apply new_invariant.
  - by apply (step_invariant this).
Qed.

(** *** The run *)

Lemma run_submitted :
  createTransaction Run.toAlice Run.fresh = Return tt Run.submitted.
Proof. reflexivity. Qed.

Lemma run_mined :
  minePendingTransactions 2 "2aabfe228f219e9cb0eb53f16947ccf2"
    1700000006000 1700000006046 "alice" Run.submitted
  = Return tt Run.sealed.
Proof. vm_compute. reflexivity. Qed.

Lemma run_sealed_reachable : reachable Run.sealed.
Proof.
  apply (reachable_step Run.submitted).
  - apply (reachable_step Run.fresh); [apply reachable_new|].
    exact (step_createTransaction Run.fresh Run.toAlice Run.submitted eq_refl).
  - exact (step_minePendingTransactions Run.submitted 2
             "2aabfe228f219e9cb0eb53f16947ccf2" 1700000006000 1700000006046
             "alice" Run.sealed run_mined).
Qed.

(** *** The first block *)

(** C2: a new chain holds one block, of index 0 and previous hash "0".  After
    a transaction of 50 to alice without sender is submitted and alice
    mines, the chain has two blocks, the pool is empty and alice holds 50
    plus the mining reward, which is 10.  The nonce search returns within
    [fuel] passes as soon as one of the first [fuel] nonces meets the
    target. *)
Theorem first_block_credits_alice
    (genesisId : string) (txTime blockTime : Z)
    (transactionId : string) (transactionTime : Z)
    (rewardId : string) (rewardTime sealTime : Z) (n fuel : nat) :
  let fresh := new genesisId txTime blockTime in
  let toAlice := Transaction.new transactionId transactionTime None "alice" 50 in
  let candidate :=
    TransactionBlock.new sealTime 1
      [toAlice; Transaction.new rewardId rewardTime None "alice" 10]
      (TransactionBlock.hash (createGenesisBlock genesisId txTime blockTime)) in
  TransactionBlock.meetsTarget 3
    (Nat.iter n TransactionBlock.nextNonce candidate) = true ->
  (n <= fuel)%nat ->
  (exists genesis,
     chain fresh = [genesis]
     /\ TransactionBlock.index genesis = 0
     /\ TransactionBlock.previousHash genesis = "0")
  /\ exists submitted sealed,
       createTransaction toAlice fresh = Return tt submitted
       /\ minePendingTransactions fuel rewardId rewardTime sealTime "alice" submitted
          = Return tt sealed
       /\ length (chain sealed) = 2%nat
       /\ pendingTransactions sealed = []
       /\ miningReward sealed = 10%number
       /\ getBalance "alice" sealed = (50 + miningReward sealed)%number.
Proof.
  intros fresh toAlice candidate Hmeets Hfuel.
  split; [eexists; repeat split|].
  destruct (mineBlock_terminates n fuel 3 candidate Hmeets Hfuel) as [mined Hmined].
  destruct (mineBlock_Some _ _ _ _ Hmined) as [_ Htxs].
  exists (with_pendingTransactions [toAlice] fresh).
  eexists. split; [reflexivity|]. split.
  - unfold minePendingTransactions, getLatestBlock. run_method.
    cbn [chain with_pendingTransactions pendingTransactions difficulty
         miningReward fresh new length Nat.sub lookup list_lookup app Z.of_nat
         Pos.of_succ_nat].
    change (Z.of_nat 1) with 1. fold candidate. rewrite Hmined. reflexivity.
  - cbn [chain with_chain with_pendingTransactions updateBalances with_balances
         pendingTransactions miningReward fresh new].
    rewrite Htxs. repeat split.
Qed.

Lemma first_block_credits_alice_witness :
  exists sealed,
    minePendingTransactions 2 "2aabfe228f219e9cb0eb53f16947ccf2"
      1700000006000 1700000006046 "alice" Run.submitted = Return tt sealed
    /\ length (chain sealed) = 2%nat
    /\ getBalance "alice" sealed = (50 + miningReward sealed)%number.
Proof.
  destruct (first_block_credits_alice
              "a4c123b1612dd272d1371c17149d4395" 1700000000000 1700000000000
              "36b3216fdaeeb975729fae923d5a4fd1" 1700000001000
              "2aabfe228f219e9cb0eb53f16947ccf2" 1700000006000 1700000006046
              2 2)
    as (_ & submitted & sealed & Hsub & Hmine & Hlen & _ & _ & Hbal).
  - vm_compute. reflexivity.
  - lia.
  - exists sealed. injection Hsub as <-. auto.
Defined.

(** *** The difficulty target *)

(** C6, as the program has it: in every reachable state every block after
    the genesis block has a hash whose first [difficulty] characters are the
    difficulty target.  The genesis block is built without a nonce search
    and [isChainValid] starts at index 1. *)
Theorem mined_blocks_meet_target (this : Blockchain.t) :
  reachable this ->
  forall (i : nat) block,
    chain this !! i = Some block -> (1 <= i)%nat ->
    JS.substring_to (difficulty this) (TransactionBlock.hash block)
    = CryptoUtils.getDifficultyTarget (difficulty this).
Proof.
  intros Hreach i block Hat Hi.
  destruct (reachable_invariant _ Hreach)
    as (Hdiff & _ & _ & genesis & rest & Hchain & Htarget & _).
  rewrite Hchain in Hat. destruct i as [|k]; [lia|]. simpl in Hat.
  pose proof (Forall_lookup_1 _ _ _ _ Htarget Hat) as Hmeets.
  rewrite Hdiff. by apply String.eqb_eq.
Qed.

Lemma mined_blocks_meet_target_witness :
  exists block,
    chain Run.sealed !! 1%nat = Some block
    /\ JS.substring_to 3 (TransactionBlock.hash block) = "000".
Proof.
  eexists. split; [reflexivity|].
  exact (mined_blocks_meet_target Run.sealed run_sealed_reachable 1 _
           eq_refl (le_n 1)).
Defined.

(** C6 as stated fails at the genesis block: the chain just built is a
    reachable state, and the hash of its only block starts with "784". *)
Lemma genesis_block_misses_target :
  ~ (forall this : Blockchain.t,
       reachable this ->
       forall block,
         block ∈ chain this ->
         JS.substring_to (difficulty this) (TransactionBlock.hash block)
         = CryptoUtils.getDifficultyTarget (difficulty this)).
Proof.
  intros Hall.
  pose proof (Hall Run.fresh (reachable_new _ _ _) _ (list_elem_of_here _ _)) as Hbad.
  vm_compute in Hbad. discriminate.
Qed.

Lemma transfer_run_reachable : reachable TransferRun.sealed.
Proof.
  apply (reachable_step TransferRun.submitted).
  - apply (reachable_step TransferRun.firstMined).
    + apply (reachable_step TransferRun.fresh); [apply reachable_new|].
      apply (step_minePendingTransactions TransferRun.fresh 1
               "eee65f53e9421ce50211670eae679f02" 1700000011300 1700000011356
               "alice" TransferRun.firstMined).
      vm_compute. reflexivity.
    + apply (step_createTransaction TransferRun.firstMined TransferRun.toBob).
      vm_compute. reflexivity.
  - apply (step_minePendingTransactions TransferRun.submitted 0
             "0d347301ef56e64dc3cd6089065c3146" 1700000017300 1700000017356
             "bob" TransferRun.sealed).
    vm_compute. reflexivity.
Qed.

(** *** Conservation of the balances *)

Lemma mintedBy_senders (body : list Transaction.t) :
  Forall (fun transaction => Transaction.isValid transaction = true) body ->
  (forall (j : nat) transaction,
     body !! j = Some transaction -> Transaction.fromAddress transaction <> None) ->
  Ledger.mintedBy body = 0.
Proof.
  induction body as [|transaction body IH]; intros Hvalid Hsenders; [done|].
  inversion Hvalid as [|? ? Hhead Htail]; subst. simpl.
  rewrite (minted_valid_sender transaction Hhead (Hsenders 0%nat _ eq_refl)).
  rewrite IH; [done | done |].
  intros j tx Hj. exact (Hsenders (S j) tx Hj).
Qed.

Lemma rewardLast_minted (reward : JS.number) block :
  rewardLast reward block ->
  (forall (j : nat) transaction,
     TransactionBlock.transactions block !! j = Some transaction ->
     Transaction.fromAddress transaction = None ->
     j = (length (TransactionBlock.transactions block) - 1)%nat) ->
  Ledger.mintedBy (TransactionBlock.transactions block) = JS.units reward.
Proof.
  intros (body & rewardTransaction & -> & Hvalid & Hnone & Hamount) Hlast.
  rewrite mintedBy_app, mintedBy_senders; [| done |].
  - simpl. unfold Ledger.minted. rewrite Hnone, Hamount. lia.
  - intros j transaction Hj Hfrom.
    pose proof (lookup_lt_Some _ _ _ Hj) as Hlt.
    specialize (Hlast j transaction).
    rewrite lookup_app_l in Hlast by done.
    specialize (Hlast Hj Hfrom). rewrite length_app in Hlast. simpl in Hlast. lia.
Qed.

Lemma mintedIn_rewards (reward : JS.number) (rest : list TransactionBlock.t) :
  Forall (rewardLast reward) rest ->
  (forall (k : nat) block (j : nat) transaction,
     rest !! k = Some block ->
     TransactionBlock.transactions block !! j = Some transaction ->
     Transaction.fromAddress transaction = None ->
     j = (length (TransactionBlock.transactions block) - 1)%nat) ->
  mintedIn rest = JS.units reward * Z.of_nat (length rest).
Proof.
  induction rest as [|block rest IH]; intros Hshape Hlast; [simpl; lia|].
  inversion Hshape as [|? ? Hhead Htail]; subst.
  cbn [mintedIn fold_right length]. fold (mintedIn rest).
  rewrite (rewardLast_minted reward block Hhead).
  - rewrite IH; [lia | done |].
    intros k b j tx Hk. exact (Hlast (S k) b j tx Hk).
  - intros j tx. exact (Hlast 0%nat block j tx eq_refl).
Qed.

Lemma mintedBy_flat_map (blocks : list TransactionBlock.t) :
  Ledger.mintedBy (flat_map TransactionBlock.transactions blocks) = mintedIn blocks.
Proof.
  induction blocks as [|block blocks IH]; simpl; [done|].
  by rewrite mintedBy_app, IH.
Qed.

(** C7, as the program has it: in a reachable state in which the only
    transactions without sender that were sealed are the rewards, and in
    which no update of the ledger rounded, the balances sum exactly to the
    mining reward times the number of blocks after the genesis block. *)
Theorem balances_sum_to_rewards (this : Blockchain.t) :
  reachable this ->
  onlyRewardsIssued this ->
  exactLedger this = true ->
  totalBalance this
  = JS.units (miningReward this) * (Z.of_nat (length (chain this)) - 1).
Proof.
  intros Hreach Honly Hexact.
  destruct (reachable_invariant _ Hreach)
    as (_ & Hreward & _ & genesis & rest & Hchain & _ & Hshape & Hledger).
  unfold totalBalance, exactLedger, settled in *. rewrite Hchain in Hexact.
  change (drop 1 (genesis :: rest)) with rest in Hexact.
  rewrite Hledger, (total_fold_applyTransaction _ _ Hexact), total_empty.
  rewrite mintedBy_flat_map, Hreward, Hchain.
  rewrite (mintedIn_rewards 10 rest Hshape).
  - cbn [length]. lia.
  - intros k block j tx Hk Hj Hfrom.
    apply (Honly (S k) block j tx); [by rewrite Hchain | lia | done | done].
Qed.

Lemma transfer_run_onlyRewardsIssued : onlyRewardsIssued TransferRun.sealed.
Proof.
  intros i block j tx Hi Hpos Hj Hfrom.
  destruct i as [|[|[|i]]]; [lia | | | discriminate Hi].
  - injection Hi as <-. destruct j as [|j]; [reflexivity | discriminate Hj].
  - injection Hi as <-. destruct j as [|[|j]]; [| reflexivity | discriminate Hj].
    injection Hj as <-. discriminate Hfrom.
Qed.

Lemma balances_sum_to_rewards_witness :
  totalBalance TransferRun.sealed = JS.units 10 * 2
  /\ getBalance "alice" TransferRun.sealed = 6%number
  /\ getBalance "bob" TransferRun.sealed = 14%number.
Proof.
  split; [|split; reflexivity].
  exact (balances_sum_to_rewards TransferRun.sealed transfer_run_reachable
           transfer_run_onlyRewardsIssued eq_refl).
Defined.

Lemma first_mined_reachable : reachable TransferRun.firstMined.
Proof.
  apply (reachable_step TransferRun.fresh); [apply reachable_new|].
  apply (step_minePendingTransactions TransferRun.fresh 1
           "eee65f53e9421ce50211670eae679f02" 1700000011300 1700000011356
           "alice" TransferRun.firstMined).
  vm_compute. reflexivity.
Qed.

Lemma fraction_run_reachable : reachable FractionRun.sealed.
Proof.
  apply (reachable_step FractionRun.submitted).
  - apply (reachable_step
             (with_pendingTransactions [FractionRun.toBob] TransferRun.firstMined)).
    + apply (reachable_step TransferRun.firstMined); [apply first_mined_reachable|].
      apply (step_createTransaction TransferRun.firstMined FractionRun.toBob).
      vm_compute. reflexivity.
    + apply (step_createTransaction _ FractionRun.toCarol).
      vm_compute. reflexivity.
  - apply (step_minePendingTransactions FractionRun.submitted 0
             "2134d2d377dbede28678cac9e2656075" 1700000039500 1700000039566
             "alice" FractionRun.sealed).
    vm_compute. reflexivity.
Qed.

Lemma fraction_run_onlyRewardsIssued : onlyRewardsIssued FractionRun.sealed.
Proof.
  intros i block j tx Hi Hpos Hj Hfrom.
  destruct i as [|[|[|i]]]; [lia | | | discriminate Hi].
  - injection Hi as <-. destruct j as [|j]; [reflexivity | discriminate Hj].
  - injection Hi as <-. destruct j as [|[|[|j]]]; [| | reflexivity | discriminate Hj].
    + injection Hj as <-. discriminate Hfrom.
    + injection Hj as <-. discriminate Hfrom.
Qed.

(** C7 as stated fails when amounts are not whole.  After alice, who holds
    10, pays 0.1 and 0.2 and mines the block, the chain has two blocks after
    the genesis block and the only transactions without sender are the two
    rewards of 10; the balances are 19.700000000000003, 0.1 and 0.2.  Their
    exact sum is not 20, and added as numbers in any order they give
    20.000000000000004. *)
Lemma fractions_break_conservation :
  ~ (forall this : Blockchain.t,
       reachable this ->
       onlyRewardsIssued this ->
       totalBalance this
       = JS.units (miningReward this) * (Z.of_nat (length (chain this)) - 1))
  /\ (let alice := getBalance "alice" FractionRun.sealed in
      let bob := getBalance "bob" FractionRun.sealed in
      let carol := getBalance "carol" FractionRun.sealed in
      alice = 19.700000000000003 /\ bob = 0.1 /\ carol = 0.2
      /\ alice + bob + carol = 20.000000000000004
      /\ alice + carol + bob = 20.000000000000004
      /\ bob + carol + alice = 20.000000000000004
      /\ 20.000000000000004 <> 10 * 2)%number.
Proof.
  split.
  - intros Hall.
    pose proof (Hall FractionRun.sealed fraction_run_reachable
                  fraction_run_onlyRewardsIssued) as Hbad.
    apply Z.eqb_eq in Hbad. vm_compute in Hbad. discriminate.
  - cbn zeta. repeat split; try (vm_compute; reflexivity).
    vm_compute. discriminate.
Qed.

(** *** Validation and the amounts *)

(** [isChainValid] reads an amount only through [isValid]: the hash covers
    the index, the previous hash, the timestamp, the stored Merkle root and
    the nonce, and the Merkle root was computed from the identifiers. *)
Lemma forallb_pointwise {A} (f g : A -> bool) (l : list A) :
  (forall x, In x l -> f x = g x) -> forallb f l = forallb g l.
Proof.
  induction l as [|x l IH]; intros Heq; simpl; [done|].
  rewrite (Heq x) by (by left). rewrite IH; [done|].
  intros y Hy. apply Heq. by right.
Qed.

Lemma hasValidTransactions_with_amount block (j : nat) amount' :
  (forall transaction,
     TransactionBlock.transactions block !! j = Some transaction ->
     Transaction.isValid (Transaction.with_amount amount' transaction)
     = Transaction.isValid transaction) ->
  forallb Transaction.isValid
    (alter (Transaction.with_amount amount') j (TransactionBlock.transactions block))
  = TransactionBlock.hasValidTransactions block.
Proof.
  unfold TransactionBlock.hasValidTransactions.
  generalize (TransactionBlock.transactions block). intros transactions.
  revert j. induction transactions as [|transaction rest IH]; intros j Hsame; [done|].
  destruct j as [|j]; simpl.
  - by rewrite (Hsame transaction eq_refl).
  - f_equal. apply IH. intros tx Hj. by apply Hsame.
Qed.

Lemma isChainValid_tamperAmount (this : Blockchain.t) (i j : nat) amount' :
  (forall block transaction,
     chain this !! i = Some block ->
     TransactionBlock.transactions block !! j = Some transaction ->
     Transaction.isValid (Transaction.with_amount amount' transaction)
     = Transaction.isValid transaction) ->
  isChainValid (tamperAmount i j amount' this) = isChainValid this.
Proof.
  intros Hsame. unfold isChainValid, tamperAmount.
  cbn [chain with_chain difficulty]. rewrite length_alter.
  apply forallb_pointwise. intros k Hk%in_seq.
  rewrite !list_lookup_alter.
  assert (Hcurrent : forall block previous,
    chain this !! i = Some block ->
    blockValid (difficulty this)
      (TransactionBlock.with_transactions
         (alter (Transaction.with_amount amount') j
            (TransactionBlock.transactions block)) block) previous
    = blockValid (difficulty this) block previous).
  { intros block previous Hi. unfold blockValid.
    unfold TransactionBlock.hasValidTransactions at 1.
    cbn [TransactionBlock.with_transactions TransactionBlock.transactions].
    rewrite (hasValidTransactions_with_amount block j amount') by eauto.
    reflexivity. }
  destruct (decide (i = k)) as [Hik|Hik], (decide (i = (k - 1)%nat)) as [Hpred|Hpred].
  - lia.
  - subst k. destruct (chain this !! i) as [block|] eqn:Hi; simpl; [|done].
    destruct (chain this !! (i - 1)%nat); [|done]. by apply Hcurrent.
  - rewrite <- Hpred.
    destruct (chain this !! k), (chain this !! i); simpl; reflexivity.
  - reflexivity.
Qed.

(** C1, evaluated on the run of main.ts: after alice's block is mined, the
    amount of its first transaction is changed from 50 to 1000, and
    [isChainValid] still returns [true]. *)
Theorem tampered_amount_passes_validation :
  reachable Run.sealed
  /\ (exists block transaction,
        chain Run.sealed !! 1%nat = Some block
        /\ TransactionBlock.transactions block !! 0%nat = Some transaction
        /\ Transaction.amount transaction = 50%number)
  /\ (exists block transaction,
        chain Run.tampered !! 1%nat = Some block
        /\ TransactionBlock.transactions block !! 0%nat = Some transaction
        /\ Transaction.amount transaction = 1000%number)
  /\ isChainValid Run.sealed = true
  /\ isChainValid Run.tampered = true.
Proof.
  split; [exact run_sealed_reachable|].
  split; [eexists _, _; repeat split|].
  split; [eexists _, _; repeat split|].
  split; vm_compute; reflexivity.
Qed.

End ProofOfWork.

(** ** The proof-of-stake chain *)

Section ProofOfStake.
Import ProofOfStakeBlockchain.
Local Open Scope Z_scope.

(** *** What the two staking operations do *)

Lemma stakeTokens_run (this : ProofOfStakeBlockchain.t)
    (now : Z) (address : string) (amount : JS.number) :
  stakeTokens now address amount this
  = if (getBalance address this <? amount)%number
       || (amount <? minimumStake this)%number
    then Return false this
    else Return true
           (with_validators
              (JSMap.set address
                 match JSMap.get address (validators this) with
                 | Some existing =>
                     with_stake (stake existing + amount)%number existing
                 | None => {| address := address; stake := amount;
                              isActive := true; joinedAt := now |}
                 end (validators this))
              (with_balances
                 (<[address := (getBalance address this - amount)%number]>
                    (balances this))
                 this)).
Proof.
  unfold stakeTokens. run_method.
  destruct (getBalance address this <? amount)%number; [done|].
  destruct (amount <? minimumStake this)%number; [done|].
  cbn [validators with_balances orb].
  destruct (JSMap.get address (validators this)); reflexivity.
Qed.

Lemma unstakeTokens_run (this : ProofOfStakeBlockchain.t)
    (address : string) (amount : JS.number) :
  unstakeTokens address amount this
  = match JSMap.get address (validators this) with
    | None => Return false this
    | Some validator =>
        if (stake validator <? amount)%number then Return false this
        else
          let left' := (stake validator - amount)%number in
          Return true
            (with_balances
               (<[address := (getBalance address this + amount)%number]>
                  (balances this))
               (with_validators
                  (if (left' <? minimumStake this)%number
                   then JSMap.delete address
                          (JSMap.set address (with_stake left' validator)
                             (validators this))
                   else JSMap.set address (with_stake left' validator)
                          (validators this))
                  this))
    end.
Proof.
  unfold unstakeTokens. run_method.
  destruct (JSMap.get address (validators this)) as [validator|]; [|done].
  destruct (stake validator <? amount)%number; [done|].
  cbn [stake with_stake minimumStake with_validators]. cbn zeta.
  by destruct (stake validator - amount <? minimumStake this)%number.
Qed.

(** *** Staking *)




(** *** The exact sum of the stakes *)

Lemma stakeUnits_set (registry : JSMap.t IValidator) key validator :
  stakeUnits (JSMap.set key validator registry)
  = stakeUnits registry
    - from_option (fun old => JS.units (stake old)) 0 (JSMap.get key registry)
    + JS.units (stake validator).
Proof.
  unfold stakeUnits.
  induction registry as [|[k v] registry IH]; simpl; [lia|].
  destruct (String.eqb_spec k key) as [->|Hk]; simpl; [lia|].
  fold (JSMap.values (JSMap.set key validator registry)).
  fold (JSMap.values registry). lia.
Qed.

Lemma delete_set (registry : JSMap.t IValidator) key validator :
  JSMap.get key registry <> None ->
  JSMap.delete key (JSMap.set key validator registry) = JSMap.delete key registry.
Proof.
  induction registry as [|[k v] registry IH]; simpl; [done|].
  destruct (String.eqb_spec k key) as [->|Hk]; simpl.
  - by rewrite String.eqb_refl.
  - intros Hget. destruct (String.eqb_spec k key); [done|]. simpl.
    f_equal. by apply IH.
Qed.

Lemma stakeUnits_delete (registry : JSMap.t IValidator) key validator :
  JSMap.wf registry ->
  JSMap.get key registry = Some validator ->
  stakeUnits (JSMap.delete key registry)
  = stakeUnits registry - JS.units (stake validator).
Proof.
  unfold JSMap.wf, stakeUnits.
  induction registry as [|[k v] registry IH]; simpl; [done|].
  intros [Hfresh Hwf]%NoDup_cons.
  destruct (String.eqb_spec k key) as [->|Hk]; simpl.
  - intros [= ->]. fold (JSMap.delete key registry).
    rewrite delete_absent; [fold (JSMap.values registry); lia|].
    apply get_None_keys. intros Hin. apply Hfresh. by apply list_elem_of_In.
  - intros Hget. fold (JSMap.delete key registry).
    fold (JSMap.values (JSMap.delete key registry)).
    fold (JSMap.values registry). rewrite (IH Hwf Hget). lia.
Qed.

(** *** Unstaking below the minimum *)

(** C10, as the program has it: when a call of [unstakeTokens] returns
    [true] and leaves a stake above 0 and below the minimum stake, the
    validator is deleted and the address is credited with the amount only,
    no other balance and no other validator being touched.  Where the stake
    left, the credit and the two sums of [getTotalStake] are computed
    without rounding, the total stake plus the sum of all balances goes down
    by exactly the stake that was left. *)
Theorem unstake_below_minimum_loses_rest (this this' : ProofOfStakeBlockchain.t)
    (address : string) (amount : JS.number) (validator : IValidator) :
  JSMap.get address (validators this) = Some validator ->
  unstakeTokens address amount this = Return true this' ->
  (0 <? stake validator - amount)%number = true ->
  (stake validator - amount <? minimumStake this)%number = true ->
  JSMap.get address (validators this') = None
  /\ balances this' !! address = Some (getBalance address this + amount)%number
  /\ (forall other, other <> address ->
        balances this' !! other = balances this !! other
        /\ JSMap.get other (validators this')
           = JSMap.get other (validators this))
  /\ (JSMap.wf (validators this) ->
      Ledger.exactly (stake validator - amount)%number
        (JS.units (stake validator) - JS.units amount) = true ->
      Ledger.exactly (getBalance address this + amount)%number
        (JS.units (getBalance address this) + JS.units amount) = true ->
      exactTotalStake this = true ->
      exactTotalStake this' = true ->
      JS.units (getTotalStake this') + totalBalance this'
      = JS.units (getTotalStake this) + totalBalance this
        - JS.units (stake validator - amount)%number).
Proof.
  intros Hat Hret Hpositive Hbelow.
  rewrite unstakeTokens_run, Hat in Hret.
  destruct (stake validator <? amount)%number; [discriminate|].
  cbn zeta in Hret. rewrite Hbelow in Hret. injection Hret as <-.
  cbn [validators balances with_balances with_validators].
  split; [apply get_delete_eq|].
  split; [by rewrite lookup_insert_eq|].
  split.
  { intros other Hother. split; [by rewrite lookup_insert_ne|].
    by rewrite get_delete_ne, get_set_ne. }
  intros Hwf [_ Hleft]%exactly_true [_ Hcredit]%exactly_true
         [_ Hbefore]%exactly_true [_ Hafter]%exactly_true.
  cbn [validators with_balances with_validators] in Hafter.
  rewrite Hbefore, Hafter, Hleft.
  rewrite delete_set by congruence.
  rewrite (stakeUnits_delete _ _ _ Hwf Hat).
  unfold totalBalance. cbn [balances with_balances with_validators].
  rewrite total_insert, Hcredit. unfold getBalance. rewrite units_number_or. lia.
Qed.

Lemma posrun_staked :
  stakeTokens 1700000002000 "bob" 40 PosRun.funded = Return true PosRun.staked.
Proof. vm_compute. reflexivity. Qed.

Lemma unstake_below_minimum_loses_rest_witness :
  exists this',
    unstakeTokens "bob" 10 PosRun.staked = Return true this'
    /\ JSMap.get "bob" (validators this') = None
    /\ getBalance "bob" this' = 50%number
    /\ JS.units (getTotalStake this') + totalBalance this'
       = JS.units (getTotalStake PosRun.staked) + totalBalance PosRun.staked
         - JS.units 30.
Proof.
  eexists. split; [vm_compute; reflexivity|].
  match goal with
  | |- context [JSMap.get "bob" (validators ?s) = None] =>
      destruct (unstake_below_minimum_loses_rest PosRun.staked s "bob" 10
                  {| address := "bob"; stake := 40; isActive := true;
                     joinedAt := 1700000002000 |})
        as (Hgone & _ & _ & Hsum)
  end.
  - reflexivity.
  - vm_compute. reflexivity.
  - reflexivity.
  - reflexivity.
  - split; [exact Hgone|]. split; [reflexivity|].
    apply Hsum; try reflexivity. apply NoDup_singleton.
Defined.

Lemma residue_run_staked :
  stakeTokens 1700000002000 "bob" 40 ResidueRun.funded
  = Return true ResidueRun.staked.
Proof. vm_compute. reflexivity. Qed.

Lemma residue_run_unstaked :
  unstakeTokens "bob" 10.1 ResidueRun.staked = Return true ResidueRun.unstaked.
Proof. vm_compute. reflexivity. Qed.

(** C10 as stated fails when the arithmetic rounds.  bob, with a stake of 40
    and a balance of 60.7, takes back 10.1: the stake left is 29.9 as the
    program computes it and the validator is deleted, but the total stake
    plus the balances goes down from 100.7 to 70.8, by 29.900000000000006
    as the program computes it; nor is the exact difference of the sums the
    exact value of the stake left. *)
Lemma rounding_changes_the_loss :
  ~ (forall (this this' : ProofOfStakeBlockchain.t) address amount validator,
       JSMap.get address (validators this) = Some validator ->
       unstakeTokens address amount this = Return true this' ->
       (0 <? stake validator - amount)%number = true ->
       (stake validator - amount <? minimumStake this)%number = true ->
       JS.units (getTotalStake this') + totalBalance this'
       = JS.units (getTotalStake this) + totalBalance this
         - JS.units (stake validator - amount)%number)
  /\ (let before :=
        getTotalStake ResidueRun.staked + getBalance "bob" ResidueRun.staked in
      let after :=
        getTotalStake ResidueRun.unstaked + getBalance "bob" ResidueRun.unstaked in
      before = 100.7 /\ after = 70.8
      /\ before - after = 29.900000000000006
      /\ 40 - 10.1 = 29.9
      /\ 29.900000000000006 <> 29.9)%number.
Proof.
  split.
  - intros Hall.
    pose proof (Hall ResidueRun.staked ResidueRun.unstaked "bob" 10.1%number
                  {| address := "bob"; stake := 40; isActive := true;
                     joinedAt := 1700000002000 |}
                  eq_refl residue_run_unstaked eq_refl eq_refl) as Hbad.
    apply Z.eqb_eq in Hbad. vm_compute in Hbad. discriminate.
  - cbn zeta. repeat split; try (vm_compute; reflexivity).
    vm_compute. discriminate.
Qed.

(** *** The registry and the minimum stake *)

Lemma posrun_staked_reachable : reachable PosRun.staked.
Proof.
  apply (reachable_step PosRun.funded).
  - apply (reachable_step PosRun.fresh); [apply reachable_new|].
    apply (step_seed PosRun.fresh "bob" 80%number).
  - exact (step_stakeTokens PosRun.funded 1700000002000 "bob" 40%number true
             PosRun.staked posrun_staked).
Qed.

Lemma nanrun_staked :
  stakeTokens 1700000002000 "bob" JS.NaN PosRun.fresh = Return true NaNRun.staked.
Proof. vm_compute. reflexivity. Qed.

End ProofOfStake.

(** C9, at the input where the program leaves the specification: on a chain
    just built, [stakeTokens("bob", NaN)] returns [true], because both
    [balance < amount] and [amount < minimumStake] are false of [NaN], and
    bob is registered with a stake of [NaN], which is not at least the
    minimum stake of 32.  The state is reached by that one public call. *)
Theorem stake_of_NaN_is_registered :
  ProofOfStakeBlockchain.reachable NaNRun.staked
  /\ ProofOfStakeBlockchain.stakeTokens 1700000002000 "bob" JS.NaN PosRun.fresh
     = Return true NaNRun.staked
  /\ JSMap.get "bob" (ProofOfStakeBlockchain.validators NaNRun.staked)
     = Some {| ProofOfStakeBlockchain.address := "bob";
               ProofOfStakeBlockchain.stake := JS.NaN;
               ProofOfStakeBlockchain.isActive := true;
               ProofOfStakeBlockchain.joinedAt := 1700000002000 |}
  /\ ProofOfStakeBlockchain.minimumStake NaNRun.staked = 32%number
  /\ (ProofOfStakeBlockchain.minimumStake NaNRun.staked
      <=? ProofOfStakeBlockchain.recordedStake "bob" NaNRun.staked)%number = false.
Proof.
  split.
  { apply (ProofOfStakeBlockchain.reachable_step PosRun.fresh);
      [apply ProofOfStakeBlockchain.reachable_new|].
    exact (ProofOfStakeBlockchain.step_stakeTokens PosRun.fresh 1700000002000
             "bob" JS.NaN true NaNRun.staked nanrun_staked). }
  split; [exact nanrun_staked|]. repeat split.
Qed.

(** ** The nonce search, further *)

Section NonceSearch.
Local Open Scope Z_scope.

Lemma calculateHash_with_hash hash' block :
  TransactionBlock.calculateHash (TransactionBlock.with_hash hash' block)
  = TransactionBlock.calculateHash block.
Proof. reflexivity. Qed.

Lemma nextNonce_hash block :
  TransactionBlock.hash (TransactionBlock.nextNonce block)
  = TransactionBlock.calculateHash (TransactionBlock.nextNonce block).
Proof. reflexivity. Qed.

(** The fields after [k] passes of the loop. *)
Lemma iter_nextNonce (k : nat) block :
  let block' := Nat.iter k TransactionBlock.nextNonce block in
  TransactionBlock.index block' = TransactionBlock.index block
  /\ TransactionBlock.timestamp block' = TransactionBlock.timestamp block
  /\ TransactionBlock.data block' = TransactionBlock.data block
  /\ TransactionBlock.previousHash block' = TransactionBlock.previousHash block
  /\ TransactionBlock.transactions block' = TransactionBlock.transactions block
  /\ TransactionBlock.merkleRoot block' = TransactionBlock.merkleRoot block
  /\ TransactionBlock.nonce block' = TransactionBlock.nonce block + Z.of_nat k
  /\ (TransactionBlock.hash block = TransactionBlock.calculateHash block ->
      TransactionBlock.hash block' = TransactionBlock.calculateHash block').
Proof.
  induction k as [|k IH]; cbn zeta.
  - simpl. repeat split; try done. lia.
  - rewrite Nat.iter_succ. cbn zeta in IH.
    destruct IH as (Hi & Ht & Hd & Hp & Htx & Hm & Hn & _).
    repeat split; try done.
    cbn [TransactionBlock.nextNonce TransactionBlock.with_hash
         TransactionBlock.with_nonce TransactionBlock.nonce]. lia.
Qed.

Lemma mineBlock_least fuel : forall difficulty block mined,
  TransactionBlock.mineBlock fuel difficulty block = Some mined ->
  exists k : nat,
    (k <= fuel)%nat
    /\ mined = Nat.iter k TransactionBlock.nextNonce block
    /\ TransactionBlock.meetsTarget difficulty mined = true
    /\ forall j : nat, (j < k)%nat ->
         TransactionBlock.meetsTarget difficulty
           (Nat.iter j TransactionBlock.nextNonce block) = false.
Proof.
  induction fuel as [|fuel IH]; intros difficulty block mined; simpl;
    destruct (TransactionBlock.meetsTarget difficulty block) eqn:Hmeets; simpl;
    intros Hmined; try discriminate.
  - injection Hmined as <-. exists 0%nat. repeat split; [lia | done | lia].
  - injection Hmined as <-. exists 0%nat. repeat split; [lia | done | lia].
  - apply IH in Hmined as (k & Hk & -> & Htarget & Hleast).
    exists (S k). split; [lia|]. split; [by rewrite Nat.iter_succ_r|].
    split; [done|]. intros [|j] Hj; [done|].
    rewrite Nat.iter_succ_r. apply Hleast. lia.
Qed.

(** X1: a nonce search that returns has stopped at the first nonce whose
    hash meets the target: the nonce grew by the number of passes, the hash
    stored is the hash of the header, and index, timestamp, previous hash,
    Merkle root and transactions are those of the block it was given. *)
Theorem mineBlock_first_nonce (fuel difficulty : nat) block mined :
  TransactionBlock.hash block = TransactionBlock.calculateHash block ->
  TransactionBlock.mineBlock fuel difficulty block = Some mined ->
  exists k : nat,
    (k <= fuel)%nat
    /\ TransactionBlock.nonce mined = TransactionBlock.nonce block + Z.of_nat k
    /\ TransactionBlock.hash mined = TransactionBlock.calculateHash mined
    /\ JS.substring_to difficulty (TransactionBlock.hash mined)
       = CryptoUtils.getDifficultyTarget difficulty
    /\ (forall j : nat, (j < k)%nat ->
          JS.substring_to difficulty
            (TransactionBlock.hash (Nat.iter j TransactionBlock.nextNonce block))
          <> CryptoUtils.getDifficultyTarget difficulty)
    /\ TransactionBlock.index mined = TransactionBlock.index block
    /\ TransactionBlock.timestamp mined = TransactionBlock.timestamp block
    /\ TransactionBlock.previousHash mined = TransactionBlock.previousHash block
    /\ TransactionBlock.merkleRoot mined = TransactionBlock.merkleRoot block
    /\ TransactionBlock.transactions mined = TransactionBlock.transactions block.
Proof.
  intros Hhash Hmined.
  apply mineBlock_least in Hmined as (k & Hk & -> & Htarget & Hleast).
  destruct (iter_nextNonce k block) as (Hi & Ht & _ & Hp & Htx & Hm & Hn & Hh).
  exists k. split; [done|]. split; [done|]. split; [by apply Hh|].
  split; [by apply String.eqb_eq|]. split; [|done].
  intros j Hj. apply String.eqb_neq. by apply Hleast.
Qed.

Lemma mineBlock_first_nonce_witness :
  exists k : nat,
    (k <= 5)%nat
    /\ TransactionBlock.nonce Run.minedBlock
       = TransactionBlock.nonce Run.candidate + Z.of_nat k
    /\ TransactionBlock.hash Run.minedBlock
       = TransactionBlock.calculateHash Run.minedBlock.
Proof.
  destruct (mineBlock_first_nonce 5 3 Run.candidate Run.minedBlock)
    as (k & Hk & Hnonce & Hhash & _).
  - reflexivity.
  - vm_compute. reflexivity.
  - exists k. auto.
Defined.

End NonceSearch.

(** ** Difficulties at the ends of the range *)

Section DifficultyRange.

Lemma calculateHash_length input :
  String.length (CryptoUtils.calculateHash input) = 64%nat.
Proof.
  unfold CryptoUtils.calculateHash, Sha256.hexdigest, Sha256.hex_word.
  cbn [String.append String.length]. reflexivity.
Qed.

Lemma substring_to_length (n : nat) : forall s : string,
  String.length (JS.substring_to n s) = Nat.min n (String.length s).
Proof.
  unfold JS.substring_to.
  induction n as [|n IH]; intros [|c s]; simpl; try reflexivity.
  by rewrite IH.
Qed.

Lemma repeat_char_length c (n : nat) : String.length (JS.repeat_char c n) = n.
Proof. induction n as [|n IH]; simpl; [done | by rewrite IH]. Qed.

Lemma digest_never_meets (difficulty : nat) block :
  (64 < difficulty)%nat ->
  TransactionBlock.hash block = TransactionBlock.calculateHash block ->
  TransactionBlock.meetsTarget difficulty block = false.
Proof.
  intros Hlarge Hhash. unfold TransactionBlock.meetsTarget.
  apply String.eqb_neq. intros Heq.
  apply (f_equal String.length) in Heq.
  rewrite substring_to_length, Hhash in Heq.
  unfold TransactionBlock.calculateHash, CryptoUtils.getDifficultyTarget in Heq.
  rewrite calculateHash_length, repeat_char_length in Heq. lia.
Qed.

(** X2: with difficulty 0 the target is the empty string and [mineBlock]
    returns at once, the block untouched.  With a difficulty above 64 the
    target is longer than any digest, and [mineBlock] does not return,
    whatever the number of passes. *)
Theorem mineBlock_difficulty_range (fuel : nat) block :
  TransactionBlock.mineBlock fuel 0 block = Some block
  /\ forall difficulty : nat,
       (64 < difficulty)%nat ->
       TransactionBlock.hash block = TransactionBlock.calculateHash block ->
       TransactionBlock.mineBlock fuel difficulty block = None.
Proof.
  split.
  { assert (Hzero : TransactionBlock.meetsTarget 0 block = true).
    { unfold TransactionBlock.meetsTarget, JS.substring_to.
      by destruct (TransactionBlock.hash block). }
    destruct fuel; simpl; by rewrite Hzero. }
  intros difficulty Hlarge. revert block.
  induction fuel as [|fuel IH]; intros block Hhash; simpl;
    rewrite (digest_never_meets difficulty block Hlarge Hhash); simpl; [done|].
  apply IH. apply nextNonce_hash.
Qed.

Lemma mineBlock_difficulty_range_witness :
  TransactionBlock.mineBlock 1000 0 Run.candidate = Some Run.candidate
  /\ TransactionBlock.mineBlock 1000 65 Run.candidate = None.
Proof.
  destruct (mineBlock_difficulty_range 1000 Run.candidate) as [Hzero Hlarge].
  split; [exact Hzero|]. apply Hlarge; [lia | reflexivity].
Defined.

End DifficultyRange.

(** ** The shape of the proof-of-work chain *)

Section ChainShape.
Import Blockchain.
Local Open Scope Z_scope.

Lemma new_blockWellFormed (now : Z) (i : nat) transactions previous :
  forallb Transaction.isValid transactions = true ->
  transactions <> [] ->
  blockWellFormed i previous
    (TransactionBlock.new now (Z.of_nat i) transactions previous).
Proof. intros Hvalid Hne. repeat split; done. Qed.

Lemma iter_blockWellFormed (k i : nat) previous block :
  blockWellFormed i previous block ->
  blockWellFormed i previous (Nat.iter k TransactionBlock.nextNonce block).
Proof.
  intros (Hi & Hp & Hh & Hm & Hv & Hne & Hd & Hn).
  destruct (iter_nextNonce k block) as (Hi' & _ & Hd' & Hp' & Htx' & Hm' & Hn' & Hh').
  unfold blockWellFormed, TransactionBlock.calculateMerkleRoot,
    TransactionBlock.hasValidTransactions in *.
  rewrite Hi', Hd', Hp', Htx', Hm', Hn'.
  repeat split; try done; [by apply Hh' | lia].
Qed.

Lemma lastHash_lookup previous (blocks : list TransactionBlock.t) latest :
  blocks !! (length blocks - 1)%nat = Some latest ->
  lastHash previous blocks = TransactionBlock.hash latest.
Proof.
  induction blocks as [|final front _] using rev_ind; [done|].
  rewrite length_app. simpl.
  replace (length front + 1 - 1)%nat with (length front) by lia.
  rewrite list_lookup_middle by done. intros [= <-].
  unfold lastHash. by rewrite fold_left_app.
Qed.

Lemma chainWellFormed_snoc (blocks : list TransactionBlock.t) :
  forall (i : nat) previous block,
    chainWellFormed i previous blocks ->
    blockWellFormed (i + length blocks) (lastHash previous blocks) block ->
    chainWellFormed i previous (blocks ++ [block]).
Proof.
  induction blocks as [|first rest IH]; intros i previous block Hchain Hblock; simpl.
  - simpl in Hblock. rewrite Nat.add_0_r in Hblock. done.
  - destruct Hchain as [Hfirst Hrest]. split; [done|].
    apply IH; [done|]. simpl in Hblock.
    by replace (S i + length rest)%nat with (i + S (length rest))%nat by lia.
Qed.

Lemma chainWellFormed_lookup (blocks : list TransactionBlock.t) :
  forall (i : nat) previous (k : nat) block,
    chainWellFormed i previous blocks ->
    blocks !! k = Some block ->
    blockWellFormed (i + k)
      match k with
      | O => previous
      | S j => from_option TransactionBlock.hash "" (blocks !! j)
      end
      block.
Proof.
  induction blocks as [|first rest IH]; intros i previous k block Hchain Hat;
    [done|].
  destruct Hchain as [Hfirst Hrest]. destruct k as [|k]; simpl in Hat.
  - injection Hat as <-. by rewrite Nat.add_0_r.
  - specialize (IH (S i) _ k block Hrest Hat).
    replace (i + S k)%nat with (S i + k)%nat by lia.
    destruct k as [|k]; exact IH.
Qed.

Lemma reachable_chainWellFormed (this : Blockchain.t) :
  reachable this -> chainWellFormed 0 "0" (chain this).
Proof.
  induction 1 as [genesisId txTime blockTime|this this' Hreach IH Hstep].
  - simpl. split; [|done]. by apply (new_blockWellFormed blockTime 0).
  - destruct (reachable_invariant _ Hreach) as (_ & _ & Hpending & _).
    destruct Hstep as [this transaction this' Hfinal
                      |this fuel rewardId rewardTime blockTime address this' Hret].
    + by apply createTransaction_final in Hfinal as [->|[_ ->]].
    + apply minePendingTransactions_Return in Hret
        as (latest & block & Hlatest & Hmine & _ & _ & ->).
      cbn [chain]. apply chainWellFormed_snoc; [done|].
      apply mineBlock_least in Hmine as (k & _ & -> & _).
      apply iter_blockWellFormed. simpl.
      rewrite (lastHash_lookup "0" (chain this) latest Hlatest).
      apply new_blockWellFormed; [|by destruct (pendingTransactions this)].
      rewrite forallb_app. simpl. rewrite andb_true_r.
      apply forallb_forall. intros transaction Hin.
      apply list_elem_of_In in Hin.
      by apply (proj1 (Forall_forall _ _) Hpending).
Qed.

(** X3: in every reachable state the block at position [i] has index [i],
    stores the hash of its own header and the Merkle root of the identifiers
    of its transactions, holds at least one transaction, and names the hash
    of the block before it, or "0" at position 0. *)
Theorem chain_is_linked (this : Blockchain.t) :
  reachable this ->
  forall (i : nat) block,
    chain this !! i = Some block ->
    TransactionBlock.index block = Z.of_nat i
    /\ TransactionBlock.hash block = TransactionBlock.calculateHash block
    /\ TransactionBlock.merkleRoot block
       = CryptoUtils.calculateMerkleRoot
           (map Transaction.id (TransactionBlock.transactions block))
    /\ TransactionBlock.transactions block <> []
    /\ TransactionBlock.previousHash block
       = match i with
         | O => "0"
         | S j => from_option TransactionBlock.hash "" (chain this !! j)
         end.
Proof.
  intros Hreach i block Hat.
  pose proof (chainWellFormed_lookup _ 0 "0" i block
                (reachable_chainWellFormed _ Hreach) Hat)
    as (Hi & Hp & Hh & Hm & _ & Hne & _).
  repeat split; done.
Qed.

Lemma chain_is_linked_witness :
  exists block,
    chain Run.sealed !! 1%nat = Some block
    /\ TransactionBlock.index block = 1
    /\ TransactionBlock.previousHash block
       = "7846e0c0ded1469a7706c8fffb9ae48e25daf28a0730206696d5707e44f240d4".
Proof.
  exists Run.minedBlock. split; [reflexivity|].
  destruct (chain_is_linked Run.sealed run_sealed_reachable 1 Run.minedBlock eq_refl)
    as (Hindex & _ & _ & _ & Hprevious).
  split; [exact Hindex | exact Hprevious].
Defined.

(** X4: in every reachable state [isChainValid] returns [true]: the
    operations of the class build valid chains only. *)
Theorem reachable_chain_is_valid (this : Blockchain.t) :
  reachable this -> isChainValid this = true.
Proof.
  intros Hreach.
  pose proof (reachable_chainWellFormed _ Hreach) as Hshape.
  destruct (reachable_invariant _ Hreach)
    as (Hdiff & _ & _ & genesis & rest & Hchain & Htarget & _).
  unfold isChainValid. apply forallb_forall. intros i Hi%in_seq.
  destruct (lookup_lt_is_Some_2 (chain this) i) as [current Hcurrent]; [lia|].
  destruct (lookup_lt_is_Some_2 (chain this) (i - 1)) as [previous Hprevious]; [lia|].
  rewrite Hcurrent, Hprevious.
  destruct i as [|j]; [lia|].
  pose proof (chainWellFormed_lookup _ 0 "0" (S j) current Hshape Hcurrent)
    as (_ & Hp & Hh & _ & Hv & _).
  replace (S j - 1)%nat with j in Hprevious by lia.
  rewrite Hprevious in Hp. simpl in Hp.
  assert (Hmeets : TransactionBlock.meetsTarget 3 current = true).
  { rewrite Hchain in Hcurrent. simpl in Hcurrent.
    exact (Forall_lookup_1 _ _ _ _ Htarget Hcurrent). }
  unfold blockValid. rewrite Hv, <- Hh, Hp, Hdiff. simpl.
  rewrite !String.eqb_refl. simpl.
  unfold TransactionBlock.meetsTarget in Hmeets. by rewrite Hmeets.
Qed.

Lemma reachable_chain_is_valid_witness : isChainValid TransferRun.sealed = true.
Proof. exact (reachable_chain_is_valid TransferRun.sealed transfer_run_reachable). Defined.

End ChainShape.

(** ** What [isChainValid] sees and what it does not *)

Section Validation.
Import Blockchain.
Local Open Scope Z_scope.

Lemma forallb_false_at {A} (f : A -> bool) (l : list A) (x : A) :
  In x l -> f x = false -> forallb f l = false.
Proof.
  intros Hin Hfalse. destruct (forallb f l) eqn:Hall; [|done].
  rewrite forallb_forall in Hall. specialize (Hall x Hin). congruence.
Qed.

(** X5: [isChainValid] does not recompute the Merkle root: the transactions
    of a sealed block can be replaced by any transactions that pass
    [isValid], and the result of the scan is what it was. *)
Theorem isChainValid_ignores_transactions
    (this : Blockchain.t) (i : nat) (transactions' : list Transaction.t) :
  (forall block,
     chain this !! i = Some block ->
     TransactionBlock.hasValidTransactions block = true) ->
  forallb Transaction.isValid transactions' = true ->
  isChainValid (replaceTransactions i transactions' this) = isChainValid this.
Proof.
  intros Hold Hnew. unfold isChainValid, replaceTransactions.
  cbn [chain with_chain difficulty]. rewrite length_alter.
  apply forallb_pointwise. intros k Hk%in_seq.
  rewrite !list_lookup_alter.
  assert (Hcurrent : forall block previous,
    chain this !! i = Some block ->
    blockValid (difficulty this)
      (TransactionBlock.with_transactions transactions' block) previous
    = blockValid (difficulty this) block previous).
  { intros block previous Hi. unfold blockValid.
    unfold TransactionBlock.hasValidTransactions at 1.
    cbn [TransactionBlock.with_transactions TransactionBlock.transactions].
    by rewrite Hnew, (Hold block Hi). }
  destruct (decide (i = k)) as [Hik|Hik], (decide (i = (k - 1)%nat)) as [Hpred|Hpred].
  - lia.
  - subst k. destruct (chain this !! i) as [block|] eqn:Hi; simpl; [|done].
    destruct (chain this !! (i - 1)%nat); [|done]. by apply Hcurrent.
  - rewrite <- Hpred.
    destruct (chain this !! k), (chain this !! i); simpl; reflexivity.
  - reflexivity.
Qed.

Lemma isChainValid_ignores_transactions_witness :
  isChainValid
    (replaceTransactions 1
       [Transaction.new "36b3216fdaeeb975729fae923d5a4fd1" 1700000001000
          None "mallory" 1000000]
       Run.sealed)
  = isChainValid Run.sealed.
Proof.
  apply isChainValid_ignores_transactions; [|reflexivity].
  intros block [= <-]. reflexivity.
Defined.

(** X6: a changed stored hash is seen.  If the block at position [i >= 1]
    stores the hash of its header, giving it any other hash makes
    [isChainValid] return [false]. *)
Theorem tampered_hash_is_detected
    (this : Blockchain.t) (i : nat) block (hash' : string) :
  chain this !! i = Some block ->
  (1 <= i)%nat ->
  TransactionBlock.hash block = TransactionBlock.calculateHash block ->
  hash' <> TransactionBlock.hash block ->
  isChainValid (tamperHash i hash' this) = false.
Proof.
  intros Hat Hi Hhash Hdiff. unfold isChainValid, tamperHash.
  cbn [chain with_chain difficulty]. rewrite length_alter.
  pose proof (lookup_lt_Some _ _ _ Hat) as Hlt.
  apply (forallb_false_at _ _ i); [apply in_seq; lia|].
  rewrite list_lookup_alter_eq, Hat. simpl.
  rewrite list_lookup_alter_ne by lia.
  destruct (lookup_lt_is_Some_2 (chain this) (i - 1)) as [previous ->]; [lia|].
  unfold blockValid.
  destruct (TransactionBlock.hasValidTransactions _); [|done]. simpl.
  rewrite calculateHash_with_hash, <- Hhash.
  cbn [TransactionBlock.hash TransactionBlock.with_hash].
  apply String.eqb_neq in Hdiff. by rewrite Hdiff.
Qed.

Lemma tampered_hash_is_detected_witness :
  isChainValid
    (tamperHash 1 "0000000000000000000000000000000000000000000000000000000000000000"
       Run.sealed)
  = false.
Proof.
  apply (tampered_hash_is_detected Run.sealed 1 Run.minedBlock);
    [reflexivity | lia | vm_compute; reflexivity | discriminate].
Defined.

(** X7: a changed link is seen.  If the block at position [i >= 1] names the
    hash of the block before it, giving it any other previous hash makes
    [isChainValid] return [false]. *)
Theorem tampered_previousHash_is_detected
    (this : Blockchain.t) (i : nat) block previous (previousHash' : string) :
  chain this !! i = Some block ->
  (1 <= i)%nat ->
  chain this !! (i - 1)%nat = Some previous ->
  TransactionBlock.previousHash block = TransactionBlock.hash previous ->
  previousHash' <> TransactionBlock.previousHash block ->
  isChainValid (tamperPreviousHash i previousHash' this) = false.
Proof.
  intros Hat Hi Hprevious Hlink Hdiff. unfold isChainValid, tamperPreviousHash.
  cbn [chain with_chain difficulty]. rewrite length_alter.
  pose proof (lookup_lt_Some _ _ _ Hat) as Hlt.
  apply (forallb_false_at _ _ i); [apply in_seq; lia|].
  rewrite list_lookup_alter_eq, Hat. simpl.
  rewrite list_lookup_alter_ne by lia. rewrite Hprevious.
  unfold blockValid.
  destruct (TransactionBlock.hasValidTransactions _); [|done]. simpl.
  destruct (negb (String.eqb _ _)); [done|].
  cbn [TransactionBlock.previousHash with_previousHash].
  rewrite <- Hlink. apply String.eqb_neq in Hdiff. by rewrite Hdiff.
Qed.

Lemma tampered_previousHash_is_detected_witness :
  isChainValid (tamperPreviousHash 1 "0" Run.sealed) = false.
Proof.
  apply (tampered_previousHash_is_detected Run.sealed 1 Run.minedBlock
           (createGenesisBlock "a4c123b1612dd272d1371c17149d4395"
              1700000000000 1700000000000));
    [reflexivity | lia | reflexivity | vm_compute; reflexivity | discriminate].
Defined.

End Validation.

(** ** Balances, address by address *)

Section Accounts.
Local Open Scope Z_scope.

Lemma balanceOf_insert (balances : gmap string JS.number) key value address :
  Ledger.balanceOf (<[key := value]> balances) address
  = if String.eqb key address then JS.or_zero value
    else Ledger.balanceOf balances address.
Proof.
  unfold Ledger.balanceOf. destruct (String.eqb_spec key address) as [->|Hne].
  - by rewrite lookup_insert_eq.
  - by rewrite lookup_insert_ne.
Qed.

Lemma units_balanceOf (balances : gmap string JS.number) address :
  JS.units (Ledger.balanceOf balances address)
  = from_option JS.units 0 (balances !! address).
Proof. apply units_number_or. Qed.

(** Applied exactly, a transaction moves the balance of an address by what
    it credits to it less what it debits from it. *)
Lemma balanceOf_applyTransaction (balances : gmap string JS.number)
    transaction address :
  Ledger.exactTransaction balances transaction = true ->
  JS.units (Ledger.balanceOf (Ledger.applyTransaction balances transaction) address)
  = JS.units (Ledger.balanceOf balances address)
    + Ledger.credit address transaction - Ledger.debit address transaction.
Proof.
  unfold Ledger.applyTransaction, Ledger.exactTransaction, Ledger.credit,
    Ledger.debit.
  destruct (Transaction.fromAddress transaction) as [from|];
    [destruct (JS.truthy from)|]; cbn zeta;
    intros [Hdebit [_ Hcredit]%exactly_true]%andb_prop;
    try (apply exactly_true in Hdebit as [_ Hdebit]);
    repeat match goal with
    | H : context [JS.number_or (?m !! ?k) 0] |- _ =>
        change (JS.number_or (m !! k) 0) with (Ledger.balanceOf m k) in H
    | |- context [JS.number_or (?m !! ?k) 0] =>
        change (JS.number_or (m !! k) 0) with (Ledger.balanceOf m k)
    end;
    rewrite ?balanceOf_insert in *;
    repeat match goal with
    | H : context [String.eqb ?a ?b] |- _ =>
        destruct (String.eqb_spec a b); subst
    | |- context [String.eqb ?a ?b] => destruct (String.eqb_spec a b); subst
    end;
    rewrite ?units_or_zero in *; simpl; try lia; try congruence.
Qed.

Lemma balanceOf_fold (transactions : list Transaction.t) :
  forall (balances : gmap string JS.number) address,
    Ledger.exactOn balances transactions = true ->
    JS.units
      (Ledger.balanceOf (fold_left Ledger.applyTransaction transactions balances)
         address)
    = JS.units (Ledger.balanceOf balances address) + Ledger.net address transactions.
Proof.
  induction transactions as [|transaction rest IH]; intros balances address; simpl.
  - lia.
  - intros [Hhead Hrest]%andb_prop.
    rewrite (IH _ _ Hrest), (balanceOf_applyTransaction _ _ _ Hhead). lia.
Qed.

Lemma net_app address (l1 l2 : list Transaction.t) :
  Ledger.net address (l1 ++ l2) = Ledger.net address l1 + Ledger.net address l2.
Proof. induction l1 as [|? ? IH]; simpl; [done | rewrite IH; lia]. Qed.

End Accounts.

Section PoolAndLedger.
Import Blockchain.
Local Open Scope Z_scope.
Local Open Scope method_scope.

(** X8: a call of [minePendingTransactions] that returns has appended one
    block holding the pool followed by the reward and emptied the pool; the
    ledger is what applying those transactions in order makes of it, and
    where none of these updates rounds every balance has moved by exactly
    the signed sum of the transactions at its address; difficulty and reward
    are untouched. *)
Theorem minePendingTransactions_settles_pool
    (fuel : nat) rewardId rewardTime blockTime miner (this this' : Blockchain.t) :
  minePendingTransactions fuel rewardId rewardTime blockTime miner this
    = Return tt this' ->
  let sealedTransactions :=
    pendingTransactions this
      ++ [Transaction.new rewardId rewardTime None miner (miningReward this)] in
  (exists block,
     chain this' = chain this ++ [block]
     /\ TransactionBlock.transactions block = sealedTransactions)
  /\ pendingTransactions this' = []
  /\ balances this'
     = fold_left Ledger.applyTransaction sealedTransactions (balances this)
  /\ (Ledger.exactOn (balances this) sealedTransactions = true ->
      forall address,
        JS.units (getBalance address this')
        = JS.units (getBalance address this)
          + Ledger.net address sealedTransactions)
  /\ difficulty this' = difficulty this
  /\ miningReward this' = miningReward this.
Proof.
  intros Hret.
  apply minePendingTransactions_Return in Hret
    as (latest & block & _ & _ & Htxs & _ & ->).
  cbn zeta. cbn [chain pendingTransactions difficulty miningReward balances].
  split; [by exists block|]. split; [done|]. split; [done|]. split; [|done].
  intros Hexact address. by apply balanceOf_fold.
Qed.

Lemma minePendingTransactions_settles_pool_witness :
  JS.units (getBalance "alice" OverspendRun.sealed)
  = JS.units (getBalance "alice" OverspendRun.submitted)
    + Ledger.net "alice"
        (pendingTransactions OverspendRun.submitted
           ++ [Transaction.new "3c5e11dc057071e2b0cf6128e6e96235" 1700000026400
                 None "bob" (miningReward OverspendRun.submitted)]).
Proof.
  destruct (minePendingTransactions_settles_pool 0
              "3c5e11dc057071e2b0cf6128e6e96235" 1700000026400 1700000026407
              "bob" OverspendRun.submitted OverspendRun.sealed)
    as (_ & _ & _ & Hbalances & _).
  - vm_compute. reflexivity.
  - apply Hbalances. vm_compute. reflexivity.
Defined.

(** X9: in every reachable state the ledger is the transactions of the
    blocks after the genesis block applied in order to the empty map:
    neither the genesis transaction nor a pending transaction has a part in
    it.  Where none of these updates rounded, the balance of every address
    is exactly what it received less what it sent. *)
Theorem balance_is_settled_sum (this : Blockchain.t) :
  reachable this ->
  balances this = fold_left Ledger.applyTransaction (settled this) ∅
  /\ (exactLedger this = true ->
      forall address,
        JS.units (getBalance address this) = Ledger.net address (settled this)).
Proof.
  intros Hreach.
  destruct (reachable_invariant _ Hreach)
    as (_ & _ & _ & genesis & rest & Hchain & _ & _ & Hledger).
  assert (Hsettled : balances this
                     = fold_left Ledger.applyTransaction (settled this) ∅).
  { unfold settled. by rewrite Hchain. }
  split; [done|]. intros Hexact address.
  unfold getBalance. rewrite Hsettled.
  fold (Ledger.balanceOf
          (fold_left Ledger.applyTransaction (settled this) ∅) address).
  by rewrite (balanceOf_fold _ _ _ Hexact).
Qed.

Lemma balance_is_settled_sum_witness :
  getBalance "bob" TransferRun.sealed = 14%number
  /\ Ledger.net "bob" (settled TransferRun.sealed) = JS.units 14.
Proof.
  split; [reflexivity|].
  destruct (balance_is_settled_sum TransferRun.sealed transfer_run_reachable)
    as [_ Hnet].
  rewrite <- (Hnet eq_refl "bob"). reflexivity.
Defined.

(** X10: the pool is admitted against the sealed balance only.  Two
    transfers from one sender, each within the sender's balance, are both
    admitted whatever their sum; once a block with them is mined by someone
    else the sender's balance is the old one less the first amount and then
    less the second, as [getBalance] reads it; where neither subtraction
    rounds it is exactly the old balance less both amounts, below zero when
    their sum exceeds it. *)
Theorem overspend_is_admitted (this : Blockchain.t)
    (sender : string) (first second : Transaction.t) :
  pendingTransactions this = [] ->
  Transaction.fromAddress first = Some sender ->
  Transaction.fromAddress second = Some sender ->
  Transaction.isValid first = true ->
  Transaction.isValid second = true ->
  (Transaction.amount first <=? getBalance sender this)%number = true ->
  (Transaction.amount second <=? getBalance sender this)%number = true ->
  exists submitted,
    (createTransaction first;; createTransaction second) this = Return tt submitted
    /\ pendingTransactions submitted = [first; second]
    /\ forall (fuel : nat) rewardId rewardTime blockTime miner this',
         miner <> sender ->
         minePendingTransactions fuel rewardId rewardTime blockTime miner submitted
           = Return tt this' ->
         getBalance sender this'
         = JS.or_zero
             (JS.or_zero (getBalance sender this - Transaction.amount first)
              - Transaction.amount second)%number
         /\ (Ledger.exactly
               (getBalance sender this - Transaction.amount first)%number
               (JS.units (getBalance sender this)
                - JS.units (Transaction.amount first)) = true ->
             Ledger.exactly
               (JS.or_zero (getBalance sender this - Transaction.amount first)
                - Transaction.amount second)%number
               (JS.units (getBalance sender this)
                - JS.units (Transaction.amount first)
                - JS.units (Transaction.amount second)) = true ->
             JS.units (getBalance sender this')
             = JS.units (getBalance sender this)
               - JS.units (Transaction.amount first)
               - JS.units (Transaction.amount second)
             /\ (JS.units (getBalance sender this)
                 < JS.units (Transaction.amount first)
                   + JS.units (Transaction.amount second) ->
                 (getBalance sender this' <? 0)%number = true)).
Proof.
  intros Hpool Hfrom1 Hfrom2 Hvalid1 Hvalid2 Hfunds1 Hfunds2.
  exists (with_pendingTransactions [first; second] this).
  assert (Hrun : (createTransaction first;; createTransaction second) this
                 = Return tt (with_pendingTransactions [first; second] this)).
  { unfold createTransaction. run_method.
    rewrite Hvalid1, Hvalid2, Hfrom1, Hfrom2. simpl.
    apply leb_not_ltb in Hfunds1, Hfunds2.
    unfold getBalance in *. rewrite Hfunds1.
    cbn [balances with_pendingTransactions]. rewrite Hfunds2.
    cbn [pendingTransactions with_pendingTransactions]. by rewrite Hpool. }
  split; [done|]. split; [done|].
  intros fuel rewardId rewardTime blockTime miner this' Hminer Hret.
  apply minePendingTransactions_Return in Hret
    as (latest & block & _ & _ & _ & _ & ->).
  match goal with
  | |- getBalance sender ?final = ?value /\ _ =>
      assert (Hbalance : getBalance sender final = value)
  end.
  { clear Hrun.
    unfold getBalance. cbn [balances with_pendingTransactions pendingTransactions
                            miningReward].
    destruct (isValid_sender _ _ Hvalid1 Hfrom1) as [Htruthy _].
    assert (Hto : forall transaction,
      Transaction.isValid transaction = true ->
      Transaction.fromAddress transaction = Some sender ->
      String.eqb (Transaction.toAddress transaction) sender = false).
    { intros transaction Hvalid Hfrom.
      unfold Transaction.isValid in Hvalid. rewrite Hfrom in Hvalid.
      destruct (String.eqb_spec (Transaction.toAddress transaction) sender) as [Heq|];
        [|done].
      destruct (Transaction.amount transaction <=? 0)%number; [done|].
      destruct (negb (JS.truthy sender) || negb (JS.truthy (Transaction.toAddress transaction)));
        [done|].
      rewrite Heq, String.eqb_refl in Hvalid. done. }
    pose proof (Hto first Hvalid1 Hfrom1) as Hto1.
    pose proof (Hto second Hvalid2 Hfrom2) as Hto2.
    apply String.eqb_neq in Hminer.
    cbn [app fold_left]. unfold Ledger.applyTransaction at 1 2 3.
    rewrite Hfrom1, Hfrom2, Htruthy. cbn [Transaction.fromAddress Transaction.new
      Transaction.toAddress Transaction.amount].
    repeat match goal with
    | |- context [JS.number_or (?m !! ?k) 0] =>
        change (JS.number_or (m !! k) 0) with (Ledger.balanceOf m k)
    end.
    rewrite !balanceOf_insert, Hminer, Hto1, Hto2, !String.eqb_refl.
    reflexivity. }
  rewrite Hbalance. split; [done|]. intros _ [_ Hexact]%exactly_true.
  rewrite units_or_zero. split; [done|].
  intros Hbelow. apply units_negative. rewrite units_or_zero. lia.
Qed.

Lemma overspend_is_admitted_witness :
  getBalance "alice" TransferRun.firstMined = 10%number
  /\ getBalance "alice" OverspendRun.sealed = (-10)%number
  /\ (getBalance "alice" OverspendRun.sealed <? 0)%number = true.
Proof.
  split; [reflexivity|].
  destruct (overspend_is_admitted TransferRun.firstMined "alice"
              OverspendRun.toBob OverspendRun.toCarol)
    as (submitted & Hrun & _ & Hafter).
  - reflexivity.
  - reflexivity.
  - reflexivity.
  - reflexivity.
  - reflexivity.
  - reflexivity.
  - reflexivity.
  - injection Hrun as <-.
    destruct (Hafter 0%nat "3c5e11dc057071e2b0cf6128e6e96235" 1700000026400
                1700000026407 "bob" OverspendRun.sealed)
      as [Hbalance Hexact]; [discriminate | vm_compute; reflexivity |].
    split; [rewrite Hbalance; reflexivity|].
    apply Hexact; [reflexivity | reflexivity | vm_compute; reflexivity].
Defined.

End PoolAndLedger.

(** ** The chain only grows *)

Section AppendOnly.
Import Blockchain.
Local Open Scope Z_scope.

Lemma step_appends (this this' : Blockchain.t) :
  step this this' ->
  difficulty this' = difficulty this
  /\ miningReward this' = miningReward this
  /\ ((chain this' = chain this /\ balances this' = balances this)
      \/ exists block, chain this' = chain this ++ [block]).
Proof.
  intros [this0 transaction this0' Hfinal
         |this0 fuel rewardId rewardTime blockTime address this0' Hret].
  - apply createTransaction_final in Hfinal as [->|[_ ->]]; repeat split; by left.
  - apply minePendingTransactions_Return in Hret
      as (latest & block & _ & _ & _ & _ & ->).
    repeat split. right. by exists block.
Qed.

(** X11: whatever calls follow, the blocks already in the chain stay as they
    are and where they are, difficulty and mining reward keep their values,
    and the balances change only when a block is appended. *)
Theorem chain_is_append_only (this this' : Blockchain.t) :
  rtc step this this' ->
  chain this `prefix_of` chain this'
  /\ difficulty this' = difficulty this
  /\ miningReward this' = miningReward this
  /\ (length (chain this') = length (chain this) ->
      balances this' = balances this).
Proof.
  intros Hsteps. revert this' Hsteps. apply rtc_ind_r; [done|].
  intros middle final Hsteps Hstep IH.
  - destruct IH as (Hprefix & Hdiff & Hreward & Hbalances).
    destruct (step_appends _ _ Hstep) as (Hdiff' & Hreward' & Hgrow).
    pose proof (prefix_length _ _ Hprefix) as Hlen.
    split; [|split; [congruence|split; [congruence|]]].
    + destruct Hgrow as [[-> _]|[block ->]]; [done|].
      by apply prefix_app_r.
    + intros Hsame. destruct Hgrow as [[Hchain ->]|[block Hchain]].
      * apply Hbalances. by rewrite <- Hchain.
      * rewrite Hchain, length_app in Hsame. simpl in Hsame. lia.
Qed.

Lemma chain_is_append_only_witness :
  chain Run.fresh `prefix_of` chain Run.sealed
  /\ difficulty Run.sealed = difficulty Run.fresh.
Proof.
  destruct (chain_is_append_only Run.fresh Run.sealed) as (Hprefix & Hdiff & _).
  - apply (rtc_l _ _ Run.submitted).
    { exact (step_createTransaction Run.fresh Run.toAlice Run.submitted eq_refl). }
    apply rtc_once.
    exact (step_minePendingTransactions Run.submitted 2
             "2aabfe228f219e9cb0eb53f16947ccf2" 1700000006000 1700000006046
             "alice" Run.sealed run_mined).
  - split; [exact Hprefix | exact Hdiff].
Defined.

Lemma count_transactions (blocks : list TransactionBlock.t) : forall sum : Z,
  Forall (fun block => TransactionBlock.transactions block <> []) blocks ->
  sum + Z.of_nat (length blocks)
  <= fold_left
       (fun sum block => sum + Z.of_nat (length (TransactionBlock.transactions block)))
       blocks sum.
Proof.
  induction blocks as [|block rest IH]; intros sum Hne; simpl; [lia|].
  inversion Hne as [|? ? Hblock Hrest]; subst.
  specialize (IH (sum + Z.of_nat (length (TransactionBlock.transactions block))) Hrest).
  destruct (TransactionBlock.transactions block); [done|]. simpl in *. lia.
Qed.

(** X12: in every reachable state [getStats] reports difficulty 3 and
    mining reward 10, at least one block, and at least as many transactions
    as blocks. *)
Theorem getStats_reachable (this : Blockchain.t) :
  reachable this ->
  Stats.difficulty (getStats this) = 3%nat
  /\ Stats.miningReward (getStats this) = 10%number
  /\ 1 <= Stats.totalBlocks (getStats this)
       <= Stats.totalTransactions (getStats this).
Proof.
  intros Hreach.
  destruct (reachable_invariant _ Hreach)
    as (Hdiff & Hreward & _ & genesis & rest & Hchain & _).
  pose proof (reachable_chainWellFormed _ Hreach) as Hshape.
  split; [done|]. split; [done|]. cbn [getStats Stats.totalBlocks Stats.totalTransactions].
  split; [rewrite Hchain; simpl; lia|].
  apply (count_transactions (chain this) 0).
  apply Forall_lookup. intros i block Hat.
  by destruct (chainWellFormed_lookup _ 0 "0" i block Hshape Hat)
    as (_ & _ & _ & _ & _ & Hne & _).
Qed.

Lemma getStats_reachable_witness :
  Stats.totalBlocks (getStats TransferRun.sealed) = 3
  /\ 3 <= Stats.totalTransactions (getStats TransferRun.sealed).
Proof.
  split; [reflexivity|].
  destruct (getStats_reachable TransferRun.sealed transfer_run_reachable)
    as (_ & _ & _ & Hcount).
  exact Hcount.
Defined.

End AppendOnly.

(** ** Merkle roots, further *)

Section MerkleMore.
Import CryptoUtils MerkleSpec.

Lemma reduceLevels_fuel (fuel1 : nat) : forall (fuel2 : nat) (level : list string),
  (0 < length level <= fuel1)%nat -> (length level <= fuel2)%nat ->
  reduceLevels fuel1 level = reduceLevels fuel2 level.
Proof.
  induction fuel1 as [|fuel1 IH]; intros fuel2 level Hlen1 Hlen2; [lia|].
  destruct fuel2 as [|fuel2]; [lia|]. simpl.
  destruct (Nat.ltb_spec 1 (length level)) as [Hmore|Hone]; [|done].
  rewrite pairLevel_pairsOf by lia. simpl. rewrite drop_0.
  pose proof (div2_S_lt _ Hmore) as Hdiv.
  apply IH; rewrite pairsOf_length; lia.
Qed.

Lemma pairsOf_app_even (n : nat) : forall (ids rest : list string),
  length ids = (2 * n)%nat -> pairsOf (ids ++ rest) = pairsOf ids ++ pairsOf rest.
Proof.
  induction n as [|n IH]; intros ids rest Hlen.
  - by destruct ids.
  - destruct ids as [|a [|b ids]]; simpl in Hlen; try lia.
    simpl. f_equal. apply IH. lia.
Qed.

Lemma reduceLevels_step (fuel : nat) (level : list string) :
  (1 < length level <= fuel)%nat ->
  reduceLevels fuel level
  = reduceLevels (length (pairsOf level)) (pairsOf level).
Proof.
  intros Hlen. destruct fuel as [|fuel]; [lia|]. simpl.
  destruct (Nat.ltb_spec 1 (length level)); [|lia].
  rewrite pairLevel_pairsOf by lia. simpl. rewrite drop_0.
  pose proof (div2_S_lt (length level)) as Hdiv.
  apply reduceLevels_fuel; rewrite ?pairsOf_length; lia.
Qed.

Lemma calculateMerkleRoot_step (ids : list string) :
  (2 <= length ids)%nat ->
  calculateMerkleRoot ids
  = match reduceLevels (length (pairsOf ids)) (pairsOf ids) with
    | root :: _ => root
    | [] => ""
    end.
Proof.
  intros Hlen. unfold calculateMerkleRoot.
  destruct ids as [|a [|b ids]]; simpl in Hlen; try lia.
  rewrite reduceLevels_step; [done | simpl; lia].
Qed.

Lemma calculateMerkleRoot_pairs (ids1 ids2 : list string) :
  (2 <= length ids1)%nat -> (2 <= length ids2)%nat ->
  pairsOf ids1 = pairsOf ids2 ->
  calculateMerkleRoot ids1 = calculateMerkleRoot ids2.
Proof.
  intros Hlen1 Hlen2 Hpairs.
  by rewrite (calculateMerkleRoot_step ids1 Hlen1),
             (calculateMerkleRoot_step ids2 Hlen2), Hpairs.
Qed.

Lemma pairsOf_digests (level : list string) :
  Forall (fun id => String.length id = 64%nat) (pairsOf level).
Proof.
  revert level. fix IH 1. intros [|a [|b rest]]; simpl.
  - constructor.
  - constructor; [apply calculateHash_length | constructor].
  - constructor; [apply calculateHash_length | apply IH].
Qed.

Lemma reduceLevels_digests (fuel : nat) : forall level : list string,
  Forall (fun id => String.length id = 64%nat) level ->
  Forall (fun id => String.length id = 64%nat) (reduceLevels fuel level).
Proof.
  induction fuel as [|fuel IH]; intros level Hlevel; simpl; [done|].
  destruct (1 <? length level)%nat; [|done]. apply IH.
  rewrite pairLevel_pairsOf by lia. simpl. rewrite drop_0. apply pairsOf_digests.
Qed.

(** X13: different lists of identifiers can have one Merkle root.  After an
    even number of identifiers (at least two), a last identifier alone and
    the same identifier twice give the same root, because the last element
    of an odd level is paired with itself. *)
Theorem merkle_root_of_repeated_last (ids : list string) (last : string) (n : nat) :
  length ids = (2 * n)%nat -> (1 <= n)%nat ->
  calculateMerkleRoot (ids ++ [last]) = calculateMerkleRoot (ids ++ [last; last]).
Proof.
  intros Hlen Hn.
  apply calculateMerkleRoot_pairs; rewrite ?length_app; simpl; try lia.
  rewrite !(pairsOf_app_even n) by done. f_equal. simpl.
  by destruct (JS.truthy last).
Qed.

Lemma merkle_root_of_repeated_last_witness :
  calculateMerkleRoot ["a"; "b"; "c"] = calculateMerkleRoot ["a"; "b"; "c"; "c"].
Proof.
  apply (merkle_root_of_repeated_last ["a"; "b"] "c" 1); [reflexivity | lia].
Defined.

(** X14: for identifiers none of which is the empty string, the root that
    [calculateMerkleRoot] returns is the one obtained by hashing adjacent
    pairs level by level, the last element of an odd level with itself,
    until one value is left; from two identifiers on it is a digest of 64
    characters. *)
Theorem calculateMerkleRoot_refines_spec (ids : list string) :
  Forall (fun id => id <> "") ids ->
  isMerkleRoot ids (calculateMerkleRoot ids)
  /\ ((2 <= length ids)%nat -> String.length (calculateMerkleRoot ids) = 64%nat).
Proof.
  intros Hne. split; [by apply calculateMerkleRoot_isMerkleRoot|].
  intros Hlen. rewrite calculateMerkleRoot_step by done.
  pose proof (div2_S_lt (length ids)) as Hdiv.
  destruct (reduceLevels_one (length (pairsOf ids)) (pairsOf ids)) as [root Hroot];
    [rewrite pairsOf_length; lia|].
  pose proof (reduceLevels_digests (length (pairsOf ids)) _ (pairsOf_digests ids))
    as Hdigests.
  rewrite Hroot in Hdigests |- *. by inversion Hdigests.
Qed.

Lemma calculateMerkleRoot_refines_spec_witness :
  isMerkleRoot ["36b3216fdaeeb975729fae923d5a4fd1"; "2aabfe228f219e9cb0eb53f16947ccf2"]
    (calculateMerkleRoot
       ["36b3216fdaeeb975729fae923d5a4fd1"; "2aabfe228f219e9cb0eb53f16947ccf2"]).
Proof.
  apply calculateMerkleRoot_refines_spec.
  repeat constructor; discriminate.
Defined.

End MerkleMore.

(** ** The hash of a transaction *)

Section TransactionHash.

Lemma append_assoc (s1 s2 s3 : string) : (s1 +:+ s2) +:+ s3 = s1 +:+ (s2 +:+ s3).
Proof.
  induction s1 as [|c s1 IH]; [done|].
  change (String c ((s1 +:+ s2) +:+ s3) = String c (s1 +:+ (s2 +:+ s3))).
  by rewrite IH.
Qed.

Lemma string_or_empty (s : string) : JS.string_or (Some s) "" = s.
Proof. unfold JS.string_or, JS.truthy. by destruct (String.eqb_spec s ""). Qed.

(** X15: [Transaction.calculateHash] hashes the sender, the recipient, the
    amount and the timestamp written one after the other, with nothing
    between them and the empty string for a missing sender.  Transactions
    that cut the same characters differently between sender and recipient
    have the same hash, and so have a transaction without sender and a
    transfer whose two addresses spell its recipient. *)
Theorem transaction_hash_is_ambiguous
    (id1 id2 x y z : string) (amount : JS.number) (timestamp : Z) :
  Transaction.calculateHash (Transaction.mk id1 (Some (x +:+ y)) z amount timestamp)
  = Transaction.calculateHash (Transaction.mk id2 (Some x) (y +:+ z) amount timestamp)
  /\ Transaction.calculateHash (Transaction.mk id1 None (x +:+ y) amount timestamp)
     = Transaction.calculateHash (Transaction.mk id2 (Some x) y amount timestamp).
Proof.
  unfold Transaction.calculateHash. simpl Transaction.fromAddress.
  cbn [Transaction.toAddress Transaction.amount Transaction.timestamp].
  rewrite !string_or_empty. split.
  - by rewrite !append_assoc.
  - simpl JS.string_or. by rewrite !append_assoc.
Qed.

End TransactionHash.

(** ** The proof-of-stake chain, further *)

Section Unstaking.
Import ProofOfStakeBlockchain.
Local Open Scope Z_scope.
Local Open Scope method_scope.

(** X16: [unstakeTokens] returns [false] and changes nothing for an address
    that is not a validator and for an amount above the stake.  Otherwise,
    when the test [stake < amount] fails, it returns [true] and stores the
    balance plus the amount for the address, touching no other balance, no
    other validator, the chain or the pool.  When the stake left is below
    the minimum stake the validator is removed; otherwise it stays with that
    stake, and where neither the stake left nor the credit rounds, the exact
    sum of all stakes and all balances is what it was. *)
Theorem unstakeTokens_spec (this : ProofOfStakeBlockchain.t)
    (address : string) (amount : JS.number) :
  (JSMap.get address (validators this) = None ->
   unstakeTokens address amount this = Return false this)
  /\ (forall validator,
        JSMap.get address (validators this) = Some validator ->
        (stake validator <? amount)%number = true ->
        unstakeTokens address amount this = Return false this)
  /\ (forall validator,
        JSMap.get address (validators this) = Some validator ->
        (stake validator <? amount)%number = false ->
        exists this',
          unstakeTokens address amount this = Return true this'
          /\ balances this' !! address
             = Some (getBalance address this + amount)%number
          /\ (forall other, other <> address ->
                balances this' !! other = balances this !! other
                /\ JSMap.get other (validators this')
                   = JSMap.get other (validators this))
          /\ chain this' = chain this
          /\ pendingTransactions this' = pendingTransactions this
          /\ ((stake validator - amount <? minimumStake this)%number = true ->
              JSMap.get address (validators this') = None)
          /\ ((stake validator - amount <? minimumStake this)%number = false ->
              JSMap.get address (validators this')
              = Some (with_stake (stake validator - amount)%number validator)
              /\ (Ledger.exactly (stake validator - amount)%number
                    (JS.units (stake validator) - JS.units amount) = true ->
                  Ledger.exactly (getBalance address this + amount)%number
                    (JS.units (getBalance address this) + JS.units amount) = true ->
                  stakeUnits (validators this') + totalBalance this'
                  = stakeUnits (validators this) + totalBalance this))).
Proof.
  rewrite unstakeTokens_run. split; [|split].
  - by intros ->.
  - by intros validator -> ->.
  - intros validator Hat Hguard. rewrite Hat, Hguard.
    cbn zeta. eexists. split; [reflexivity|].
    cbn [balances validators chain pendingTransactions with_balances
         with_validators].
    split; [by rewrite lookup_insert_eq|].
    split.
    { intros other Hother. split; [by rewrite lookup_insert_ne|].
      destruct (stake validator - amount <? minimumStake this)%number;
        by rewrite ?get_delete_ne, get_set_ne. }
    split; [done|]. split; [done|].
    split; [intros ->; apply get_delete_eq|].
    intros ->. split; [apply get_set_eq|].
    intros [_ Hleft]%exactly_true [_ Hcredit]%exactly_true.
    rewrite stakeUnits_set. unfold totalBalance.
    cbn [balances with_balances with_validators].
    rewrite total_insert, Hcredit, Hat. unfold getBalance.
    rewrite units_number_or. cbn [from_option stake with_stake].
    rewrite Hleft. lia.
Qed.

Lemma unstakeTokens_spec_witness :
  unstakeTokens "carol" 5 PosRun.staked = Return false PosRun.staked
  /\ unstakeTokens "bob" 41 PosRun.staked = Return false PosRun.staked
  /\ exists this',
       unstakeTokens "bob" 8 PosRun.staked = Return true this'
       /\ recordedStake "bob" this' = 32%number
       /\ balances this' !! "bob" = Some 48%number.
Proof.
  destruct (unstakeTokens_spec PosRun.staked "carol" 5) as (Hnone & _ & _).
  destruct (unstakeTokens_spec PosRun.staked "bob" 41) as (_ & Hlow & _).
  destruct (unstakeTokens_spec PosRun.staked "bob" 8) as (_ & _ & Hok).
  split; [by apply Hnone|]. split.
  - apply (Hlow {| address := "bob"; stake := 40; isActive := true;
                   joinedAt := 1700000002000 |}); reflexivity.
  - destruct (Hok {| address := "bob"; stake := 40; isActive := true;
                     joinedAt := 1700000002000 |})
      as (this' & Hrun & Hbalance & _ & _ & _ & _ & Hkept); [reflexivity..|].
    exists this'. split; [exact Hrun|].
    destruct Hkept as [Hat _]; [reflexivity|].
    unfold recordedStake. rewrite Hat. split; [reflexivity | exact Hbalance].
Defined.

End Unstaking.

Section StakeAccounting.
Import ProofOfStakeBlockchain.
Local Open Scope Z_scope.
Local Open Scope method_scope.

(** X17: staking neither creates nor destroys tokens where the arithmetic
    is exact: after a call of [stakeTokens] that returns [true], in which
    neither the debit of the balance nor the addition to a stake already
    recorded rounds, the exact sum of all stakes and all balances is what it
    was before. *)
Theorem stakeTokens_conserves_tokens (this this' : ProofOfStakeBlockchain.t)
    (now : Z) (address : string) (amount : JS.number) :
  stakeTokens now address amount this = Return true this' ->
  Ledger.exactly (getBalance address this - amount)%number
    (JS.units (getBalance address this) - JS.units amount) = true ->
  (forall existing,
     JSMap.get address (validators this) = Some existing ->
     Ledger.exactly (stake existing + amount)%number
       (JS.units (stake existing) + JS.units amount) = true) ->
  stakeUnits (validators this') + totalBalance this'
  = stakeUnits (validators this) + totalBalance this.
Proof.
  rewrite stakeTokens_run. destruct (_ || _); [discriminate|]. intros [= <-].
  intros [_ Hdebit]%exactly_true Hadded.
  unfold totalBalance. cbn [validators balances with_validators with_balances].
  rewrite stakeUnits_set, total_insert, Hdebit.
  unfold getBalance. rewrite units_number_or.
  destruct (JSMap.get address (validators this)) as [existing|];
    cbn [from_option stake with_stake]; [|lia].
  destruct (exactly_true _ _ (Hadded existing eq_refl)) as [_ ->]. lia.
Qed.

Lemma stakeTokens_conserves_tokens_witness :
  stakeUnits (validators PosRun.staked) + totalBalance PosRun.staked
  = stakeUnits (validators PosRun.funded) + totalBalance PosRun.funded.
Proof.
  apply (stakeTokens_conserves_tokens PosRun.funded PosRun.staked
           1700000002000 "bob" 40 posrun_staked).
  - reflexivity.
  - intros existing Hat. discriminate Hat.
Defined.

(** A finite number less itself is zero. *)
Lemma sub_diag (x : JS.number) : JS.finite x = true -> (x - x)%number = 0%number.
Proof.
  destruct x as [[]|[]| |s m e]; try done. intros _.
  unfold JS.sub, SFsub. by rewrite Z.sub_diag.
Qed.

(** X18: an address that is not a validator stakes a finite amount and
    takes it back.  Both calls return [true], the registry is again what it
    was (the minimum stake being above zero, the validator is removed), and
    the balance stored is the old one less the amount and plus the amount,
    as the program computes it; where these two operations do not round, it
    has its old value. *)
Theorem stake_then_unstake (this : ProofOfStakeBlockchain.t)
    (now : Z) (address : string) (amount : JS.number) :
  JSMap.get address (validators this) = None ->
  (getBalance address this <? amount)%number = false ->
  (amount <? minimumStake this)%number = false ->
  JS.finite amount = true ->
  (0 <? minimumStake this)%number = true ->
  exists this',
    (stakeTokens now address amount;; unstakeTokens address amount) this
    = Return true this'
    /\ validators this' = validators this
    /\ balances this'
       = <[address := (JS.or_zero (getBalance address this - amount) + amount)%number]>
           (balances this)
    /\ chain this' = chain this
    /\ pendingTransactions this' = pendingTransactions this
    /\ (Ledger.exactly (getBalance address this - amount)%number
          (JS.units (getBalance address this) - JS.units amount) = true ->
        Ledger.exactly
          (JS.or_zero (getBalance address this - amount) + amount)%number
          (JS.units (JS.or_zero (getBalance address this - amount))
           + JS.units amount) = true ->
        JS.units (getBalance address this') = JS.units (getBalance address this)).
Proof.
  intros Hnew Hfunds Hmin Hfinite Hpositive.
  unfold bind at 1. rewrite stakeTokens_run, Hfunds, Hmin, Hnew. cbn [orb].
  rewrite unstakeTokens_run. cbn [validators with_validators with_balances].
  rewrite get_set_eq. cbn [stake]. rewrite ltb_irrefl. cbn zeta.
  rewrite (sub_diag _ Hfinite). cbn [minimumStake with_validators with_balances].
  rewrite Hpositive.
  eexists. split; [reflexivity|].
  cbn [validators balances chain pendingTransactions with_validators
       with_balances].
  split.
  { rewrite delete_set by (rewrite get_set_eq; discriminate).
    by apply delete_set_absent. }
  assert (Hread : getBalance address
            (with_validators
               (JSMap.set address
                  {| address := address; stake := amount; isActive := true;
                     joinedAt := now |} (validators this))
               (with_balances
                  (<[address := (getBalance address this - amount)%number]>
                     (balances this)) this))
          = JS.or_zero (getBalance address this - amount)%number).
  { unfold getBalance at 1. cbn [balances with_validators with_balances].
    by rewrite lookup_insert_eq. }
  rewrite Hread. split; [by rewrite insert_insert_eq|].
  split; [done|]. split; [done|].
  intros [_ Hdebit]%exactly_true [_ Hcredit]%exactly_true.
  unfold getBalance at 1. cbn [balances with_balances with_validators].
  rewrite lookup_insert_eq, units_number_or. cbn [from_option].
  rewrite Hcredit, units_or_zero, Hdebit. lia.
Qed.

Lemma stake_then_unstake_witness :
  exists this',
    (stakeTokens 1700000002000 "bob" 40;; unstakeTokens "bob" 40) PosRun.funded
    = Return true this'
    /\ validators this' = validators PosRun.funded
    /\ balances this' !! "bob" = Some 80%number.
Proof.
  destruct (stake_then_unstake PosRun.funded 1700000002000 "bob" 40)
    as (this' & Hrun & Hvalidators & Hbalances & _); [reflexivity..|].
  exists this'. split; [exact Hrun|]. split; [exact Hvalidators|].
  rewrite Hbalances. reflexivity.
Defined.

(** X19: [unstakeTokens] does not ask for a positive amount.  For a
    validator whose stake is not negative, an amount below zero passes the
    test [stake < amount]; when the stake less the amount is not below the
    minimum stake, the validator stays with that stake, which is the old one
    grown by the size of the amount, and the balance stored is the old one
    plus the amount, lowered by its size with no check against the balance:
    the balance reads below zero when that sum is, which where the addition
    does not round is when the size of the amount exceeds the old balance. *)
Theorem unstakeTokens_negative_amount (this : ProofOfStakeBlockchain.t)
    (address : string) (amount : JS.number) validator :
  JSMap.get address (validators this) = Some validator ->
  (0 <=? stake validator)%number = true ->
  (amount <? 0)%number = true ->
  (stake validator - amount <? minimumStake this)%number = false ->
  exists this',
    unstakeTokens address amount this = Return true this'
    /\ recordedStake address this' = (stake validator - amount)%number
    /\ balances this' !! address = Some (getBalance address this + amount)%number
    /\ getBalance address this'
       = JS.or_zero (getBalance address this + amount)%number
    /\ ((getBalance address this + amount <? 0)%number = true ->
        getBalance address this' = (getBalance address this + amount)%number
        /\ (getBalance address this' <? 0)%number = true)
    /\ (Ledger.exactly (getBalance address this + amount)%number
          (JS.units (getBalance address this) + JS.units amount) = true ->
        JS.units (getBalance address this) < - JS.units amount ->
        JS.units (getBalance address this')
        = JS.units (getBalance address this) + JS.units amount
        /\ (getBalance address this' <? 0)%number = true).
Proof.
  intros Hat Hstake Hnegative Hkept.
  rewrite unstakeTokens_run, Hat, (ltb_negative _ _ Hnegative Hstake).
  cbn zeta. rewrite Hkept. eexists. split; [reflexivity|].
  set (after := with_balances _ _).
  assert (Hbalance : getBalance address after
                     = JS.or_zero (getBalance address this + amount)%number).
  { unfold after, getBalance at 1. cbn [balances with_balances].
    by rewrite lookup_insert_eq. }
  rewrite Hbalance. unfold after, recordedStake.
  cbn [validators balances with_validators with_balances].
  rewrite get_set_eq, lookup_insert_eq.
  split; [done|]. split; [done|]. split; [done|]. split.
  - intros Hbelow. by rewrite (or_zero_negative _ Hbelow).
  - intros [_ Hexact]%exactly_true Hbelow.
    assert (Hunits : JS.units (JS.or_zero (getBalance address this + amount)%number)
                     = JS.units (getBalance address this) + JS.units amount)
      by (by rewrite units_or_zero).
    split; [done|]. apply units_negative. lia.
Qed.

Lemma unstakeTokens_negative_amount_witness :
  exists this',
    unstakeTokens "bob" (-100) PosRun.staked = Return true this'
    /\ recordedStake "bob" this' = 140%number
    /\ getBalance "bob" this' = (-60)%number
    /\ (getBalance "bob" this' <? 0)%number = true.
Proof.
  destruct (unstakeTokens_negative_amount PosRun.staked "bob" (-100)
              {| address := "bob"; stake := 40; isActive := true;
                 joinedAt := 1700000002000 |})
    as (this' & Hrun & Hstake & _ & Hbalance & Hbelow & _); [reflexivity..|].
  exists this'. split; [exact Hrun|]. split; [exact Hstake|].
  split; [rewrite Hbalance; reflexivity|].
  apply Hbelow. reflexivity.
Defined.

End StakeAccounting.

(** ** Selecting a validator and forging a block *)

Section Forging.
Import ProofOfStakeBlockchain.
Local Open Scope Z_scope.
Local Open Scope method_scope.

Lemma walkValidators_In (activeValidators : list IValidator) :
  forall randomTarget currentSum selected,
    walkValidators randomTarget currentSum activeValidators = Some selected ->
    exists validator, In validator activeValidators /\ address validator = selected.
Proof.
  induction activeValidators as [|validator rest IH];
    intros randomTarget currentSum selected; simpl; [discriminate|].
  destruct (_ <=? _)%number.
  - intros [= <-]. exists validator. by split; [left|].
  - intros Hrest. apply IH in Hrest as (found & Hin & Haddress).
    exists found. by split; [right|].
Qed.

Lemma validatorValues_In (this : ProofOfStakeBlockchain.t) validator :
  In validator (validatorValues this)
  <-> exists key, In (key, validator) (validators this).
Proof.
  unfold validatorValues, JSMap.values. rewrite in_map_iff. split.
  - intros ([key found] & <- & Hin). by exists key.
  - intros [key Hin]. by exists (key, validator).
Qed.

Lemma selectValidator_registry (random : JS.number)
    (this : ProofOfStakeBlockchain.t) :
  (selectValidator random this = None
   <-> forall key validator,
         In (key, validator) (validators this) -> isActive validator = false)
  /\ forall selected,
       selectValidator random this = Some selected ->
       exists key validator,
         In (key, validator) (validators this)
         /\ isActive validator = true
         /\ address validator = selected.
Proof.
  unfold selectValidator.
  destruct (List.filter isActive (validatorValues this))
    as [|first rest] eqn:Hactive.
  - split.
    + split; [|done]. intros _ key validator Hat.
      destruct (isActive validator) eqn:Hflag; [|done].
      assert (Hin : In validator (List.filter isActive (validatorValues this))).
      { apply filter_In. split; [|done]. apply validatorValues_In. by exists key. }
      by rewrite Hactive in Hin.
    + discriminate.
  - assert (Hmember : forall validator,
      In validator (first :: rest) ->
      exists key, In (key, validator) (validators this)
                  /\ isActive validator = true).
    { intros validator Hin. rewrite <- Hactive in Hin.
      apply filter_In in Hin as [Hin Hflag].
      apply validatorValues_In in Hin as [key Hat]. by exists key. }
    split.
    + split.
      * by destruct (walkValidators _ _ _).
      * intros Hnone. destruct (Hmember first) as (key & Hat & Hflag); [by left|].
        by rewrite (Hnone key first Hat) in Hflag.
    + intros selected Hselected.
      destruct (walkValidators _ 0 (first :: rest)) as [found|] eqn:Hwalk.
      * injection Hselected as <-.
        apply walkValidators_In in Hwalk as (validator & Hin & Haddress).
        destruct (Hmember validator Hin) as (key & Hat & Hflag).
        by exists key, validator.
      * injection Hselected as <-.
        destruct (Hmember first) as (key & Hat & Hflag); [by left|].
        by exists key, first.
Qed.

(** X20: [selectValidator] returns nothing exactly when the registry holds
    no active validator; what it returns otherwise is the address recorded in
    an active validator that is an entry of the registry, whatever the random
    draw; in a registry in which no key stands twice, as in every reachable
    state, both hold of the validators that a lookup by key gives. *)
Theorem selectValidator_spec (random : JS.number)
    (this : ProofOfStakeBlockchain.t) :
  (selectValidator random this = None
   <-> forall key validator,
         In (key, validator) (validators this) -> isActive validator = false)
  /\ (forall selected,
        selectValidator random this = Some selected ->
        exists key validator,
          In (key, validator) (validators this)
          /\ isActive validator = true
          /\ address validator = selected)
  /\ (JSMap.wf (validators this) ->
      (selectValidator random this = None
       <-> forall key validator,
             JSMap.get key (validators this) = Some validator ->
             isActive validator = false)
      /\ forall selected,
           selectValidator random this = Some selected ->
           exists key validator,
             JSMap.get key (validators this) = Some validator
             /\ isActive validator = true
             /\ address validator = selected).
Proof.
  destruct (selectValidator_registry random this) as [Hnone Hsome].
  split; [done|]. split; [done|].
  intros Hwf. split.
  - rewrite Hnone. split.
    + intros Hall key validator Hat. apply (Hall key). by apply get_Some_In.
    + intros Hall key validator Hin. apply (Hall key). by apply In_get_Some.
  - intros selected Hselected.
    destruct (Hsome selected Hselected) as (key & validator & Hin & Hflag & Haddress).
    exists key, validator. split; [by apply In_get_Some | done].
Qed.

Lemma selectValidator_spec_witness :
  exists key validator,
    JSMap.get key (validators PosRun.staked) = Some validator
    /\ isActive validator = true
    /\ address validator = "bob".
Proof.
  destruct (selectValidator_spec 0.5 PosRun.staked) as (_ & _ & Hsome).
  destruct (Hsome (NoDup_singleton "bob")) as [_ Hfound].
  by apply Hfound.
Defined.

(** What a call of [forgeBlock] does, case by case. *)
Lemma forgeBlock_run (this : ProofOfStakeBlockchain.t)
    random rewardId rewardTime blockTime :
  forgeBlock random rewardId rewardTime blockTime this
  = match selectValidator random this with
    | None => Return false this
    | Some selected =>
        if negb (JS.truthy selected) then Return false this
        else
          let pool :=
            pendingTransactions this
              ++ [Transaction.new rewardId rewardTime None selected (blockReward this)] in
          match JSMap.get selected (validators this), getLatestBlock this with
          | Some validator, Some latest =>
              Return true
                {| chain :=
                     chain this
                       ++ [PosBlock.new blockTime (Z.of_nat (length (chain this)))
                             pool (PosBlock.hash latest) selected (stake validator)];
                   pendingTransactions := [];
                   validators := validators this;
                   balances := fold_left Ledger.applyTransaction pool (balances this);
                   minimumStake := minimumStake this;
                   blockReward := blockReward this |}
          | _, _ =>
              Throw "TypeError: Cannot read properties of undefined"
                (with_pendingTransactions pool this)
          end
    end.
Proof.
  unfold forgeBlock. run_method.
  destruct (selectValidator random this) as [selected|]; [|done].
  destruct (JS.truthy selected); [|done]. cbn [negb].
  unfold getLatestBlock. cbn [chain with_pendingTransactions pendingTransactions].
  destruct (JSMap.get selected (validators this)) as [validator|]; [|done].
  by destruct (chain this !! (length (chain this) - 1)%nat).
Qed.

Lemma pos_lastHash_lookup previous (blocks : list PosBlock.t) latest :
  blocks !! (length blocks - 1)%nat = Some latest ->
  lastHash previous blocks = PosBlock.hash latest.
Proof.
  induction blocks as [|final front _] using rev_ind; [done|].
  rewrite length_app. simpl.
  replace (length front + 1 - 1)%nat with (length front) by lia.
  rewrite list_lookup_middle by done. intros [= <-].
  unfold lastHash. by rewrite fold_left_app.
Qed.

Lemma pos_chainWellFormed_snoc (blocks : list PosBlock.t) :
  forall (i : nat) previous block,
    chainWellFormed i previous blocks ->
    blockWellFormed (i + length blocks) (lastHash previous blocks) block ->
    chainWellFormed i previous (blocks ++ [block]).
Proof.
  induction blocks as [|first rest IH]; intros i previous block Hchain Hblock; simpl.
  - simpl in Hblock. rewrite Nat.add_0_r in Hblock. done.
  - destruct Hchain as [Hfirst Hrest]. split; [done|].
    apply IH; [done|]. simpl in Hblock.
    by replace (S i + length rest)%nat with (i + S (length rest))%nat by lia.
Qed.

Lemma pos_chainWellFormed_lookup (blocks : list PosBlock.t) :
  forall (i : nat) previous (k : nat) block,
    chainWellFormed i previous blocks ->
    blocks !! k = Some block ->
    blockWellFormed (i + k)
      match k with
      | O => previous
      | S j => from_option PosBlock.hash "" (blocks !! j)
      end
      block.
Proof.
  induction blocks as [|first rest IH]; intros i previous k block Hchain Hat;
    [done|].
  destruct Hchain as [Hfirst Hrest]. destruct k as [|k]; simpl in Hat.
  - injection Hat as <-. by rewrite Nat.add_0_r.
  - specialize (IH (S i) _ k block Hrest Hat).
    replace (i + S k)%nat with (S i + k)%nat by lia.
    destruct k as [|k]; exact IH.
Qed.

Lemma pos_new_blockWellFormed (now : Z) (i : nat) transactions previous
    validator validatorBalance :
  forallb Transaction.isValid transactions = true ->
  transactions <> [] ->
  blockWellFormed i previous
    (PosBlock.new now (Z.of_nat i) transactions previous validator validatorBalance).
Proof. intros Hvalid Hne. repeat split; done. Qed.

Lemma pos_createTransaction_final (this this' : ProofOfStakeBlockchain.t) transaction :
  final_state (createTransaction transaction this) = Some this' ->
  this' = this
  \/ (Transaction.isValid transaction = true
      /\ this' = with_pendingTransactions
                   (pendingTransactions this ++ [transaction]) this).
Proof.
  unfold createTransaction. run_method.
  destruct (Transaction.isValid transaction); simpl;
    [|intros [= <-]; by left].
  destruct (Transaction.fromAddress transaction) as [from|].
  - destruct (getBalance from this <? Transaction.amount transaction)%number; simpl;
      intros [= <-]; [by left | by right].
  - simpl. intros [= <-]. by right.
Qed.

Lemma pool_with_reward_valid (pool : list Transaction.t)
    rewardId rewardTime selected reward :
  Forall (fun transaction => Transaction.isValid transaction = true) pool ->
  forallb Transaction.isValid
    (pool ++ [Transaction.new rewardId rewardTime None selected reward]) = true.
Proof.
  intros Hpool. rewrite forallb_app. simpl. rewrite andb_true_r.
  apply forallb_forall. intros transaction Hin. apply list_elem_of_In in Hin.
  by apply (proj1 (Forall_forall _ _) Hpool).
Qed.

Lemma new_objectInvariant genesisId txTime blockTime :
  objectInvariant (new genesisId txTime blockTime).
Proof.
  split; [apply NoDup_nil_2|]. split; [done|]. split; [constructor|].
  split; [done|]. simpl. split; [|done].
  by apply (pos_new_blockWellFormed blockTime 0).
Qed.

Lemma step_objectInvariant (this this' : ProofOfStakeBlockchain.t) :
  objectInvariant this -> step this this' -> objectInvariant this'.
Proof.
  intros (Hwf & Hkeys & Hpool & Hnonempty & Hshape) Hstep.
  destruct Hstep as [this account amount
                    |this now account amount result this' Hret
                    |this account amount result this' Hret
                    |this transaction this' Hfinal
                    |this random rewardId rewardTime blockTime this' Hfinal].
  - done.
  - rewrite stakeTokens_run in Hret.
    destruct (_ || _); injection Hret as <- <-; [done|].
    split; [by apply wf_set|]. split; [|done].
    cbn [validators with_validators with_balances].
    intros key validator.
    destruct (decide (key = account)) as [->|Hkey];
      [|rewrite get_set_ne by done; by apply Hkeys].
    rewrite get_set_eq. intros [= <-].
    destruct (JSMap.get account (validators this)) as [existing|] eqn:Hat; [|done].
    by destruct (Hkeys _ _ Hat).
  - rewrite unstakeTokens_run in Hret.
    destruct (JSMap.get account (validators this)) as [validator|] eqn:Hat;
      [|by injection Hret as <- <-].
    destruct (stake validator <? amount)%number; [by injection Hret as <- <-|].
    cbn zeta in Hret. injection Hret as <- <-.
    cbn [validators with_validators with_balances].
    assert (Hset : forall key found,
      JSMap.get key
        (JSMap.set account (with_stake (stake validator - amount)%number validator)
           (validators this)) = Some found ->
      address found = key /\ isActive found = true).
    { intros key found.
      destruct (decide (key = account)) as [->|Hkey];
        [|rewrite get_set_ne by done; by apply Hkeys].
      rewrite get_set_eq. intros [= <-]. by destruct (Hkeys _ _ Hat). }
    destruct (stake validator - amount <? minimumStake this)%number.
    + split; [by apply wf_delete, wf_set|]. split; [|done].
      cbn [validators with_validators with_balances]. intros key found.
      destruct (decide (key = account)) as [->|Hkey].
      * by rewrite get_delete_eq.
      * rewrite get_delete_ne by done. apply Hset.
    + split; [by apply wf_set|]. by split.
  - apply pos_createTransaction_final in Hfinal as [->|[Hvalid ->]]; [done|].
    split; [done|]. split; [done|]. split; [|done].
    cbn [pendingTransactions with_pendingTransactions].
    apply Forall_app. split; [done | by constructor].
  - rewrite forgeBlock_run in Hfinal.
    destruct (selectValidator random this) as [selected|]; [|by injection Hfinal as <-].
    destruct (negb (JS.truthy selected)); [by injection Hfinal as <-|].
    cbn zeta in Hfinal.
    destruct (JSMap.get selected (validators this)) as [validator|];
      [destruct (getLatestBlock this) as [latest|] eqn:Hlatest|];
      injection Hfinal as <-.
    + split; [done|]. split; [done|]. split; [constructor|].
      split; [by destruct (chain this)|].
      cbn [chain]. apply pos_chainWellFormed_snoc; [done|].
      rewrite (pos_lastHash_lookup "0" (chain this) latest Hlatest). simpl.
      apply pos_new_blockWellFormed;
        [by apply pool_with_reward_valid | by destruct (pendingTransactions this)].
    + split; [done|]. split; [done|]. split; [|done].
      cbn [pendingTransactions with_pendingTransactions].
      apply Forall_app. split; [done | by constructor].
    + split; [done|]. split; [done|]. split; [|done].
      cbn [pendingTransactions with_pendingTransactions].
      apply Forall_app. split; [done | by constructor].
Qed.

Lemma reachable_objectInvariant (this : ProofOfStakeBlockchain.t) :
  reachable this -> objectInvariant this.
Proof.
  induction 1 as [genesisId txTime blockTime|this this' _ IH Hstep].
  - apply new_objectInvariant.
  - by apply (step_objectInvariant this).
Qed.

Lemma posrun_forged :
  forgeBlock 0.5 "2aabfe228f219e9cb0eb53f16947ccf2"
    1700000006000 1700000006046 PosRun.staked
  = Return true PosRun.forged.
Proof. vm_compute. reflexivity. Qed.

Lemma posrun_forged_reachable : reachable PosRun.forged.
Proof.
  apply (reachable_step PosRun.staked); [apply posrun_staked_reachable|].
  apply (step_forgeBlock PosRun.staked 0.5%number "2aabfe228f219e9cb0eb53f16947ccf2"
           1700000006000 1700000006046 PosRun.forged).
  by rewrite posrun_forged.
Qed.

(** X21: in every reachable state [forgeBlock] returns and does not throw.
    It returns [false], changing nothing, when there is no validator.  When
    it returns [true] it has appended one block, forged by a validator of
    the registry and carrying that validator's stake, which holds the pool
    followed by the reward for that validator; the pool is empty, the
    registry is untouched, and the ledger is what applying the block's
    transactions in order makes of it, every balance moving by exactly their
    signed sum at its address where none of these updates rounds.  It
    returns [true] whenever the registry is not empty and holds no validator
    under the empty address. *)
Theorem forgeBlock_spec (this : ProofOfStakeBlockchain.t)
    random rewardId rewardTime blockTime :
  reachable this ->
  exists result this',
    forgeBlock random rewardId rewardTime blockTime this = Return result this'
    /\ (result = false -> this' = this)
    /\ (validators this = JSMap.empty -> result = false)
    /\ (validators this <> JSMap.empty ->
        JSMap.get "" (validators this) = None -> result = true)
    /\ (result = true ->
        exists selected validator block,
          JSMap.get selected (validators this) = Some validator
          /\ chain this' = chain this ++ [block]
          /\ PosBlock.index block = Z.of_nat (length (chain this))
          /\ PosBlock.validator block = selected
          /\ PosBlock.validatorBalance block = stake validator
          /\ PosBlock.transactions block
             = pendingTransactions this
                 ++ [Transaction.new rewardId rewardTime None selected
                       (blockReward this)]
          /\ pendingTransactions this' = []
          /\ validators this' = validators this
          /\ balances this'
             = fold_left Ledger.applyTransaction (PosBlock.transactions block)
                 (balances this)
          /\ (Ledger.exactOn (balances this) (PosBlock.transactions block) = true ->
              forall address,
                JS.units (getBalance address this')
                = JS.units (getBalance address this)
                  + Ledger.net address (PosBlock.transactions block))).
Proof.
  intros Hreach.
  destruct (reachable_objectInvariant _ Hreach) as (Hwf & Hkeys & _ & Hnonempty & _).
  destruct (selectValidator_registry random this) as [Hnone Hsome].
  rewrite forgeBlock_run.
  destruct (selectValidator random this) as [selected|] eqn:Hselect.
  - destruct (Hsome selected eq_refl) as (key & validator & Hin & _ & Haddress).
    pose proof (In_get_Some _ _ _ Hwf Hin) as Hat.
    destruct (Hkeys _ _ Hat) as [Hkey _]. rewrite Haddress in Hkey. subst key.
    destruct (JS.truthy selected) eqn:Htruthy; cbn [negb].
    + cbn zeta. rewrite Hat.
      destruct (lookup_lt_is_Some_2 (chain this) (length (chain this) - 1))
        as [latest Hlatest]; [destruct (chain this); simpl; [done | lia]|].
      unfold getLatestBlock. rewrite Hlatest.
      eexists _, _. split; [reflexivity|]. split; [done|].
      split; [intros Hempty; by rewrite Hempty in Hat|].
      split; [done|]. intros _.
      eexists selected, validator, _. split; [done|]. split; [reflexivity|].
      repeat split. intros Hexact address. by apply balanceOf_fold.
    + eexists _, _. split; [reflexivity|]. split; [done|]. split; [done|].
      split; [|done]. intros _ Hblank.
      unfold JS.truthy in Htruthy.
      apply negb_false_iff, String.eqb_eq in Htruthy. subst selected. congruence.
  - eexists _, _. split; [reflexivity|]. split; [done|]. split; [done|].
    split; [|done]. intros Hfilled _.
    destruct (validators this) as [|[key validator] registry]; [done|].
    assert (Hat : JSMap.get key ((key, validator) :: registry) = Some validator)
      by (simpl; by rewrite String.eqb_refl).
    destruct (Hkeys _ _ Hat) as [_ Hactive].
    rewrite (proj1 Hnone eq_refl key validator) in Hactive; [done | by left].
Qed.

Lemma forgeBlock_spec_witness :
  exists result this',
    forgeBlock 0.5 "2aabfe228f219e9cb0eb53f16947ccf2"
      1700000006000 1700000006046 PosRun.staked = Return result this'
    /\ result = true.
Proof.
  destruct (forgeBlock_spec PosRun.staked 0.5%number
              "2aabfe228f219e9cb0eb53f16947ccf2"
              1700000006000 1700000006046 posrun_staked_reachable)
    as (result & this' & Hrun & _ & _ & Htrue & _).
  exists result, this'. split; [exact Hrun|].
  apply Htrue; [discriminate | reflexivity].
Defined.

(** X22: in every reachable state of the proof-of-stake chain
    [isChainValid] returns [true]. *)
Theorem pos_reachable_chain_is_valid (this : ProofOfStakeBlockchain.t) :
  reachable this -> isChainValid this = true.
Proof.
  intros Hreach.
  destruct (reachable_objectInvariant _ Hreach) as (_ & _ & _ & _ & Hshape).
  unfold isChainValid. apply forallb_forall. intros i Hi%in_seq.
  destruct (lookup_lt_is_Some_2 (chain this) i) as [current Hcurrent]; [lia|].
  destruct (lookup_lt_is_Some_2 (chain this) (i - 1)) as [previous Hprevious]; [lia|].
  rewrite Hcurrent, Hprevious.
  destruct i as [|j]; [lia|].
  pose proof (pos_chainWellFormed_lookup _ 0 "0" (S j) current Hshape Hcurrent)
    as (_ & Hp & Hh & _ & Hv & _).
  replace (S j - 1)%nat with j in Hprevious by lia.
  rewrite Hprevious in Hp. simpl in Hp.
  unfold blockValid. rewrite Hv, <- Hh, Hp. simpl.
  by rewrite !String.eqb_refl.
Qed.

Lemma pos_reachable_chain_is_valid_witness : isChainValid PosRun.forged = true.
Proof. exact (pos_reachable_chain_is_valid PosRun.forged posrun_forged_reachable). Defined.

End Forging.

(** ** When mining returns, and what validation skips *)

Section MiningAndGenesis.
Import Blockchain.
Local Open Scope Z_scope.
Local Open Scope method_scope.

Lemma minePendingTransactions_run (this : Blockchain.t)
    (fuel : nat) rewardId rewardTime blockTime miner :
  minePendingTransactions fuel rewardId rewardTime blockTime miner this
  = let pool :=
      pendingTransactions this
        ++ [Transaction.new rewardId rewardTime None miner (miningReward this)] in
    match getLatestBlock this with
    | None =>
        Throw "TypeError: Cannot read properties of undefined (reading 'hash')"
          (with_pendingTransactions pool this)
    | Some latest =>
        match
          TransactionBlock.mineBlock fuel (difficulty this)
            (TransactionBlock.new blockTime (Z.of_nat (length (chain this))) pool
               (TransactionBlock.hash latest))
        with
        | None => OutOfFuel
        | Some block =>
            Return tt
              (with_pendingTransactions []
                 (updateBalances (TransactionBlock.transactions block)
                    (with_chain (chain this ++ [block])
                       (with_pendingTransactions pool this))))
        end
    end.
Proof.
  unfold minePendingTransactions, getLatestBlock. run_method.
  cbn [chain with_pendingTransactions pendingTransactions difficulty miningReward].
  destruct (chain this !! (length (chain this) - 1)%nat); [|done].
  by destruct (TransactionBlock.mineBlock _ _ _).
Qed.

(** X23: in a reachable state [minePendingTransactions] does not throw, and
    it returns within [fuel] passes of the nonce search exactly when one of
    the nonces 0 to [fuel] gives the candidate block a hash that meets the
    target. *)
Theorem minePendingTransactions_returns_iff (this : Blockchain.t)
    (fuel : nat) rewardId rewardTime blockTime miner :
  reachable this ->
  let candidate :=
    TransactionBlock.new blockTime (Z.of_nat (length (chain this)))
      (pendingTransactions this
         ++ [Transaction.new rewardId rewardTime None miner (miningReward this)])
      (from_option TransactionBlock.hash "" (getLatestBlock this)) in
  (forall msg this',
     minePendingTransactions fuel rewardId rewardTime blockTime miner this
     <> Throw msg this')
  /\ ((exists this',
         minePendingTransactions fuel rewardId rewardTime blockTime miner this
         = Return tt this')
      <-> exists k : nat,
            (k <= fuel)%nat
            /\ TransactionBlock.meetsTarget (difficulty this)
                 (Nat.iter k TransactionBlock.nextNonce candidate) = true).
Proof.
  intros Hreach candidate.
  destruct (reachable_invariant _ Hreach)
    as (_ & _ & _ & genesis & rest & Hchain & _).
  destruct (lookup_lt_is_Some_2 (chain this) (length (chain this) - 1))
    as [latest Hlatest]; [rewrite Hchain; simpl; lia|].
  rewrite minePendingTransactions_run. cbn zeta.
  unfold candidate, getLatestBlock. rewrite Hlatest. cbn [from_option].
  destruct (TransactionBlock.mineBlock fuel _ _) as [block|] eqn:Hmine.
  - split; [discriminate|]. split; [|by eexists].
    intros _. apply mineBlock_least in Hmine as (k & Hk & -> & Hmeets & _).
    by exists k.
  - split; [discriminate|]. split; [by intros [? ?]|].
    intros (k & Hk & Hmeets).
    destruct (mineBlock_terminates k fuel _ _ Hmeets Hk) as [mined Hmined].
    congruence.
Qed.

Lemma minePendingTransactions_returns_iff_witness :
  exists this',
    minePendingTransactions 2 "2aabfe228f219e9cb0eb53f16947ccf2"
      1700000006000 1700000006046 "alice" Run.submitted = Return tt this'.
Proof.
  destruct (minePendingTransactions_returns_iff Run.submitted 2
              "2aabfe228f219e9cb0eb53f16947ccf2" 1700000006000 1700000006046 "alice")
    as [_ Hiff].
  - apply (reachable_step Run.fresh); [apply reachable_new|].
    exact (step_createTransaction Run.fresh Run.toAlice Run.submitted eq_refl).
  - apply Hiff. exists 2%nat. split; [lia|]. vm_compute. reflexivity.
Defined.

(** X24: [isChainValid] starts at index 1 and reads nothing of the block at
    index 0 but its hash: a chain of one block is valid whatever the block
    holds, and replacing the genesis block by any block with the same stored
    hash leaves the result of the scan as it was. *)
Theorem isChainValid_skips_genesis (this : Blockchain.t) :
  ((length (chain this) <= 1)%nat -> isChainValid this = true)
  /\ forall genesis genesis',
       chain this !! 0%nat = Some genesis ->
       TransactionBlock.hash genesis' = TransactionBlock.hash genesis ->
       isChainValid (replaceBlock 0 genesis' this) = isChainValid this.
Proof.
  split.
  - intros Hlen. unfold isChainValid.
    by replace (length (chain this) - 1)%nat with 0%nat by lia.
  - intros genesis genesis' Hat Hhash. unfold isChainValid, replaceBlock.
    cbn [chain with_chain difficulty]. rewrite length_insert.
    apply forallb_pointwise. intros k Hk%in_seq.
    pose proof (lookup_lt_Some _ _ _ Hat) as Hlen.
    rewrite list_lookup_insert_ne by lia.
    destruct (chain this !! k) as [current|]; [|done].
    destruct (decide (k = 1%nat)) as [->|Hne].
    + simpl. rewrite list_lookup_insert_eq by done. rewrite Hat.
      unfold blockValid. by rewrite Hhash.
    + by rewrite list_lookup_insert_ne by lia.
Qed.

Lemma isChainValid_skips_genesis_witness :
  isChainValid
    (replaceBlock 0
       (TransactionBlock.with_transactions
          [Transaction.new "x" 0 (Some "") "" (-5)]
          (createGenesisBlock "a4c123b1612dd272d1371c17149d4395"
             1700000000000 1700000000000))
       Run.sealed)
  = isChainValid Run.sealed.
Proof.
  destruct (isChainValid_skips_genesis Run.sealed) as [_ Hgenesis].
  apply (Hgenesis (createGenesisBlock "a4c123b1612dd272d1371c17149d4395"
                     1700000000000 1700000000000)); reflexivity.
Defined.

End MiningAndGenesis.

(** ** Submitting transactions to the proof-of-stake chain *)

Section PosPool.
Import ProofOfStakeBlockchain.
Local Open Scope Z_scope.
Local Open Scope method_scope.

Lemma pos_createTransaction_run (this : ProofOfStakeBlockchain.t) transaction :
  createTransaction transaction this
  = if negb (Transaction.isValid transaction) then
      Throw "Cannot add invalid transaction to chain" this
    else if match Transaction.fromAddress transaction with
            | Some from =>
                (getBalance from this <? Transaction.amount transaction)%number
            | None => false
            end
    then Throw "Not enough balance" this
    else Return tt
           (with_pendingTransactions
              (pendingTransactions this ++ [transaction]) this).
Proof.
  unfold createTransaction. run_method.
  destruct (Transaction.isValid transaction); [|done]. cbn [negb].
  destruct (Transaction.fromAddress transaction) as [from|]; [|done].
  by destruct (getBalance from this <? Transaction.amount transaction)%number.
Qed.

(** X25: [createTransaction] of the proof-of-stake chain throws on an
    invalid transaction and on a sender whose balance is below the amount,
    leaving the object as it was; otherwise it appends the transaction to
    the pool and touches neither the chain, the balances nor the registry.
    Below is the comparison [balance < amount] that the method makes. *)
Theorem pos_createTransaction_spec (this : ProofOfStakeBlockchain.t)
    (transaction : Transaction.t) :
  (Transaction.isValid transaction = false ->
   createTransaction transaction this
   = Throw "Cannot add invalid transaction to chain" this)
  /\ (forall from,
        Transaction.isValid transaction = true ->
        Transaction.fromAddress transaction = Some from ->
        (getBalance from this <? Transaction.amount transaction)%number = true ->
        createTransaction transaction this = Throw "Not enough balance" this)
  /\ (Transaction.isValid transaction = true ->
      (forall from,
         Transaction.fromAddress transaction = Some from ->
         (getBalance from this <? Transaction.amount transaction)%number = false) ->
      exists this',
        createTransaction transaction this = Return tt this'
        /\ pendingTransactions this' = pendingTransactions this ++ [transaction]
        /\ chain this' = chain this
        /\ balances this' = balances this
        /\ validators this' = validators this).
Proof.
  rewrite pos_createTransaction_run. split; [|split].
  - by intros ->.
  - by intros from -> -> ->.
  - intros -> Hfunds. cbn [negb].
    destruct (Transaction.fromAddress transaction) as [from|].
    + rewrite (Hfunds from eq_refl). by eexists.
    + by eexists.
Qed.

Lemma pos_createTransaction_spec_witness :
  createTransaction
    (Transaction.new "e8d28a79023c39c200661fccd268a29a" 1700000013000
       (Some "carol") "bob" 5) PosRun.staked
  = Throw "Not enough balance" PosRun.staked.
Proof.
  destruct (pos_createTransaction_spec PosRun.staked
              (Transaction.new "e8d28a79023c39c200661fccd268a29a" 1700000013000
                 (Some "carol") "bob" 5)) as (_ & Hlow & _).
  apply (Hlow "carol"); reflexivity.
Defined.

(** X26: staked tokens cannot be sent.  After [stakeTokens] has returned
    [true] the staker's balance reads as the number [balance - staked] that
    the method stored, zero standing for a [NaN]; a valid transfer from the
    staker is rejected with 'Not enough balance' when that number is below
    its amount and admitted to the pool when it is not; and where the
    subtraction did not round, the balance is exactly the old balance less
    the amount staked. *)
Theorem staked_tokens_are_locked (this this' : ProofOfStakeBlockchain.t)
    (now : Z) (staker : string) (staked : JS.number) (transfer : Transaction.t) :
  stakeTokens now staker staked this = Return true this' ->
  Transaction.fromAddress transfer = Some staker ->
  Transaction.isValid transfer = true ->
  getBalance staker this' = JS.or_zero (getBalance staker this - staked)
  /\ ((JS.or_zero (getBalance staker this - staked)
         <? Transaction.amount transfer)%number = false ->
      exists this'', createTransaction transfer this' = Return tt this'')
  /\ ((JS.or_zero (getBalance staker this - staked)
         <? Transaction.amount transfer)%number = true ->
      createTransaction transfer this' = Throw "Not enough balance" this')
  /\ (Ledger.exactly (getBalance staker this - staked)%number
        (JS.units (getBalance staker this) - JS.units staked) = true ->
      JS.units (getBalance staker this')
      = JS.units (getBalance staker this) - JS.units staked).
Proof.
  rewrite stakeTokens_run. destruct (_ || _); [discriminate|].
  intros [= <-] Hfrom Hvalid.
  rewrite pos_createTransaction_run, Hvalid, Hfrom. cbn [negb].
  set (after := with_validators _ _).
  assert (Hbalance :
    getBalance staker after = JS.or_zero (getBalance staker this - staked)).
  { unfold after, getBalance at 1. cbn [balances with_validators with_balances].
    by rewrite lookup_insert_eq. }
  rewrite Hbalance. split; [done|]. split; [|split].
  - intros ->. by eexists.
  - by intros ->.
  - intros [_ Hexact]%exactly_true. by rewrite units_or_zero.
Qed.

Lemma staked_tokens_are_locked_witness :
  createTransaction
    (Transaction.new "e8d28a79023c39c200661fccd268a29a" 1700000013000
       (Some "bob") "carol" 50) PosRun.staked
  = Throw "Not enough balance" PosRun.staked.
Proof.
  destruct (staked_tokens_are_locked PosRun.funded PosRun.staked
              1700000002000 "bob" 40
              (Transaction.new "e8d28a79023c39c200661fccd268a29a" 1700000013000
                 (Some "bob") "carol" 50) posrun_staked eq_refl eq_refl)
    as (_ & _ & Hlocked & _).
  apply Hlocked. reflexivity.
Defined.

End PosPool.
